(** * Drug-risk dashboard: the local risk formula, the update controller
      and the stat-tile click handler

    The development embeds three pieces of the page scripts:

    - [computeRiskCurve], the local "toy pharmacology" formula;
    - [updateAll], [fetchFromAPI] and [convertAPIResponse], the controller
      that asks the prediction service and falls back to the local formula;
    - the click handler installed on every [.stat] tile.

    JavaScript numbers are IEEE-754 doubles.  They are modelled by the type
    [number]: a real for every finite value plus [NaN] and the two
    infinities.  Every arithmetic operation on finite operands rounds its
    exact result with [fl], the round-to-nearest function of the platform, of
    which only monotonicity and the relative error bound [u = 2^-53] are
    used (exponent range unbounded, so neither overflow nor underflow; the
    sign of zero is not tracked).  [Math.log] is implementation-approximated
    in ECMAScript; it is a parameter with a relative accuracy of one unit in
    the last place. *)

From stdpp Require Import gmap strings list pretty sorting.
From Stdlib Require Import Reals Lra Lia ZArith.

(** ** Numbers *)

Inductive number : Type :=
| Num (r : R)
| NaN
| PosInf
| NegInf.

(** JavaScript values, as far as the scripts meet them: JSON data, and the
    functions and objects a property lookup can return from
    [Object.prototype] ([VBuiltin]). *)
#[warnings="-register-all"]
Inductive value : Type :=
| VUndefined
| VNull
| VBool (b : bool)
| VNumber (n : number)
| VString (s : string)
| VArray (elems : list value)
| VObject (fields : list (string * value))
| VBuiltin.

(** Unit roundoff of binary64. *)
Definition u : R := (/ 2 ^ 53)%R.

Class Platform : Type := {
  (** rounding of an exact real result to a double *)
  fl : R -> R;
  fl_mono : forall x y : R, (x <= y)%R -> (fl x <= fl y)%R;
  fl_err : forall x : R, (Rabs (fl x - x) <= u * Rabs x)%R;
  (** [Math.log] on positive finite arguments *)
  Math_log_R : R -> R;
  Math_log_err : forall x : R, (0 < x)%R ->
    (Rabs (Math_log_R x - ln x) <= 2 * u * Rabs (ln x))%R;
  (** the abstract operations ToString, and ToNumber on strings and on
      objects (which goes through their string form) *)
  ToString : value -> string;
  ToNumber_text : value -> number
}.

#[global] Instance Rlt_decision (x y : R) : Decision (x < y)%R := Rlt_dec x y.
#[global] Instance Req_decision : EqDecision R := Req_dec_T.

Section Arithmetic.
Context {P : Platform}.
Local Open Scope R_scope.

Definition Rsign (x : R) : comparison :=
  if decide (0 < x) then Gt else if decide (x < 0) then Lt else Eq.

Definition inf_of (c : comparison) : number :=
  match c with Gt => PosInf | Lt => NegInf | Eq => NaN end.

(** A decimal literal denotes the double nearest to it; integer literals of
    the scripts are small and exact, and are written [Num n]. *)
Definition lit (x : R) : number := Num (fl x).

Definition neg (x : number) : number :=
  match x with
  | Num a => Num (- a)
  | NaN => NaN
  | PosInf => NegInf
  | NegInf => PosInf
  end.

Definition add (x y : number) : number :=
  match x, y with
  | Num a, Num b => Num (fl (a + b))
  | NaN, _ | _, NaN => NaN
  | PosInf, NegInf | NegInf, PosInf => NaN
  | PosInf, _ | _, PosInf => PosInf
  | NegInf, _ | _, NegInf => NegInf
  end.

Definition sub (x y : number) : number := add x (neg y).

Definition mul (x y : number) : number :=
  match x, y with
  | Num a, Num b => Num (fl (a * b))
  | NaN, _ | _, NaN => NaN
  | PosInf, Num b | Num b, PosInf => inf_of (Rsign b)
  | NegInf, Num b | Num b, NegInf => inf_of (CompOpp (Rsign b))
  | PosInf, PosInf | NegInf, NegInf => PosInf
  | PosInf, NegInf | NegInf, PosInf => NegInf
  end.

Definition div (x y : number) : number :=
  match x, y with
  | NaN, _ | _, NaN => NaN
  | Num a, Num b => if decide (b = 0) then inf_of (Rsign a) else Num (fl (a / b))
  | Num _, (PosInf | NegInf) => Num 0
  | PosInf, Num b => if decide (b < 0) then NegInf else PosInf
  | NegInf, Num b => if decide (b < 0) then PosInf else NegInf
  | (PosInf | NegInf), (PosInf | NegInf) => NaN
  end.

(** [x > y]; every comparison with [NaN] is false. *)
Definition gt (x y : number) : bool :=
  match x, y with
  | Num a, Num b => bool_decide (b < a)
  | PosInf, (Num _ | NegInf) => true
  | Num _, NegInf => true
  | _, _ => false
  end.

Definition Math_max (x y : number) : number :=
  match x, y with
  | NaN, _ | _, NaN => NaN
  | PosInf, _ | _, PosInf => PosInf
  | NegInf, z | z, NegInf => z
  | Num a, Num b => Num (Rmax a b)
  end.

Definition Math_min (x y : number) : number :=
  match x, y with
  | NaN, _ | _, NaN => NaN
  | NegInf, _ | _, NegInf => NegInf
  | PosInf, z | z, PosInf => z
  | Num a, Num b => Num (Rmin a b)
  end.

(** [Math.round]: the nearest integer, a tie going up. *)
Definition Math_round (x : number) : number :=
  match x with
  | Num a => Num (IZR (Zfloor (a + / 2)))
  | other => other
  end.

Definition Math_log (x : number) : number :=
  match x with
  | Num a => if decide (0 < a) then Num (Math_log_R a)
             else if decide (a = 0) then NegInf else NaN
  | PosInf => PosInf
  | NaN | NegInf => NaN
  end.

(** ToNumber and ToBoolean of ECMAScript. *)
Definition ToNumber (v : value) : number :=
  match v with
  | VUndefined => NaN
  | VNull => Num 0
  | VBool b => Num (if b then 1 else 0)
  | VNumber n => n
  | VBuiltin => NaN
  | VString _ | VArray _ | VObject _ => ToNumber_text v
  end.

Definition ToBoolean (v : value) : bool :=
  match v with
  | VUndefined | VNull => false
  | VBool b => b
  | VNumber (Num a) => bool_decide (a <> 0)
  | VNumber NaN => false
  | VNumber _ => true
  | VString s => bool_decide (s <> "")
  | VArray _ | VObject _ | VBuiltin => true
  end.

(** [a || b] *)
Definition or_else (a b : value) : value := if ToBoolean a then a else b.

(** [a !== undefined] *)
Definition defined (a : value) : bool :=
  match a with VUndefined => false | _ => true end.

End Arithmetic.

(** ** The dashboard's data *)

(** The form state [{ sex, age, med, dose }]; the input handlers store
    [Number(value)] in [age] and [dose], so both are numbers. *)
Record State : Type := {
  sex : string;
  age : number;
  med : string;
  dose : number
}.

(** [recommendation]: [computeRiskCurve] builds [{ text, dose }],
    [convertAPIResponse] only [{ text }]. *)
Module Rec.
Record t : Type := { text : string; dose : option number }.
End Rec.

Record Result : Type := {
  times : list number;
  femaleCurve : list number;
  maleCurve : list number;
  diffPct : number;
  recommendation : Rec.t;
  metab : string
}.

(** Property names every object literal inherits from [Object.prototype];
    a lookup of one of them finds a function (or, for [__proto__], the
    prototype object) instead of [undefined]. *)
Definition Object_prototype_keys : list string :=
  [ "constructor"; "hasOwnProperty"; "isPrototypeOf"; "propertyIsEnumerable";
    "toLocaleString"; "toString"; "valueOf"; "__proto__";
    "__defineGetter__"; "__defineSetter__"; "__lookupGetter__";
    "__lookupSetter__" ].

(** [obj[k]] for an object literal whose own properties are [own]. *)
Definition get_property (own : gmap string value) (k : string) : value :=
  match own !! k with
  | Some v => v
  | None => if bool_decide (k ∈ Object_prototype_keys) then VBuiltin
            else VUndefined
  end.

(** [arr[i]] read as an operand of arithmetic: a missing element is
    [undefined], which ToNumber turns into [NaN]. *)
Definition at_index (arr : list number) (i : nat) : number :=
  default NaN (arr !! i).

Section Formula.
Context {P : Platform}.
Local Open Scope R_scope.

(** [{ sertraline: 0.12, amlodipine: 0.08, metformin: 0.04 }] *)
Definition medTable : gmap string value :=
  {[ "sertraline" := VNumber (lit 0.12);
     "amlodipine" := VNumber (lit 0.08);
     "metformin" := VNumber (lit 0.04) ]}.

Definition computeRiskCurve (s : State) : Result :=
  let times := [Num 1; Num 4; Num 8; Num 12; Num 48] in
  let medBase := or_else (get_property medTable (med s)) (VNumber (lit 0.06)) in
  let sexMult := if bool_decide (sex s = "female") then lit 1.26 else Num 1 in
  let ageMult :=
    add (Num 1) (div (Math_max (Num 0) (sub (age s) (Num 30))) (Num 100)) in
  let doseFactor :=
    add (Num 1) (div (Math_log (add (Num 1) (div (dose s) (Num 20)))) (Num 3)) in
  let base := mul (ToNumber medBase) (Num 100) in
  let femaleCurve :=
    imap (fun i t =>
      let tFactor := add (Num 1) (mul (Num (INR i)) (lit 0.06)) in
      let raw := mul (mul (mul (mul base tFactor) sexMult) ageMult) doseFactor in
      Math_min (Num 95) (div (Math_round (mul raw (Num 10))) (Num 10))) times in
  let maleCurve :=
    imap (fun i t =>
      let tFactor := add (Num 1) (mul (Num (INR i)) (lit 0.06)) in
      let raw := mul (mul (mul (mul base tFactor) (Num 1)) ageMult) doseFactor in
      Math_min (Num 95) (div (Math_round (mul raw (Num 10))) (Num 10))) times in
  let femaleAt50 := at_index femaleCurve 2 in
  let maleAt50 := at_index maleCurve 2 in
  let diffPct :=
    Math_round (mul (div (sub femaleAt50 maleAt50) (Math_max maleAt50 (Num 1)))
                    (Num 100)) in
  let recommendation :=
    if bool_decide (sex s = "female") && gt diffPct (Num 15) then
      let recDose := Math_max (Num 1) (Math_round (mul (dose s) (lit 0.8))) in
      {| Rec.text := "Recommended: " +:+ ToString (VNumber recDose)
                       +:+ " mg (optimized for female metabolism)";
         Rec.dose := Some recDose |}
    else
      {| Rec.text := "Recommended: " +:+ ToString (VNumber (dose s))
                       +:+ " mg (no change)";
         Rec.dose := Some (dose s) |} in
  let metab :=
    if bool_decide (med s = "sertraline")
    then "Women metabolize sertraline ~25% slower in this demo model, which can increase plasma concentrations."
    else "Pharmacokinetic sex differences may alter drug exposure." in
  {| times := times; femaleCurve := femaleCurve; maleCurve := maleCurve;
     diffPct := diffPct; recommendation := recommendation; metab := metab |}.

End Formula.

(** ** Exceptions *)

(** A thrown [Error] object; the scripts only ever read its [message]. *)
Inductive exn : Type := Thrown (message : string).

Definition message_of (e : exn) : string := let 'Thrown m := e in m.

(** A computation that returns or throws. *)
Definition Exc (A : Type) : Type := (exn + A)%type.

Definition throw {A : Type} (m : string) : Exc A := inl (Thrown m).

#[global] Instance Exc_ret : MRet Exc := fun A x => inr x.
#[global] Instance Exc_bind : MBind Exc :=
  fun A B f m => match m with inl e => inl e | inr x => f x end.

(** [try { body } catch (e) { handler(e) }] *)
Definition try_catch {A : Type} (body : Exc A) (handler : exn -> Exc A) : Exc A :=
  match body with inl e => handler e | inr x => inr x end.

(** ** The prediction service *)

(** The property names the controller reads from the service's answer.
    None of them is a property of a built-in prototype, so a read finds an
    own property or [undefined]. *)
Inductive api_key : Type :=
  risk_probability | risk_label | confidence | prediction | error.

Definition key_name (k : api_key) : string :=
  match k with
  | risk_probability => "risk_probability"
  | risk_label => "risk_label"
  | confidence => "confidence"
  | prediction => "prediction"
  | error => "error"
  end.

(** [v.k]: a [TypeError] on [null] and [undefined], the own property of an
    object (the first binding of the key in [fields]), [undefined] on
    everything else. *)
Definition getprop (v : value) (k : api_key) : Exc value :=
  match v with
  | VUndefined | VNull => throw "Cannot read properties of null or undefined"
  | VObject fields =>
      mret (default VUndefined
              (list_to_map (M := gmap string value) fields !! key_name k))
  | _ => mret VUndefined
  end.

(** The JSON body [{gender, age, medication, dose, duration}] of the
    request. *)
Record ApiData : Type := {
  api_gender : string;
  api_age : number;
  api_medication : value;
  api_dose : number;
  api_duration : number
}.

(** What [fetch] and [response.json()] can do: the request is rejected
    (network failure), or a response with a status arrives whose body parses
    as JSON or fails to. *)
Inductive fetch_outcome : Type :=
| Rejected (e : exn)
| Responded (ok : bool) (status : nat) (json : Exc value).

(** ** The page *)

Inductive text_element : Type := riskDiffVal | recommendText | metabText.

#[global] Instance text_element_eq_dec : EqDecision text_element.
Proof. solve_decision. Defined.

Record ElementState : Type := {
  innerHTML : string;
  opacity : string;
  transform : string
}.

(** The three text elements, the two chart datasets with the data last
    drawn by [chart.update], and the callbacks [animateTextUpdate] has handed
    to [setTimeout] and that have not run yet, oldest first: all of them are
    set with the same delay, so they run in this order. *)
Record Page : Type := {
  elements : text_element -> ElementState;
  dataset0 : list number;
  dataset1 : list number;
  drawn : list number * list number;
  timers : list (text_element * string)
}.

Definition set_element (el : text_element) (st : ElementState) (pg : Page) : Page :=
  {| elements := fun e => if decide (e = el) then st else elements pg e;
     dataset0 := dataset0 pg; dataset1 := dataset1 pg;
     drawn := drawn pg; timers := timers pg |}.

Definition animateTextUpdate (el : text_element) (newContent : string) (pg : Page) : Page :=
  let pg := set_element el
              {| innerHTML := innerHTML (elements pg el);
                 opacity := "0.5"; transform := "translateY(5px)" |} pg in
  {| elements := elements pg; dataset0 := dataset0 pg; dataset1 := dataset1 pg;
     drawn := drawn pg; timers := timers pg ++ [(el, newContent)] |}.

(** The callback of [animateTextUpdate] when its timer expires. *)
Definition timer_callback (cb : text_element * string) (pg : Page) : Page :=
  set_element cb.1
    {| innerHTML := cb.2; opacity := "1"; transform := "translateY(0)" |} pg.

(** The oldest pending timer expires. *)
Definition fire (pg : Page) : Page :=
  match timers pg with
  | [] => pg
  | cb :: rest =>
      timer_callback cb
        {| elements := elements pg; dataset0 := dataset0 pg;
           dataset1 := dataset1 pg; drawn := drawn pg; timers := rest |}
  end.

Fixpoint fire_n (n : nat) (pg : Page) : Page :=
  match n with O => pg | S k => fire_n k (fire pg) end.

(** All pending timers expire. *)
Definition settle (pg : Page) : Page := fire_n (length (timers pg)) pg.

Definition set_chart (female male : list number) (pg : Page) : Page :=
  {| elements := elements pg; dataset0 := female; dataset1 := male;
     drawn := drawn pg; timers := timers pg |}.

(** [chart.update('active')] *)
Definition chart_update (pg : Page) : Page :=
  {| elements := elements pg; dataset0 := dataset0 pg; dataset1 := dataset1 pg;
     drawn := (dataset0 pg, dataset1 pg); timers := timers pg |}.

(** ** The controller *)

Section Controller.
Context {P : Platform}.
Local Open Scope R_scope.

Definition medMap : gmap string value :=
  {[ "sertraline" := VString "Atorvastatin";
     "amlodipine" := VString "Metformin";
     "metformin" := VString "Lisinopril" ]}.

Definition getMedicationName (medKey : string) : value :=
  or_else (get_property medMap medKey) (VString "Atorvastatin").

Definition convertAPIResponse (apiResult : value) (state : State) : Exc Result :=
  let times := [Num 1; Num 4; Num 8; Num 12; Num 48] in
  direct ← getprop apiResult risk_probability;
  '(riskProb, riskLabel, conf) ←
    (if defined direct then
       riskLabel ← getprop apiResult risk_label;
       conf ← getprop apiResult confidence;
       mret (direct, riskLabel, conf)
     else
       pred ← getprop apiResult prediction;
       nested ← (if ToBoolean pred then getprop pred risk_probability
                 else mret VUndefined);
       if ToBoolean pred && defined nested then
         riskLabel ← getprop pred risk_label;
         conf ← getprop pred confidence;
         mret (nested, riskLabel, conf)
       else throw "Invalid API response structure");
  let baseRisk := mul (ToNumber riskProb) (Num 100) in
  let femaleCurve :=
    imap (fun i t =>
      let tFactor := add (Num 1) (mul (Num (INR i)) (lit 0.05)) in
      Math_min (Num 95)
        (div (Math_round (mul (mul baseRisk tFactor) (Num 10))) (Num 10))) times in
  let maleCurve :=
    imap (fun i t =>
      let tFactor := add (Num 1) (mul (Num (INR i)) (lit 0.05)) in
      let maleRisk := mul baseRisk (lit 0.8) in
      Math_min (Num 95)
        (div (Math_round (mul (mul maleRisk tFactor) (Num 10))) (Num 10))) times in
  let diffPct :=
    Math_round (mul (div (sub (at_index femaleCurve 2) (at_index maleCurve 2))
                         (Math_max (at_index maleCurve 2) (Num 1)))
                    (Num 100)) in
  let recommendationText :=
    if gt (ToNumber riskProb) (lit 0.7) then
      "Recommended: "
        +:+ ToString (VNumber (Math_round (mul (dose state) (lit 0.8))))
        +:+ " mg (reduced for high risk)"
    else if gt (ToNumber riskProb) (lit 0.3) then
      "Recommended: " +:+ ToString (VNumber (dose state)) +:+ " mg (monitor closely)"
    else "Recommended: " +:+ ToString (VNumber (dose state)) +:+ " mg" in
  mret {| times := times; femaleCurve := femaleCurve; maleCurve := maleCurve;
          diffPct := diffPct;
          recommendation := {| Rec.text := recommendationText; Rec.dose := None |};
          metab := "Risk Level: " +:+ ToString riskLabel +:+ " ("
                   +:+ ToString (VNumber (Math_round (mul (ToNumber riskProb) (Num 100))))
                   +:+ "% probability). Confidence: " +:+ ToString conf +:+ "." |}.

(** [fetchFromAPI]; [fetch] stands for the network: what the POST of the
    request body to [/predict] comes to.  The request is built from the form
    state at the call, [state]; the conversion runs after the two [await]s
    and reads the same object as it is then, [later]. *)
Definition fetchFromAPI (fetch : ApiData -> fetch_outcome) (state later : State) :
    Exc Result :=
  let apiData :=
    {| api_gender := if bool_decide (sex state = "female") then "Female" else "Male";
       api_age := age state;
       api_medication := getMedicationName (med state);
       api_dose := dose state;
       api_duration := Num 7 |} in
  match fetch apiData with
  | Rejected e => inl e
  | Responded ok status json =>
      if negb ok then
        throw ("API request failed: " +:+ ToString (VNumber (Num (INR status))))
      else
        apiResult ← json;
        err ← getprop apiResult error;
        if ToBoolean err then throw (ToString err)
        else convertAPIResponse apiResult later
  end.

(** [updateAll] up to its [await]: the three placeholders. *)
Definition updateAll_loading (pg : Page) : Page :=
  let pg := animateTextUpdate riskDiffVal "Analyzing..." pg in
  let pg := animateTextUpdate recommendText
              "<strong>Computing recommendations...</strong>" pg in
  animateTextUpdate metabText "Processing metabolic data..." pg.

(** [updateAll] from the point where the promise of [fetchFromAPI] is
    settled with [answer]; [state] is the form state at that moment. *)
Definition updateAll_render (answer : Exc Result) (state : State) (pg : Page) : Exc Page :=
  result ← try_catch answer (fun apiError => mret (computeRiskCurve state));
  let pg := set_chart (femaleCurve result) (maleCurve result) pg in
  let pg := chart_update pg in
  let pg := animateTextUpdate riskDiffVal
              (ToString (VNumber (diffPct result)) +:+ "% higher risk for women at ~"
                 +:+ ToString (VNumber (dose state)) +:+ "mg") pg in
  let pg := animateTextUpdate recommendText
              ("<strong>" +:+ Rec.text (recommendation result) +:+ "</strong>") pg in
  mret (animateTextUpdate metabText (metab result) pg).

Definition updateAll_failed (e : exn) (pg : Page) : Page :=
  let pg := animateTextUpdate riskDiffVal ("Analysis failed: " +:+ message_of e) pg in
  let pg := animateTextUpdate recommendText
              "<strong>Unable to generate recommendations</strong>" pg in
  animateTextUpdate metabText "Metabolic analysis unavailable" pg.

(** One run of [updateAll].  [state] is the form state when it is called,
    [elapsed] the number of timers that expire while the request is pending,
    [later] the form state when the request is settled (the handlers mutate
    the one [state] object, and the code after an [await] reads it
    again). *)
Definition updateAll (fetch : ApiData -> fetch_outcome) (state later : State)
    (elapsed : nat) (pg : Page) : Page :=
  let pg := updateAll_loading pg in
  let answer := fetchFromAPI fetch state later in
  let pg := fire_n elapsed pg in
  match updateAll_render answer later pg with
  | inr pg' => pg'
  | inl e => updateAll_failed e pg
  end.

End Controller.

(** ** The input handlers *)

Inductive input_event : Type :=
| SexClick (s : string)        (* a click on [sex-m] or [sex-f] *)
| AgeChange (v : number)       (* [Number(e.target.value)] of the age field *)
| MedChange (v : string)
| DoseInput (v : number).

Record Controls : Type := {
  sexM_active : bool;
  sexF_active : bool;
  doseVal : string
}.

Section Handlers.
Context {P : Platform}.

Definition handle (ev : input_event) (st : State) (c : Controls) : State * Controls :=
  match ev with
  | SexClick s =>
      ({| sex := s; age := age st; med := med st; dose := dose st |},
       if bool_decide (s = "male")
       then {| sexM_active := true; sexF_active := false; doseVal := doseVal c |}
       else {| sexM_active := false; sexF_active := true; doseVal := doseVal c |})
  | AgeChange v => ({| sex := sex st; age := v; med := med st; dose := dose st |}, c)
  | MedChange v => ({| sex := sex st; age := age st; med := v; dose := dose st |}, c)
  | DoseInput v =>
      ({| sex := sex st; age := age st; med := med st; dose := v |},
       {| sexM_active := sexM_active c; sexF_active := sexF_active c;
          doseVal := ToString (VNumber v) +:+ " mg" |})
  end.

(** An input event: its handler updates the form state and calls
    [updateAll]; no other event arrives before the request is settled. *)
Definition on_input (fetch : ApiData -> fetch_outcome) (ev : input_event)
    (elapsed : nat) (w : State * Controls * Page) : State * Controls * Page :=
  let '(st, c, pg) := w in
  let '(st', c') := handle ev st c in
  (st', c', updateAll fetch st' st' elapsed pg).

End Handlers.

(** ** The stat tiles *)

Inductive timeout : Type :=
| RemoveRipple (el : nat)
| ClearAnimation (el : nat).

(** The part of the document the click handler touches; elements are
    numbered, and an element without an entry has no class, no inline style
    and no ripple. *)
Record Dom : Type := {
  classList : gmap nat (gset string);
  style_animation : gmap nat string;
  style_position : gmap nat string;
  ripples : gmap nat nat;
  timeouts : list timeout
}.

Definition set_classList (f : gmap nat (gset string) -> gmap nat (gset string))
    (d : Dom) : Dom :=
  {| classList := f (classList d); style_animation := style_animation d;
     style_position := style_position d; ripples := ripples d;
     timeouts := timeouts d |}.

Definition classList_remove (c : string) (el : nat) (d : Dom) : Dom :=
  set_classList (fun m => <[el := (m !!! el) ∖ {[c]}]> m) d.

Definition classList_add (c : string) (el : nat) (d : Dom) : Dom :=
  set_classList (fun m => <[el := (m !!! el) ∪ {[c]}]> m) d.

Definition contains (c : string) (el : nat) (d : Dom) : Prop :=
  c ∈ classList d !!! el.

(** [arr.forEach(f)] *)
Definition forEach {A : Type} (arr : list A) (f : A -> Dom -> Dom) (d : Dom) : Dom :=
  foldl (fun d x => f x d) d arr.

Definition createRipple (element : nat) (d : Dom) : Dom :=
  {| classList := classList d; style_animation := style_animation d;
     style_position := <[element := "relative"]> (style_position d);
     ripples := <[element := S (ripples d !!! element)]> (ripples d);
     timeouts := timeouts d ++ [RemoveRipple element] |}.

Definition animate (element : nat) (a : string) (delayed : timeout) (d : Dom) : Dom :=
  {| classList := classList d;
     style_animation := <[element := a]> (style_animation d);
     style_position := style_position d; ripples := ripples d;
     timeouts := timeouts d ++ [delayed] |}.

(** The click listener that [statEls.forEach((s, i) => ...)] installs on the
    tile [s] of index [i]. *)
Definition stat_click (statEls dots : list nat) (s : nat) (i : nat) (d : Dom) : Dom :=
  let d := forEach statEls (classList_remove "active") d in
  let d := forEach dots (classList_remove "active") d in
  let d := classList_add "active" s d in
  let d := match dots !! i with
           | Some dot => classList_add "active" dot d
           | None => d
           end in
  let d := createRipple s d in
  animate s "statClick 0.6s ease" (ClearAnimation s) d.

(** A click on the tile of index [i]. *)
Definition click (statEls dots : list nat) (i : nat) (d : Dom) : Dom :=
  match statEls !! i with
  | Some s => stat_click statEls dots s i d
  | None => d
  end.

(** ** A platform without rounding error *)

(** The idealised platform: arithmetic is exact, [Math.log] is the natural
    logarithm.  Its ToString prints the integer part of a finite number. *)
Definition exact_ToString (v : value) : string :=
  match v with
  | VUndefined => "undefined"
  | VNull => "null"
  | VBool b => if b then "true" else "false"
  | VNumber (Num r) => pretty (Zfloor r)
  | VNumber NaN => "NaN"
  | VNumber PosInf => "Infinity"
  | VNumber NegInf => "-Infinity"
  | VString s => s
  | VArray _ => ""
  | VObject _ => "[object Object]"
  | VBuiltin => "function () { [native code] }"
  end.

Definition exact_arithmetic : Platform :=
  {| fl := fun x => x;
     fl_mono := fun x y H => H;
     fl_err :=
       ltac:(intros x; cbv beta; unfold u;
             replace (x - x)%R with 0%R by ring;
             rewrite Rabs_R0; apply Rmult_le_pos;
             [ apply Rlt_le, Rinv_0_lt_compat, pow_lt; lra | apply Rabs_pos ]);
     Math_log_R := ln;
     Math_log_err :=
       ltac:(intros x _; cbv beta; unfold u;
             replace (ln x - ln x)%R with 0%R by ring;
             rewrite Rabs_R0; apply Rmult_le_pos;
             [ apply Rmult_le_pos;
               [ lra | apply Rlt_le, Rinv_0_lt_compat, pow_lt; lra ]
             | apply Rabs_pos ]);
     ToString := exact_ToString;
     ToNumber_text := fun _ => NaN |}.

(** * Vocabulary of the properties *)

(** ** Order and sign of numbers *)

Definition positive (x : number) : Prop :=
  match x with Num r => (0 < r)%R | PosInf => True | _ => False end.

Definition nonnegative (x : number) : Prop :=
  match x with Num r => (0 <= r)%R | PosInf => True | _ => False end.

(** [x <= y] as JavaScript compares: false as soon as one side is [NaN]. *)
Definition num_le (x y : number) : Prop :=
  match x, y with
  | Num a, Num b => (a <= b)%R
  | NegInf, (Num _ | NegInf | PosInf) => True
  | (Num _ | PosInf), PosInf => True
  | _, _ => False
  end.

(** [x] is a finite number between [lo] and [hi]. *)
Definition encl (lo hi : R) (x : number) : Prop :=
  match x with Num r => (lo <= r <= hi)%R | _ => False end.

(** A bound on the unit roundoff that is easy to calculate with. *)
Definition eps : R := (/ 1000000000000000)%R.

Definition nondecreasing (l : list number) : Prop :=
  forall (i j : nat) (x y : number),
    (i <= j)%nat -> l !! i = Some x -> l !! j = Some y -> num_le x y.

(** [f] is at least [m], element by element. *)
Definition dominates (f m : list number) : Prop :=
  forall (i : nat) (x y : number), f !! i = Some x -> m !! i = Some y -> num_le y x.

(** ** The parts of the formula *)

Section FormulaParts.
Context {P : Platform}.
Local Open Scope R_scope.

Definition supported (m : string) : Prop := is_Some (medTable !! m).

Definition medBase_of (m : string) : value :=
  or_else (get_property medTable m) (VNumber (lit 0.06)).

Definition base_of (m : string) : number := mul (ToNumber (medBase_of m)) (Num 100).

Definition sexMult_of (sx : string) : number :=
  if bool_decide (sx = "female") then lit 1.26 else Num 1.

Definition ageMult_of (a : number) : number :=
  add (Num 1) (div (Math_max (Num 0) (sub a (Num 30))) (Num 100)).

Definition doseFactor_of (d : number) : number :=
  add (Num 1) (div (Math_log (add (Num 1) (div d (Num 20)))) (Num 3)).

Definition tFactor_of (i : nat) : number :=
  add (Num 1) (mul (Num (INR i)) (lit 0.06)).

(** The body of the two [map] callbacks, with the sex multiplier [mult]. *)
Definition point (base mult ageMult doseFactor : number) (i : nat) : number :=
  let raw := mul (mul (mul (mul base (tFactor_of i)) mult) ageMult) doseFactor in
  Math_min (Num 95) (div (Math_round (mul raw (Num 10))) (Num 10)).

Definition femalePoint (s : State) (i : nat) : number :=
  point (base_of (med s)) (sexMult_of (sex s)) (ageMult_of (age s))
        (doseFactor_of (dose s)) i.

Definition malePoint (s : State) (i : nat) : number :=
  point (base_of (med s)) (Num 1) (ageMult_of (age s)) (doseFactor_of (dose s)) i.

(** The inputs on which the formula stays within the positive numbers: the
    medication is a key of the table or falls to the default, the age is a
    number, the dose is not negative. *)
Definition regular (s : State) : Prop :=
  (supported (med s) \/ med s ∉ Object_prototype_keys) /\
  age s <> NaN /\ num_le (Num 0) (dose s).

(** The condition of the dose reduction. *)
Definition reduction_triggers (s : State) : Prop :=
  sex s = "female" /\ gt (diffPct (computeRiskCurve s)) (Num 15) = true.

(** The example of the specification. *)
Definition example_state : State :=
  {| sex := "male"; age := Num 35; med := "sertraline"; dose := Num 50 |}.

(** The value the specification's example gives for the first element of
    the male curve:
    [min(95, round(12 * 1.0 * 1.0 * doseFactor(50) * 10) / 10)]. *)
Definition example_expected : number :=
  Math_min (Num 95)
    (div (Math_round
            (mul (mul (mul (mul (Num 12) (Num 1)) (Num 1)) (doseFactor_of (Num 50)))
                 (Num 10)))
         (Num 10)).

(** The same with the age multiplier of a 35-year-old, [1.05]. *)
Definition example_with_age : number :=
  Math_min (Num 95)
    (div (Math_round
            (mul (mul (mul (mul (Num 12) (Num 1)) (lit 1.05)) (doseFactor_of (Num 50)))
                 (Num 10)))
         (Num 10)).

(** The same patient, female. *)
Definition female_example_state : State :=
  {| sex := "female"; age := Num 35; med := "sertraline"; dose := Num 50 |}.

(** A form state with a dose just above [-20]. *)
Definition negative_dose_state (sx : string) : State :=
  {| sex := sx; age := Num 30; med := "sertraline"; dose := lit (-19.9999) |}.

End FormulaParts.

(** ** Certified bounds on the exponential *)

(** Squaring [k] times over the fixed denominator [s], rounding up or
    down, encloses the [2^k]-th power of a non-negative ratio [a / s]. *)
Fixpoint sq_up (k : nat) (s a : Z) : Z :=
  match k with O => a | S k' => sq_up k' s ((a * a + s - 1) / s) end.

Fixpoint sq_down (k : nat) (s a : Z) : Z :=
  match k with O => a | S k' => sq_down k' s (a * a / s) end.

(** Numerators over [s] of an upper and of a lower bound of [exp (p / q)]:
    [(1 - x/n)^-n] and [(1 + x/n)^n] for [n = 2^k]. *)
Definition exp_ub (p q : Z) (k : nat) (s : Z) : Z :=
  let n := (q * 2 ^ Z.of_nat k)%Z in
  sq_up k s ((s * n + (n - p) - 1) / (n - p)).

Definition exp_lb (p q : Z) (k : nat) (s : Z) : Z :=
  let n := (q * 2 ^ Z.of_nat k)%Z in
  sq_down k s (s * (n + p) / n).

(** ** Texts and timers *)

(** [s] ends with [suffix]. *)
Definition ends_with (suffix s : string) : Prop := exists p, s = p +:+ suffix.

(** The content the last pending callback for an element will write. *)
Fixpoint last_write (el : text_element) (l : list (text_element * string)) : option string :=
  match l with
  | [] => None
  | (e, content) :: rest =>
      match last_write el rest with
      | Some later => Some later
      | None => if decide (e = el) then Some content else None
      end
  end.

(** ** The service's answer and the rendered page *)

(** The answer has the field [k]: reading it finds something other than
    [undefined]. *)
Definition has_field (v : value) (k : api_key) : Prop :=
  exists x, getprop v k = inr x /\ x <> VUndefined.

(** The answer has neither [risk_probability] nor
    [prediction.risk_probability]. *)
Definition unexpected_shape (apiResult : value) : Prop :=
  ~ has_field apiResult risk_probability /\
  forall pred, getprop apiResult prediction = inr pred ->
               ~ has_field pred risk_probability.

Section Rendered.
Context {P : Platform}.

(** The call to the service fails: the promise of [fetchFromAPI] is
    rejected. *)
Definition call_fails (fetch : ApiData -> fetch_outcome) (state later : State) : Prop :=
  exists e, fetchFromAPI fetch state later = inl e.

(** What the page shows once [result] is rendered for the form state
    [state] and no timer is pending. *)
Definition shows (result : Result) (state : State) (pg : Page) : Prop :=
  dataset0 pg = femaleCurve result /\ dataset1 pg = maleCurve result /\
  drawn pg = (femaleCurve result, maleCurve result) /\
  innerHTML (elements pg riskDiffVal) =
    ToString (VNumber (diffPct result)) +:+ "% higher risk for women at ~"
      +:+ ToString (VNumber (dose state)) +:+ "mg" /\
  innerHTML (elements pg recommendText) =
    "<strong>" +:+ Rec.text (recommendation result) +:+ "</strong>" /\
  innerHTML (elements pg metabText) = metab result /\
  timers pg = [].

End Rendered.

(** A network that cannot reach the service, and a page, controls and a
    document to try the handlers on. *)
Definition unreachable (req : ApiData) : fetch_outcome :=
  Rejected (Thrown "Failed to fetch").

Definition blank : ElementState :=
  {| innerHTML := ""; opacity := ""; transform := "" |}.

Definition initial_page : Page :=
  {| elements := fun _ => blank; dataset0 := [Num 0; Num 0; Num 0; Num 0; Num 0];
     dataset1 := [Num 0; Num 0; Num 0; Num 0; Num 0];
     drawn := ([], []); timers := [] |}.

Definition initial_controls : Controls :=
  {| sexM_active := true; sexF_active := false; doseVal := "50 mg" |}.

Definition sample_dom : Dom :=
  {| classList := {[ 0%nat := {[ "stat"; "active" ]}; 10%nat := {[ "dot"; "active" ]} ]};
     style_animation := ∅; style_position := ∅; ripples := ∅; timeouts := [] |}.

(** * More of the dashboard *)

(** ** The fields of the service's answer *)

(** [v.k] when the read does not throw. *)
Definition field (v : value) (k : api_key) : value :=
  match getprop v k with inr x => x | inl _ => VUndefined end.

(** The three fields [convertAPIResponse] settles on: the top-level ones when
    [risk_probability] is there, those of [prediction] otherwise. *)
Definition riskProb_of (v : value) : value :=
  if defined (field v risk_probability) then field v risk_probability
  else field (field v prediction) risk_probability.

Definition riskLabel_of (v : value) : value :=
  if defined (field v risk_probability) then field v risk_label
  else field (field v prediction) risk_label.

Definition confidence_of (v : value) : value :=
  if defined (field v risk_probability) then field v confidence
  else field (field v prediction) confidence.

Section ApiParts.
Context {P : Platform}.
Local Open Scope R_scope.

Definition api_tFactor (i : nat) : number :=
  add (Num 1) (mul (Num (INR i)) (lit 0.05)).

(** The body of the two [map] callbacks of [convertAPIResponse], for the
    risk [risk] ([baseRisk] for the female curve, [maleRisk] for the male
    one). *)
Definition apiPoint (risk : number) (i : nat) : number :=
  Math_min (Num 95)
    (div (Math_round (mul (mul risk (api_tFactor i)) (Num 10))) (Num 10)).

(** What [convertAPIResponse] returns once it has found the three fields. *)
Definition api_result (riskProb riskLabel conf : value) (state : State) : Result :=
  let baseRisk := mul (ToNumber riskProb) (Num 100) in
  let femaleCurve := map (apiPoint baseRisk) [0; 1; 2; 3; 4]%nat in
  let maleCurve := map (apiPoint (mul baseRisk (lit 0.8))) [0; 1; 2; 3; 4]%nat in
  let diffPct :=
    Math_round (mul (div (sub (at_index femaleCurve 2) (at_index maleCurve 2))
                         (Math_max (at_index maleCurve 2) (Num 1)))
                    (Num 100)) in
  let recommendationText :=
    if gt (ToNumber riskProb) (lit 0.7) then
      "Recommended: "
        +:+ ToString (VNumber (Math_round (mul (dose state) (lit 0.8))))
        +:+ " mg (reduced for high risk)"
    else if gt (ToNumber riskProb) (lit 0.3) then
      "Recommended: " +:+ ToString (VNumber (dose state)) +:+ " mg (monitor closely)"
    else "Recommended: " +:+ ToString (VNumber (dose state)) +:+ " mg" in
  {| times := [Num 1; Num 4; Num 8; Num 12; Num 48];
     femaleCurve := femaleCurve; maleCurve := maleCurve; diffPct := diffPct;
     recommendation := {| Rec.text := recommendationText; Rec.dose := None |};
     metab := "Risk Level: " +:+ ToString riskLabel +:+ " ("
              +:+ ToString (VNumber (Math_round (mul (ToNumber riskProb) (Num 100))))
              +:+ "% probability). Confidence: " +:+ ToString conf +:+ "." |}.

End ApiParts.

(** ** Runs of the controller *)

(** The input handlers, one event after the other. *)
Definition handle_all {P : Platform} (evs : list input_event) (w : State * Controls) :
    State * Controls :=
  foldl (fun w ev => handle ev w.1 w.2) w evs.

(** The sex buttons agree with the form state: the male button is the
    active one exactly when [state.sex] is ['male'], and one of the two is
    active. *)
Definition sex_buttons_agree (w : State * Controls) : Prop :=
  sexM_active w.2 = bool_decide (sex w.1 = "male") /\
  sexF_active w.2 = negb (sexM_active w.2).

Section ControllerParts.
Context {P : Platform}.

(** [updateAll] from its [await] on. *)
Definition updateAll_resume (answer : Exc Result) (later : State) (pg : Page) : Page :=
  match updateAll_render answer later pg with
  | inr pg' => pg'
  | inl e => updateAll_failed e pg
  end.

(** Two runs of [updateAll] that overlap: the second one is called (by a
    later input event) while the request of the first is pending, and the
    request of the first is settled last.  [a], [b], [c] count the timers
    that expire in between. *)
Definition overlapping_updates (fetch : ApiData -> fetch_outcome)
    (state1 state2 later2 later1 : State) (a b c : nat) (pg : Page) : Page :=
  let pg := updateAll_loading pg in
  let answer1 := fetchFromAPI fetch state1 later1 in
  let pg := fire_n a pg in
  let pg := updateAll_loading pg in
  let answer2 := fetchFromAPI fetch state2 later2 in
  let pg := fire_n b pg in
  let pg := updateAll_resume answer2 later2 pg in
  let pg := fire_n c pg in
  updateAll_resume answer1 later1 pg.

End ControllerParts.

(** ** The recommended dose *)

(** The recommended dose is lower than the input dose ([recDose < dose]). *)
Definition reduces_dose {P : Platform} (s : State) : bool :=
  match Rec.dose (recommendation (computeRiskCurve s)) with
  | Some recDose => gt (dose s) recDose
  | None => false
  end.

(** [y] has the sign of [x] and is at least as large in size; this is
    void when [x] is [NaN] or zero. *)
Definition amplifies (x y : number) : Prop :=
  match x with
  | NaN => True
  | Num a => a = 0%R \/
             match y with
             | Num b => (0 < a <= b)%R \/ (b <= a < 0)%R
             | PosInf => (0 < a)%R
             | NegInf => (a < 0)%R
             | NaN => False
             end
  | PosInf => y = PosInf
  | NegInf => y = NegInf
  end.

(** ** Sample inputs *)

(** The patient of the example, female, at a dose of 2 mg. *)
Definition low_dose_state : State :=
  {| sex := "female"; age := Num 35; med := "sertraline"; dose := Num 2 |}.

(** A patient old enough for both curves to reach the cap of 95. *)
Definition clamped_state : State :=
  {| sex := "female"; age := Num 830; med := "sertraline"; dose := Num 50 |}.

(** Answers of the service: a risk of zero; a risk of one half, alone and
    beside a nested prediction; an error. *)
Definition zero_risk_answer : value :=
  VObject [("risk_probability", VNumber (Num 0))].

Definition half_risk_answer : value :=
  VObject [("risk_probability", VNumber (Num (1 / 2)))].

Definition half_risk_answer_with_prediction : value :=
  VObject [("risk_probability", VNumber (Num (1 / 2)));
           ("prediction", VObject [("risk_probability", VNumber (Num 1))])].

Definition error_answer : value :=
  VObject [("error", VString "model not loaded")].

(** * More of the landing page *)

(** ** The autoplay of the stat tiles *)

(** [cycleToNextStat]; [currentStatIndex] is a non-negative integer, or
    [NaN] ([None]) once the remainder by [totalStats = 0] has been taken. *)
Definition cycleToNextStat (statEls dots : list nat) (currentStatIndex : option nat)
    (d : Dom) : option nat * Dom :=
  let totalStats := length statEls in
  let d := forEach statEls (classList_remove "active") d in
  let d := forEach dots (classList_remove "active") d in
  let d := match currentStatIndex ≫= (fun i => statEls !! i) with
           | Some s => classList_add "active" s d
           | None => d
           end in
  let d := match currentStatIndex ≫= (fun i => dots !! i) with
           | Some dot => classList_add "active" dot d
           | None => d
           end in
  (match currentStatIndex with
   | Some i => if decide (totalStats = 0%nat) then None
               else Some ((i + 1) mod totalStats)%nat
   | None => None
   end, d).

(** What happens to the tiles: a tick of the autoplay timer, a click on the
    tile of index [i], or the expiry of the oldest pending timeout of a
    click. *)
Inductive tile_event : Type :=
| Tick
| Click (i : nat)
| Expire.

#[global] Instance tile_event_eq_dec : EqDecision tile_event.
Proof. solve_decision. Defined.

#[global] Instance timeout_eq_dec : EqDecision timeout.
Proof. solve_decision. Defined.

(** The callbacks of the timeouts that a click sets. *)
Definition run_timeout (t : timeout) (d : Dom) : Dom :=
  match t with
  | RemoveRipple el =>
      {| classList := classList d; style_animation := style_animation d;
         style_position := style_position d;
         ripples := <[el := pred (ripples d !!! el)]> (ripples d);
         timeouts := timeouts d |}
  | ClearAnimation el =>
      {| classList := classList d;
         style_animation := <[el := ""]> (style_animation d);
         style_position := style_position d; ripples := ripples d;
         timeouts := timeouts d |}
  end.

(** The oldest pending timeout expires (all of them are set for 600 ms, so
    they expire in the order they were set). *)
Definition expire (d : Dom) : Dom :=
  match timeouts d with
  | [] => d
  | t :: rest =>
      run_timeout t
        {| classList := classList d; style_animation := style_animation d;
           style_position := style_position d; ripples := ripples d;
           timeouts := rest |}
  end.

Fixpoint expire_n (n : nat) (d : Dom) : Dom :=
  match n with O => d | S k => expire_n k (expire d) end.

(** All the pending timeouts expire. *)
Definition expire_all (d : Dom) : Dom := expire_n (length (timeouts d)) d.

(** The tiles with the index of the autoplay. *)
Definition tile_step (statEls dots : list nat) (w : option nat * Dom) (ev : tile_event) :
    option nat * Dom :=
  match ev with
  | Tick => cycleToNextStat statEls dots w.1 w.2
  | Click i => (w.1, click statEls dots i w.2)
  | Expire => (w.1, expire w.2)
  end.

Definition tile_run (statEls dots : list nat) (evs : list tile_event)
    (w : option nat * Dom) : option nat * Dom :=
  foldl (tile_step statEls dots) w evs.

(** The number of ticks among the events. *)
Definition ticks (evs : list tile_event) : nat :=
  length (filter (fun ev => ev = Tick) evs).

(** The ripples of [el] that a pending timeout will remove. *)
Definition pending_ripples (el : nat) (ts : list timeout) : nat :=
  length (filter (fun t => t = RemoveRipple el) ts).

(** What holds of the document [d] between two events, for the document
    [d0] the tiles started from. *)
Definition ripples_accounted (d0 d : Dom) : Prop :=
  forall el, ripples d !!! el = (ripples d0 !!! el + pending_ripples el (timeouts d))%nat.

Definition cleared_or_pending (d : Dom) (el : nat) : Prop :=
  ClearAnimation el ∈ timeouts d \/ style_animation d !! el = Some "".

Definition animation_accounted (d0 d : Dom) : Prop :=
  forall el, cleared_or_pending d el \/ style_animation d !! el = style_animation d0 !! el.

(** The part of the document that the class changes leave alone. *)
Definition effects (d : Dom) : gmap nat string * gmap nat nat * list timeout :=
  (style_animation d, ripples d, timeouts d).

(** ** The start button *)

(** The callbacks that a click on the button leaves behind. *)
Inductive cta_callback : Type :=
| CtaRemoveRipple
| CtaClearAnimation
| CtaStarted (originalText : string)
| CtaRestore (originalText : string).

#[global] Instance cta_callback_eq_dec : EqDecision cta_callback.
Proof. solve_decision. Defined.

(** The button: the text of its title, its inline animation, the ripples
    appended to it, and the pending timeouts with the time (in ms) at which
    each is due, in the order in which they will run.  Its inline position,
    which every ripple sets to ['relative'] and nothing reads, is left
    out. *)
Record Cta : Type := {
  cta_title : string;
  cta_animation : string;
  cta_ripples : nat;
  cta_timers : list (nat * cta_callback)
}.

(** A timeout due at [due] runs after the pending ones that are due no
    later. *)
Fixpoint schedule (due : nat) (f : cta_callback) (q : list (nat * cta_callback)) :
    list (nat * cta_callback) :=
  match q with
  | [] => [(due, f)]
  | (due', f') :: rest =>
      if (due' <=? due)%nat then (due', f') :: schedule due f rest
      else (due, f) :: q
  end.

(** [setTimeout(f, delay)] called at the time [now] *)
Definition cta_setTimeout (f : cta_callback) (delay now : nat) (c : Cta) : Cta :=
  {| cta_title := cta_title c; cta_animation := cta_animation c;
     cta_ripples := cta_ripples c;
     cta_timers := schedule (now + delay) f (cta_timers c) |}.

(** The click listener of the button, run at the time [now]: the ripple,
    the animation, and the feedback in the title. *)
Definition cta_click (now : nat) (c : Cta) : Cta :=
  let c := {| cta_title := cta_title c; cta_animation := cta_animation c;
              cta_ripples := S (cta_ripples c); cta_timers := cta_timers c |} in
  let c := cta_setTimeout CtaRemoveRipple 600 now c in
  let c := {| cta_title := cta_title c; cta_animation := "statBounce 1s ease";
              cta_ripples := cta_ripples c; cta_timers := cta_timers c |} in
  let c := cta_setTimeout CtaClearAnimation 1000 now c in
  let originalText := cta_title c in
  let c := {| cta_title := "Loading..."; cta_animation := cta_animation c;
              cta_ripples := cta_ripples c; cta_timers := cta_timers c |} in
  cta_setTimeout (CtaStarted originalText) 1000 now c.

(** A callback, run at the time [now]. *)
Definition cta_call (f : cta_callback) (now : nat) (c : Cta) : Cta :=
  match f with
  | CtaRemoveRipple =>
      {| cta_title := cta_title c; cta_animation := cta_animation c;
         cta_ripples := pred (cta_ripples c); cta_timers := cta_timers c |}
  | CtaClearAnimation =>
      {| cta_title := cta_title c; cta_animation := "";
         cta_ripples := cta_ripples c; cta_timers := cta_timers c |}
  | CtaStarted originalText =>
      cta_setTimeout (CtaRestore originalText) 2000 now
        {| cta_title := "✓ Started!"; cta_animation := cta_animation c;
           cta_ripples := cta_ripples c; cta_timers := cta_timers c |}
  | CtaRestore originalText =>
      {| cta_title := originalText; cta_animation := cta_animation c;
         cta_ripples := cta_ripples c; cta_timers := cta_timers c |}
  end.

(** The next pending timeout runs, at the time it is due. *)
Definition cta_fire (c : Cta) : Cta :=
  match cta_timers c with
  | [] => c
  | (due, f) :: rest =>
      cta_call f due {| cta_title := cta_title c; cta_animation := cta_animation c;
                        cta_ripples := cta_ripples c; cta_timers := rest |}
  end.

(** The number of callbacks that the pending timeouts will run: the one that
    shows the confirmation sets a further one. *)
Definition cta_pending (q : list (nat * cta_callback)) : nat :=
  foldr (fun x n => (match x.2 with CtaStarted _ => 2 | _ => 1 end + n)%nat) 0%nat q.

Fixpoint cta_advance_n (n : nat) (t : nat) (c : Cta) : Cta :=
  match n with
  | O => c
  | S k =>
      match cta_timers c with
      | (due, _) :: _ => if (due <=? t)%nat then cta_advance_n k t (cta_fire c) else c
      | [] => c
      end
  end.

(** The time passes until [t]: the timeouts due by then run. *)
Definition cta_advance (t : nat) (c : Cta) : Cta :=
  cta_advance_n (cta_pending (cta_timers c)) t c.

Fixpoint cta_fire_n (n : nat) (c : Cta) : Cta :=
  match n with O => c | S k => cta_fire_n k (cta_fire c) end.

(** All the pending timeouts run. *)
Definition cta_settle (c : Cta) : Cta := cta_fire_n (cta_pending (cta_timers c)) c.

(** Clicks at the times [ts]; a timeout due at the time of a click runs
    before it. *)
Definition cta_clicks (ts : list nat) (c : Cta) : Cta :=
  foldl (fun c t => cta_click t (cta_advance t c)) c ts.

(** The original text that a callback carries. *)
Definition started (f : cta_callback) : option string :=
  match f with CtaStarted o => Some o | _ => None end.

Definition restored (f : cta_callback) : option string :=
  match f with CtaRestore o => Some o | _ => None end.

(** The text of the last pending callback that [sel] selects. *)
Fixpoint last_of (sel : cta_callback -> option string) (q : list (nat * cta_callback)) :
    option string :=
  match q with
  | [] => None
  | (_, f) :: rest =>
      match last_of sel rest with
      | Some o => Some o
      | None => sel f
      end
  end.

(** The title that the pending timeouts will leave. *)
Definition final_title (c : Cta) : string :=
  match last_of started (cta_timers c) with
  | Some o => o
  | None =>
      match last_of restored (cta_timers c) with
      | Some o => o
      | None => cta_title c
      end
  end.

Definition by_due (a b : nat * cta_callback) : Prop := (a.1 <= b.1)%nat.

(** What holds of the pending timeouts: they are in the order of their due
    times, and a title that is to be restored is restored before the
    confirmations that are still to come have been shown for 2 s. *)
Definition cta_order (q : list (nat * cta_callback)) : Prop :=
  StronglySorted by_due q /\
  (forall d o d' o', (d, CtaStarted o) ∈ q -> (d', CtaRestore o') ∈ q ->
     (d' <= d + 2000)%nat).

(** What holds of them at the time [T]. *)
Definition cta_inv (T : nat) (q : list (nat * cta_callback)) : Prop :=
  cta_order q /\
  (forall d o, (d, CtaStarted o) ∈ q -> (d <= T + 1000)%nat) /\
  (forall d o, (d, CtaRestore o) ∈ q -> (d <= T + 2000)%nat).

Definition cta_ripples_pending (q : list (nat * cta_callback)) : nat :=
  length (filter (fun x => x.2 = CtaRemoveRipple) q).

Definition cta_ripples_ok (r0 : nat) (c : Cta) : Prop :=
  cta_ripples c = (r0 + cta_ripples_pending (cta_timers c))%nat.

Definition cta_animation_ok (c : Cta) : Prop :=
  (exists d, (d, CtaClearAnimation) ∈ cta_timers c) \/ cta_animation c = "".

(** The button at rest. *)
Definition idle_button : Cta :=
  {| cta_title := "Get Started"; cta_animation := ""; cta_ripples := 0;
     cta_timers := [] |}.

(** ** Timeouts that run late *)

(** The next pending timeout runs at the time [now], which need not be the
    time at which it is due: [setTimeout] promises a delay of at least the
    given one. *)
Definition cta_run (now : nat) (c : Cta) : Cta :=
  match cta_timers c with
  | [] => c
  | (due, f) :: rest =>
      cta_call f now {| cta_title := cta_title c; cta_animation := cta_animation c;
                        cta_ripples := cta_ripples c; cta_timers := rest |}
  end.

(** What happens to the button: a click, or the next pending timeout
    runs. *)
Inductive cta_event : Type :=
| CtaClick (now : nat)
| CtaTimeout (now : nat).

Definition cta_step (c : Cta) (ev : cta_event) : Cta :=
  match ev with
  | CtaClick now => cta_click now c
  | CtaTimeout now => cta_run now c
  end.

Definition cta_events (evs : list cta_event) (c : Cta) : Cta := foldl cta_step c evs.

(** What holds of the pending timeouts at the time [T], however late the
    timeouts have run. *)
Definition cta_inv_late (T : nat) (q : list (nat * cta_callback)) : Prop :=
  StronglySorted by_due q /\
  (forall d o, (d, CtaStarted o) ∈ q -> (d <= T + 1000)%nat) /\
  (forall d o, (d, CtaRestore o) ∈ q -> (d <= T + 2000)%nat).

(** ** The mouse trail *)

Module Point.
Record t : Type := { x : number; y : number; time : Z }.
End Point.

Section MouseTrail.
(** [Date_now k] is what the [k]-th call of [Date.now()] returns. *)
Variable Date_now : nat -> Z.

(** [mouseTrail.filter(point => Date.now() - point.time < 500)], when
    [reads] calls of [Date.now()] have been made; the result comes with the
    number of calls made by the end. *)
Fixpoint filter_recent (reads : nat) (mouseTrail : list Point.t) : list Point.t * nat :=
  match mouseTrail with
  | [] => ([], reads)
  | point :: rest =>
      let keep := bool_decide (Date_now reads - Point.time point < 500)%Z in
      let r := filter_recent (S reads) rest in
      (if keep then point :: r.1 else r.1, r.2)
  end.

(** The [mousemove] listener on an event at [(clientX, clientY)]. *)
Definition mousemove (e : number * number) (s : list Point.t * nat) : list Point.t * nat :=
  let mouseTrail := s.1 in
  let reads := s.2 in
  let mouseTrail := if bool_decide (5 < length mouseTrail)%nat then tail mouseTrail
                    else mouseTrail in
  let mouseTrail := mouseTrail ++ [{| Point.x := e.1; Point.y := e.2;
                                      Point.time := Date_now reads |}] in
  filter_recent (S reads) mouseTrail.

Definition mousemoves (es : list (number * number)) (s : list Point.t * nat) :
    list Point.t * nat :=
  foldl (fun s e => mousemove e s) s es.

End MouseTrail.

(** ** The start of the counters *)

(** The two things that are done to all the counters: their animations are
    started, or their targets are written into them. *)
Inductive counter_action : Type :=
| StartCounters
| FillTargets.

#[global] Instance counter_action_eq_dec : EqDecision counter_action.
Proof. solve_decision. Defined.

(** [didAnimate], whether the observer of the stats card is connected, and
    what has been done to the counters so far. *)
Record Counters : Type := {
  didAnimate : bool;
  connected : bool;
  actions : list counter_action
}.

(** The state after the [DOMContentLoaded] listener; [observable] is
    ['IntersectionObserver' in window && statsCard]. *)
Definition counters_init (observable : bool) : Counters :=
  if observable
  then {| didAnimate := false; connected := true; actions := [] |}
  else {| didAnimate := false; connected := false; actions := [StartCounters] |}.

(** The body of [entries.forEach] in the observer's callback. *)
Definition observe_entry (isIntersecting : bool) (c : Counters) : Counters :=
  if isIntersecting && negb (didAnimate c)
  then {| didAnimate := true; connected := false;
          actions := actions c ++ [StartCounters] |}
  else c.

Inductive counter_event : Type :=
| Intersection (entries : list bool)
| LoadTimeout.

(** The observer calls back while it is connected; the timeout of the
    [load] listener fills the targets in when [didAnimate] is not set. *)
Definition counter_step (c : Counters) (ev : counter_event) : Counters :=
  match ev with
  | Intersection entries =>
      if connected c then foldl (fun c e => observe_entry e c) c entries else c
  | LoadTimeout =>
      if didAnimate c then c
      else {| didAnimate := didAnimate c; connected := connected c;
              actions := actions c ++ [FillTargets] |}
  end.

Definition counter_run (evs : list counter_event) (c : Counters) : Counters :=
  foldl counter_step c evs.

(** How often the animations of the counters have been started. *)
Definition starts (c : Counters) : nat :=
  length (filter (fun a => a = StartCounters) (actions c)).

(** Some entry of some callback among the events was intersecting. *)
Definition intersecting (ev : counter_event) : bool :=
  match ev with
  | Intersection entries => bool_decide (true ∈ entries)
  | LoadTimeout => false
  end.

Definition came_into_view (evs : list counter_event) : bool := existsb intersecting evs.

(** What holds of the counters when there is an observer. *)
Definition latched (c : Counters) : Prop :=
  connected c = negb (didAnimate c) /\
  starts c = (if didAnimate c then 1 else 0)%nat.

(** ** The counters *)

Section Counter.
Context {P : Platform}.
(** [Math.pow], and [x.toFixed(digits)] *)
Variable Math_pow : number -> number -> number.
Variable toFixed : number -> nat -> string.

(** The function [step] of [animateCounter(el, target, suffix, duration)],
    called at the time [start], on the frame time [now]: the text it writes,
    and whether it requests a further frame. *)
Definition animateCounter_step (start target : number) (suffix : string)
    (duration now : number) : string * bool :=
  let t := Math_min (Num 1) (div (sub now start) duration) in
  let eased := sub (Num 1) (Math_pow (sub (Num 1) t) (Num 3)) in
  let value := mul target eased in
  let text :=
    if decide (suffix = "x")
    then toFixed (div (Math_round (mul value (Num 10))) (Num 10)) 1 +:+ suffix
    else ToString (VNumber (Math_round value)) +:+ suffix in
  (text, gt (Num 1) t).

(** The text of the element when the frames of [frames] have come, in this
    order. *)
Fixpoint animateCounter (start target : number) (suffix : string) (duration : number)
    (frames : list number) (textContent : string) : string :=
  match frames with
  | [] => textContent
  | now :: later =>
      let r := animateCounter_step start target suffix duration now in
      if r.2 then animateCounter start target suffix duration later r.1 else r.1
  end.

(** What the counter shows at its target. *)
Definition target_text (target : number) (suffix : string) : string :=
  if decide (suffix = "x")
  then toFixed (div (Math_round (mul target (Num 10))) (Num 10)) 1 +:+ suffix
  else ToString (VNumber (Math_round target)) +:+ suffix.

(** The progress [t] of the frame at [n], for the start [s] and the
    duration [d]. *)
Definition progress (s d n : R) : R := (Rmin 1 (fl (fl (n + - s) / d)))%R.

End Counter.

(** [Math.pow] and [toFixed] without rounding error, as far as the counters
    use them: the third power, and the integer part. *)
Definition exact_pow (x y : number) : number :=
  match y with
  | Num b => if decide (b = 3)%R
             then @mul exact_arithmetic (@mul exact_arithmetic x x) x
             else NaN
  | _ => NaN
  end.

Definition exact_toFixed (x : number) (digits : nat) : string :=
  exact_ToString (VNumber x).

(** * Rounding *)

Section RoundingFacts.
Context {P : Platform}.
Local Open Scope R_scope.

Lemma u_pos : 0 < u.
Proof. unfold u. apply Rinv_0_lt_compat, pow_lt. lra. Qed.

Lemma u_val : u = / 9007199254740992.
Proof. unfold u. rewrite pow_IZR. do 2 f_equal. Qed.

Lemma u_tiny : u < / 1000000000000000.
Proof. rewrite u_val. lra. Qed.

Lemma Rabs_le_both (a b : R) : Rabs a <= b -> - b <= a <= b.
Proof.
  intros H. pose proof (Rle_abs a). pose proof (Rle_abs (- a)) as H1.
  rewrite Rabs_Ropp in H1. lra.
Qed.

Lemma fl_lower x : x - u * Rabs x <= fl x.
Proof. pose proof (fl_err x) as H. apply Rabs_le_both in H. lra. Qed.

Lemma fl_upper x : fl x <= x + u * Rabs x.
Proof. pose proof (fl_err x) as H. apply Rabs_le_both in H. lra. Qed.

Lemma fl_0 : fl 0 = 0.
Proof.
  pose proof (fl_lower 0) as H1. pose proof (fl_upper 0) as H2.
  rewrite Rabs_R0 in *. lra.
Qed.

Lemma fl_nonneg x : 0 <= x -> 0 <= fl x.
Proof. intros H. rewrite <- fl_0. now apply fl_mono. Qed.

Lemma fl_pos x : 0 < x -> 0 < fl x.
Proof.
  intros H. pose proof (fl_lower x) as H1. rewrite Rabs_pos_eq in H1 by lra.
  pose proof u_tiny. pose proof u_pos. nra.
Qed.

(** Enclosures that survive a rounding: one part in [10^15] is lost. *)
Lemma fl_encl_pos lo hi x :
  0 <= lo -> lo <= x <= hi ->
  lo * (1 - / 1000000000000000) <= fl x <= hi * (1 + / 1000000000000000).
Proof.
  intros Hlo [H1 H2]. pose proof (fl_lower x) as L. pose proof (fl_upper x) as U.
  rewrite Rabs_pos_eq in L, U by lra.
  pose proof u_tiny. pose proof u_pos. split; nra.
Qed.

Lemma fl_encl_neg lo hi x :
  hi <= 0 -> lo <= x <= hi ->
  lo * (1 + / 1000000000000000) <= fl x <= hi * (1 - / 1000000000000000).
Proof.
  intros Hhi [H1 H2]. pose proof (fl_lower x) as L. pose proof (fl_upper x) as U.
  rewrite Rabs_left1 in L, U by lra.
  pose proof u_tiny. pose proof u_pos. split; nra.
Qed.

Lemma fl_encl_nonneg lo hi x :
  0 <= lo -> lo <= x <= hi -> lo * (1 - eps) <= fl x <= hi * (1 + eps).
Proof. apply fl_encl_pos. Qed.

Lemma fl_encl_nonpos lo hi x :
  hi <= 0 -> lo <= x <= hi -> lo * (1 + eps) <= fl x <= hi * (1 - eps).
Proof. apply fl_encl_neg. Qed.

Lemma fl_ge_half x : 1 <= x -> / 2 <= fl x.
Proof.
  intros H. pose proof (fl_lower x) as L. rewrite Rabs_pos_eq in L by lra.
  pose proof u_tiny. pose proof u_pos. nra.
Qed.

Lemma lit_ge_1 c : 1001 / 1000 <= c -> 1 <= fl c.
Proof.
  intros H. pose proof (fl_lower c) as L. rewrite Rabs_pos_eq in L by lra.
  pose proof u_tiny. pose proof u_pos. nra.
Qed.

End RoundingFacts.

(** * Exponential and logarithm *)

Section ExpLn.
Local Open Scope R_scope.

Lemma exp_INR_mult (n : nat) (x : R) : exp (INR n * x) = exp x ^ n.
Proof.
  induction n as [|n IH].
  - simpl. rewrite Rmult_0_l. apply exp_0.
  - rewrite S_INR, Rmult_plus_distr_r, Rmult_1_l, exp_plus, IH. simpl. ring.
Qed.

(** [(1 + x/n)^n <= exp x] *)
Lemma exp_lower (x r : R) (n : nat) :
  (0 < n)%nat -> 0 <= r -> r <= 1 + x / INR n -> r ^ n <= exp x.
Proof.
  intros Hn Hr Hx.
  assert (0 < INR n) as Hn' by (apply lt_0_INR; lia).
  assert (exp x = exp (x / INR n) ^ n) as ->
    by (rewrite <- exp_INR_mult; f_equal; field; lra).
  apply pow_incr. split; [exact Hr|].
  pose proof (exp_ineq1_le (x / INR n)). lra.
Qed.

(** [exp x <= (1 - x/n)^-n] *)
Lemma exp_upper (x r : R) (n : nat) :
  (0 < n)%nat -> 0 < r -> r <= 1 - x / INR n -> exp x <= (/ r) ^ n.
Proof.
  intros Hn Hr Hx.
  assert (0 < INR n) as Hn' by (apply lt_0_INR; lia).
  assert (exp x = exp (x / INR n) ^ n) as ->
    by (rewrite <- exp_INR_mult; f_equal; field; lra).
  apply pow_incr. split; [apply Rlt_le, exp_pos|].
  replace (x / INR n) with (- (- (x / INR n))) by ring.
  rewrite exp_Ropp.
  apply Rinv_le_contravar; [exact Hr|].
  pose proof (exp_ineq1_le (- (x / INR n))). lra.
Qed.

Lemma ratio_le (A B C D : R) : 0 < B -> 0 < D -> A * D <= C * B -> A * / B <= C / D.
Proof.
  intros HB HD H.
  replace (A * / B) with ((A * D) * / (B * D)) by (field; lra).
  replace (C / D) with ((C * B) * / (B * D)) by (field; lra).
  apply Rmult_le_compat_r; [|exact H].
  apply Rlt_le, Rinv_0_lt_compat. nra.
Qed.

Lemma ratio_ge (A B C D : R) : 0 < B -> 0 < D -> C * B <= A * D -> C / D <= A * / B.
Proof.
  intros HB HD H.
  replace (A * / B) with ((A * D) * / (B * D)) by (field; lra).
  replace (C / D) with ((C * B) * / (B * D)) by (field; lra).
  apply Rmult_le_compat_r; [|exact H].
  apply Rlt_le, Rinv_0_lt_compat. nra.
Qed.

Lemma ratio_le_Z (a b c d : Z) :
  (0 < b)%Z -> (0 < d)%Z -> (a * d <= c * b)%Z -> IZR a / IZR b <= IZR c / IZR d.
Proof.
  intros Hb Hd H. apply IZR_lt in Hb, Hd. apply IZR_le in H.
  rewrite !mult_IZR in H. apply ratio_le; assumption.
Qed.

Lemma ln_lower (c y : R) : exp c <= y -> c <= ln y.
Proof.
  intros H. assert (0 < y) by (pose proof (exp_pos c); lra).
  destruct (Rle_or_lt c (ln y)) as [|Hlt]; [assumption|].
  apply exp_increasing in Hlt. rewrite exp_ln in Hlt by assumption. lra.
Qed.

Lemma ln_upper (c y : R) : 0 < y -> y <= exp c -> ln y <= c.
Proof.
  intros Hy H.
  destruct (Rle_or_lt (ln y) c) as [|Hlt]; [assumption|].
  apply exp_increasing in Hlt. rewrite exp_ln in Hlt by assumption. lra.
Qed.

Lemma exp_1_ge_2 : 2 <= exp 1.
Proof. pose proof (exp_ineq1_le 1). lra. Qed.

Lemma ln_half_ge : - 1 <= ln (/ 2).
Proof.
  apply ln_lower.
  replace (exp (-1)) with (/ exp 1) by (rewrite <- exp_Ropp; f_equal; lra).
  apply Rinv_le_contravar; [lra | apply exp_1_ge_2].
Qed.

Lemma pow_two_succ (x : R) (k : nat) : x ^ (2 ^ S k) = (x * x) ^ (2 ^ k).
Proof.
  replace (2 ^ S k)%nat with (2 * 2 ^ k)%nat by (simpl; lia).
  rewrite pow_mult. f_equal. simpl. ring.
Qed.

Lemma div_ceil_ge (m s : Z) : (0 < s)%Z -> (m <= s * ((m + s - 1) / s))%Z.
Proof.
  intros Hs. pose proof (Z.div_mod (m + s - 1) s ltac:(lia)).
  pose proof (Z.mod_pos_bound (m + s - 1) s Hs). lia.
Qed.

Lemma div_floor_le (m s : Z) : (0 < s)%Z -> (s * (m / s) <= m)%Z.
Proof. intros Hs. apply Z.mul_div_le. exact Hs. Qed.

Lemma sq_up_bound (k : nat) (s a : Z) (x : R) :
  (0 < s)%Z -> 0 <= x <= IZR a / IZR s ->
  x ^ (2 ^ k) <= IZR (sq_up k s a) / IZR s.
Proof.
  intros Hs. assert (0 < IZR s) as Hs' by now apply IZR_lt.
  revert a x. induction k as [|k IH]; intros a x [H0 Hx].
  - simpl. lra.
  - rewrite pow_two_succ. cbn [sq_up]. apply IH. split; [nra|].
    apply Rle_trans with (IZR a / IZR s * (IZR a / IZR s)); [nra|].
    pose proof (div_ceil_ge (a * a) s Hs) as H. apply IZR_le in H.
    rewrite !mult_IZR in H.
    replace (IZR a / IZR s * (IZR a / IZR s)) with ((IZR a * IZR a) * / (IZR s * IZR s))
      by (field; lra).
    apply ratio_le; [nra | lra | nra].
Qed.

Lemma sq_down_bound (k : nat) (s a : Z) (x : R) :
  (0 < s)%Z -> (0 <= a)%Z -> IZR a / IZR s <= x ->
  IZR (sq_down k s a) / IZR s <= x ^ (2 ^ k).
Proof.
  intros Hs. assert (0 < IZR s) as Hs' by now apply IZR_lt.
  revert a x. induction k as [|k IH]; intros a x Ha Hx.
  - simpl. lra.
  - rewrite pow_two_succ. cbn [sq_down].
    assert (0 <= IZR a) by now apply IZR_le.
    assert (0 <= IZR a / IZR s).
    { apply Rmult_le_pos; [assumption|]. apply Rlt_le, Rinv_0_lt_compat; lra. }
    apply IH; [apply Z.div_pos; nia|].
    apply Rle_trans with (IZR a / IZR s * (IZR a / IZR s)); [|nra].
    pose proof (div_floor_le (a * a) s Hs) as H'. apply IZR_le in H'.
    rewrite !mult_IZR in H'.
    replace (IZR a / IZR s * (IZR a / IZR s)) with ((IZR a * IZR a) * / (IZR s * IZR s))
      by (field; lra).
    apply ratio_ge; [nra | lra | nra].
Qed.

Lemma INR_pow2 (k : nat) : INR (2 ^ k) = IZR (2 ^ Z.of_nat k).
Proof. rewrite INR_IZR_INZ. f_equal. rewrite Nat2Z.inj_pow. reflexivity. Qed.

Lemma pow2_pos (k : nat) : (0 < 2 ^ k)%nat.
Proof. induction k; simpl; lia. Qed.

Lemma exp_ub_correct (p q : Z) (k : nat) (s : Z) :
  (0 < q)%Z -> (0 < s)%Z -> (p < q * 2 ^ Z.of_nat k)%Z ->
  exp (IZR p / IZR q) <= IZR (exp_ub p q k s) / IZR s.
Proof.
  intros Hq Hs Hp. unfold exp_ub. set (n := (q * 2 ^ Z.of_nat k)%Z) in *.
  assert (0 < IZR q) by now apply IZR_lt.
  assert (0 < IZR s) by now apply IZR_lt.
  assert (0 < 2 ^ Z.of_nat k)%Z as H2 by (apply Z.pow_pos_nonneg; lia).
  assert (0 < IZR (2 ^ Z.of_nat k)) by now apply IZR_lt.
  assert (IZR n = IZR q * IZR (2 ^ Z.of_nat k)) as En by (unfold n; now rewrite mult_IZR).
  assert (0 < IZR n - IZR p) as Hnp by (rewrite <- minus_IZR; apply IZR_lt; lia).
  assert (1 - IZR p / IZR q / INR (2 ^ k) = (IZR n - IZR p) / IZR n) as E.
  { rewrite INR_pow2, En. field. lra. }
  apply Rle_trans with ((/ ((IZR n - IZR p) / IZR n)) ^ (2 ^ k)).
  - apply exp_upper; [apply pow2_pos | | rewrite E; lra].
    apply Rmult_lt_0_compat; [lra|]. apply Rinv_0_lt_compat. nra.
  - apply sq_up_bound; [exact Hs|]. split.
    + apply Rlt_le, Rinv_0_lt_compat. apply Rmult_lt_0_compat; [lra|].
      apply Rinv_0_lt_compat. nra.
    + replace (/ ((IZR n - IZR p) / IZR n)) with (IZR n * / (IZR n - IZR p))
        by (field; nra).
      pose proof (div_ceil_ge (s * n) (n - p) ltac:(lia)) as H'.
      apply IZR_le in H'. rewrite !mult_IZR, minus_IZR in H'.
      apply ratio_le; [lra | lra |]. lra.
Qed.

Lemma exp_lb_correct (p q : Z) (k : nat) (s : Z) :
  (0 < q)%Z -> (0 < s)%Z -> (0 <= q * 2 ^ Z.of_nat k + p)%Z ->
  IZR (exp_lb p q k s) / IZR s <= exp (IZR p / IZR q).
Proof.
  intros Hq Hs Hp. unfold exp_lb. set (n := (q * 2 ^ Z.of_nat k)%Z) in *.
  assert (0 < IZR q) by now apply IZR_lt.
  assert (0 < IZR s) by now apply IZR_lt.
  assert (0 < 2 ^ Z.of_nat k)%Z as H2 by (apply Z.pow_pos_nonneg; lia).
  assert (0 < IZR (2 ^ Z.of_nat k)) by now apply IZR_lt.
  assert (0 < n)%Z as Hn by (unfold n; lia).
  assert (IZR n = IZR q * IZR (2 ^ Z.of_nat k)) as En by (unfold n; now rewrite mult_IZR).
  assert (0 < IZR n) by nra.
  assert (0 <= IZR n + IZR p) as Hnp by (rewrite <- plus_IZR; apply IZR_le; lia).
  assert (1 + IZR p / IZR q / INR (2 ^ k) = (IZR n + IZR p) / IZR n) as E.
  { rewrite INR_pow2, En. field. lra. }
  apply Rle_trans with (((IZR n + IZR p) / IZR n) ^ (2 ^ k)).
  - apply sq_down_bound; [exact Hs | apply Z.div_pos; nia |].
    pose proof (div_floor_le (s * (n + p)) n Hn) as H'.
    rewrite (Z.mul_comm n) in H'. rewrite Z.mul_comm in H'.
    apply IZR_le in H'. rewrite !mult_IZR, plus_IZR in H'.
    unfold Rdiv at 2. apply ratio_ge; [lra | lra |]. lra.
  - apply exp_lower; [apply pow2_pos | | rewrite E; lra].
    apply Rmult_le_pos; [lra|]. apply Rlt_le, Rinv_0_lt_compat. lra.
Qed.

Lemma exp_1251_le : exp (1251 / 1000) <= 34999 / 10000.
Proof.
  apply Rle_trans with (IZR (exp_ub 1251 1000 12 (10 ^ 30)) / IZR (10 ^ 30)).
  - apply exp_ub_correct; [lia | lia | apply Z.ltb_lt; vm_compute; reflexivity].
  - apply ratio_le_Z; [lia | lia | apply Z.leb_le; vm_compute; reflexivity].
Qed.

Lemma exp_1254_ge : 35001 / 10000 <= exp (1254 / 1000).
Proof.
  apply Rle_trans with (IZR (exp_lb 1254 1000 12 (10 ^ 30)) / IZR (10 ^ 30)).
  - apply ratio_le_Z; [lia | lia | apply Z.leb_le; vm_compute; reflexivity].
  - apply exp_lb_correct; [lia | lia | apply Z.leb_le; vm_compute; reflexivity].
Qed.

Lemma exp_m13_le : exp (-13 / 1) <= 49 / 10000000.
Proof.
  apply Rle_trans with (IZR (exp_ub (-13) 1 12 (10 ^ 30)) / IZR (10 ^ 30)).
  - apply exp_ub_correct; [lia | lia | apply Z.ltb_lt; vm_compute; reflexivity].
  - apply ratio_le_Z; [lia | lia | apply Z.leb_le; vm_compute; reflexivity].
Qed.

Lemma exp_m12_ge : 51 / 10000000 <= exp (-12 / 1).
Proof.
  apply Rle_trans with (IZR (exp_lb (-12) 1 12 (10 ^ 30)) / IZR (10 ^ 30)).
  - apply ratio_le_Z; [lia | lia | apply Z.leb_le; vm_compute; reflexivity].
  - apply exp_lb_correct; [lia | lia | apply Z.leb_le; vm_compute; reflexivity].
Qed.

End ExpLn.

(** * Sign and order of the operations *)

Section NumberFacts.
Context {P : Platform}.
Local Open Scope R_scope.

Lemma Rsign_pos x : 0 < x -> Rsign x = Gt.
Proof. intros H. unfold Rsign. now rewrite decide_True. Qed.

Lemma positive_nonnegative x : positive x -> nonnegative x.
Proof. destruct x; simpl; auto. lra. Qed.

Lemma mul_positive x y : positive x -> positive y -> positive (mul x y).
Proof.
  destruct x as [a | | |], y as [b | | |]; simpl; try tauto; intros Ha Hb.
  - apply fl_pos. now apply Rmult_lt_0_compat.
  - now rewrite Rsign_pos.
  - now rewrite Rsign_pos.
Qed.

Lemma add_positive x y : positive x -> nonnegative y -> positive (add x y).
Proof.
  destruct x as [a | | |], y as [b | | |]; simpl; try tauto; intros Ha Hb.
  apply fl_pos. lra.
Qed.

Lemma div_nonnegative x c : nonnegative x -> 0 < c -> nonnegative (div x (Num c)).
Proof.
  destruct x as [a | | |]; simpl; try tauto; intros Ha Hc.
  - rewrite decide_False by lra. simpl. apply fl_nonneg.
    apply Rmult_le_pos; [lra|]. apply Rlt_le, Rinv_0_lt_compat; lra.
  - now rewrite decide_False by lra.
Qed.

Lemma Math_round_nonnegative x : nonnegative x -> nonnegative (Math_round x).
Proof.
  destruct x as [a | | |]; simpl; try tauto; intros Ha.
  apply IZR_le, Zfloor_lub. simpl. lra.
Qed.

Lemma Math_min_95_range y :
  nonnegative y -> exists r, Math_min (Num 95) y = Num r /\ 0 <= r <= 95.
Proof.
  destruct y as [b | | |]; simpl; try tauto; intros Hb.
  - exists (Rmin 95 b). split; [reflexivity|]. unfold Rmin. destruct (Rle_dec 95 b); lra.
  - exists 95. split; [reflexivity | lra].
Qed.

Lemma num_le_trans x y z : num_le x y -> num_le y z -> num_le x z.
Proof. destruct x, y, z; simpl; try tauto. lra. Qed.

Lemma num_le_0_not_NaN a : num_le (Num 0) a -> a <> NaN.
Proof. destruct a; simpl; congruence || tauto. Qed.

Lemma mul_le_r x y c :
  positive x -> num_le x y -> positive c -> num_le (mul x c) (mul y c).
Proof.
  destruct x as [a | | |], y as [b | | |], c as [k | | |]; simpl; try tauto;
    intros Ha Hab Hk.
  all: try (rewrite !Rsign_pos by lra; simpl; tauto).
  apply fl_mono. apply Rmult_le_compat_r; lra.
Qed.

Lemma mul_le_l x c d :
  positive x -> positive c -> num_le c d -> num_le (mul x c) (mul x d).
Proof.
  destruct x as [a | | |], c as [k | | |], d as [l | | |]; simpl; try tauto;
    intros Ha Hk Hkl.
  all: try (rewrite !Rsign_pos by lra; simpl; tauto).
  apply fl_mono. apply Rmult_le_compat_l; lra.
Qed.

Lemma Math_round_le x y : num_le x y -> num_le (Math_round x) (Math_round y).
Proof.
  destruct x as [a | | |], y as [b | | |]; simpl; try tauto. intros H.
  apply IZR_le, Zfloor_le. lra.
Qed.

Lemma div_le x y c : 0 < c -> num_le x y -> num_le (div x (Num c)) (div y (Num c)).
Proof.
  intros Hc. destruct x as [a | | |], y as [b | | |]; simpl; try tauto;
    rewrite ?decide_False by lra; simpl; try tauto.
  intros H. apply fl_mono. apply Rmult_le_compat_r; [|lra].
  apply Rlt_le, Rinv_0_lt_compat; lra.
Qed.

Lemma Math_min_le c x y : num_le x y -> num_le (Math_min (Num c) x) (Math_min (Num c) y).
Proof.
  destruct x as [a | | |], y as [b | | |]; simpl; try tauto; intros H.
  - now apply Rle_min_compat_l.
  - apply Rmin_l.
  - lra.
Qed.

Lemma mul_NaN_l x : mul NaN x = NaN.
Proof. destruct x; reflexivity. Qed.

Lemma Math_log_R_ge x : / 2 <= x -> - 2 <= Math_log_R x.
Proof.
  intros Hx. pose proof (Math_log_err x ltac:(lra)) as E.
  apply Rabs_le_both in E.
  assert (- 1 <= ln x) as Hl.
  { apply Rle_trans with (ln (/ 2)); [apply ln_half_ge|].
    destruct Hx as [Hx | <-]; [|lra]. apply Rlt_le, ln_increasing; lra. }
  pose proof u_tiny. pose proof u_pos.
  destruct (Rle_or_lt 0 (ln x)) as [Hp | Hn].
  - rewrite Rabs_pos_eq in E by assumption. nra.
  - rewrite Rabs_left in E by assumption. nra.
Qed.

End NumberFacts.

(** * Enclosures of the operations *)

Section Enclosures.
Context {P : Platform}.
Local Open Scope R_scope.

Lemma encl_weaken lo hi lo' hi' x :
  encl lo hi x -> lo' <= lo -> hi <= hi' -> encl lo' hi' x.
Proof. destruct x; simpl; try tauto. lra. Qed.

Lemma encl_Num c : encl c c (Num c).
Proof. simpl. lra. Qed.

Lemma encl_lit c : 0 <= c -> encl (c * (1 - eps)) (c * (1 + eps)) (lit c).
Proof. intros H. apply fl_encl_nonneg; lra. Qed.

Lemma encl_lit_neg c : c <= 0 -> encl (c * (1 + eps)) (c * (1 - eps)) (lit c).
Proof. intros H. apply fl_encl_nonpos; lra. Qed.

Lemma encl_mul a b c d x y :
  encl a b x -> encl c d y -> 0 <= a -> 0 <= c ->
  encl (a * c * (1 - eps)) (b * d * (1 + eps)) (mul x y).
Proof.
  destruct x as [r | | |], y as [t | | |]; simpl; try tauto. intros Hx Hy Ha Hc.
  apply fl_encl_nonneg; [nra|]. split; nra.
Qed.

Lemma encl_add a b c d x y :
  encl a b x -> encl c d y -> 0 <= a + c ->
  encl ((a + c) * (1 - eps)) ((b + d) * (1 + eps)) (add x y).
Proof.
  destruct x as [r | | |], y as [t | | |]; simpl; try tauto. intros Hx Hy Ha.
  apply fl_encl_nonneg; lra.
Qed.

Lemma encl_add_neg a b c d x y :
  encl a b x -> encl c d y -> b + d <= 0 ->
  encl ((a + c) * (1 + eps)) ((b + d) * (1 - eps)) (add x y).
Proof.
  destruct x as [r | | |], y as [t | | |]; simpl; try tauto. intros Hx Hy Ha.
  apply fl_encl_nonpos; lra.
Qed.

Lemma encl_sub a b c d x y :
  encl a b x -> encl c d y -> 0 <= a - d ->
  encl ((a - d) * (1 - eps)) ((b - c) * (1 + eps)) (sub x y).
Proof.
  destruct x as [r | | |], y as [t | | |]; simpl; try tauto. intros Hx Hy Ha.
  apply fl_encl_nonneg; lra.
Qed.

Lemma encl_div a b c x :
  encl a b x -> 0 <= a -> 0 < c ->
  encl (a / c * (1 - eps)) (b / c * (1 + eps)) (div x (Num c)).
Proof.
  destruct x as [r | | |]; simpl; try tauto. intros Hx Ha Hc.
  rewrite decide_False by lra. simpl.
  assert (0 < / c) by now apply Rinv_0_lt_compat.
  apply fl_encl_nonneg; unfold Rdiv; [nra|]. split; nra.
Qed.

Lemma encl_div_neg a b c x :
  encl a b x -> b <= 0 -> 0 < c ->
  encl (a / c * (1 + eps)) (b / c * (1 - eps)) (div x (Num c)).
Proof.
  destruct x as [r | | |]; simpl; try tauto. intros Hx Ha Hc.
  rewrite decide_False by lra. simpl.
  assert (0 < / c) by now apply Rinv_0_lt_compat.
  apply fl_encl_nonpos; unfold Rdiv; [nra|]. split; nra.
Qed.

Lemma encl_div2 a b c d x y :
  encl a b x -> encl c d y -> 0 <= a -> 0 < c ->
  encl (a / d * (1 - eps)) (b / c * (1 + eps)) (div x y).
Proof.
  destruct x as [r | | |], y as [t | | |]; simpl; try tauto. intros Hx Hy Ha Hc.
  rewrite decide_False by lra.
  assert (0 < / t) by (apply Rinv_0_lt_compat; lra).
  assert (/ d <= / t) by (apply Rinv_le_contravar; lra).
  assert (/ t <= / c) by (apply Rinv_le_contravar; lra).
  assert (0 < / d) by (apply Rinv_0_lt_compat; lra).
  apply fl_encl_nonneg; unfold Rdiv.
  - apply Rmult_le_pos; lra.
  - split.
    + apply Rmult_le_compat; lra.
    + apply Rmult_le_compat; lra.
Qed.

Lemma encl_max0 a b x : encl a b x -> 0 <= a -> encl a b (Math_max (Num 0) x).
Proof.
  destruct x as [r | | |]; simpl; try tauto. intros Hx Ha.
  rewrite Rmax_right by lra. exact Hx.
Qed.

Lemma encl_max1 a b x : encl a b x -> 1 <= a -> encl a b (Math_max x (Num 1)).
Proof.
  destruct x as [r | | |]; simpl; try tauto. intros Hx Ha.
  rewrite Rmax_left by lra. exact Hx.
Qed.

(** [Math.log] of an enclosed positive number, from bounds on [exp]. *)
Lemma encl_log a b lo hi x :
  encl a b x -> 0 <= lo -> exp lo <= a -> b <= exp hi ->
  encl (lo * (1 - 2 * eps)) (hi * (1 + 2 * eps)) (Math_log x).
Proof.
  destruct x as [r | | |]; simpl; try tauto. intros Hx Hlo Ha Hb.
  pose proof (exp_pos lo). rewrite decide_True by lra. simpl.
  pose proof (Math_log_err r ltac:(lra)) as E. apply Rabs_le_both in E.
  assert (lo <= ln r) by (apply ln_lower; lra).
  assert (ln r <= hi) by (apply ln_upper; lra).
  rewrite Rabs_pos_eq in E by lra.
  pose proof u_tiny. pose proof u_pos. unfold eps. split; nra.
Qed.

Lemma encl_log_neg a b lo hi x :
  encl a b x -> hi <= 0 -> exp lo <= a -> b <= exp hi ->
  encl (lo * (1 + 2 * eps)) (hi * (1 - 2 * eps)) (Math_log x).
Proof.
  destruct x as [r | | |]; simpl; try tauto. intros Hx Hlo Ha Hb.
  pose proof (exp_pos lo). rewrite decide_True by lra. simpl.
  pose proof (Math_log_err r ltac:(lra)) as E. apply Rabs_le_both in E.
  assert (lo <= ln r) by (apply ln_lower; lra).
  assert (ln r <= hi) by (apply ln_upper; lra).
  rewrite Rabs_left1 in E by lra.
  pose proof u_tiny. pose proof u_pos. unfold eps. split; nra.
Qed.

Lemma encl_round a b k x :
  encl a b x -> IZR k - / 2 <= a -> b < IZR k + / 2 -> Math_round x = Num (IZR k).
Proof.
  destruct x as [r | | |]; simpl; try tauto. intros Hx Ha Hb.
  do 2 f_equal. apply Zfloor_eq. lra.
Qed.

End Enclosures.

Ltac side := unfold eps; lra.

Ltac enclose :=
  lazymatch goal with
  | |- encl _ _ (Num _) => apply encl_Num
  | |- encl _ _ (lit _) => apply encl_lit; side
  | |- encl _ _ (mul _ _) => eapply encl_mul; [enclose | enclose | side | side]
  | |- encl _ _ (add _ _) => eapply encl_add; [enclose | enclose | side]
  | |- encl _ _ (sub _ _) => eapply encl_sub; [enclose | enclose | side]
  | |- encl _ _ (div _ (Num _)) => eapply encl_div; [enclose | side | side]
  | |- encl _ _ (Math_max (Num 0) _) => eapply encl_max0; [enclose | side]
  | |- encl _ _ _ => eassumption
  end.

(** * The local formula *)

Section FormulaFacts.
Context {P : Platform}.
Local Open Scope R_scope.

Lemma femaleCurve_points s :
  femaleCurve (computeRiskCurve s) = map (femalePoint s) [0; 1; 2; 3; 4]%nat.
Proof. reflexivity. Qed.

Lemma maleCurve_points s :
  maleCurve (computeRiskCurve s) = map (malePoint s) [0; 1; 2; 3; 4]%nat.
Proof. reflexivity. Qed.

Lemma femaleCurve_lookup s i x :
  femaleCurve (computeRiskCurve s) !! i = Some x -> (i < 5)%nat /\ x = femalePoint s i.
Proof.
  rewrite femaleCurve_points. intros H.
  do 5 (destruct i as [|i]; [simpl in H; split; [lia | congruence]|]).
  discriminate.
Qed.

Lemma maleCurve_lookup s i x :
  maleCurve (computeRiskCurve s) !! i = Some x -> (i < 5)%nat /\ x = malePoint s i.
Proof.
  rewrite maleCurve_points. intros H.
  do 5 (destruct i as [|i]; [simpl in H; split; [lia | congruence]|]).
  discriminate.
Qed.

(** ** The factors are positive *)

Lemma medTable_lookup m v :
  medTable !! m = Some v ->
  v = VNumber (lit 0.12) \/ v = VNumber (lit 0.08) \/ v = VNumber (lit 0.04).
Proof.
  unfold medTable. intros H.
  apply lookup_insert_Some in H as [[_ <-] | [_ H]]; [tauto|].
  apply lookup_insert_Some in H as [[_ <-] | [_ H]]; [tauto|].
  apply lookup_singleton_Some in H as [_ <-]. tauto.
Qed.

Lemma ToBoolean_lit c : 0 < c -> ToBoolean (VNumber (lit c)) = true.
Proof.
  intros H. simpl. apply bool_decide_eq_true. pose proof (fl_pos c H). lra.
Qed.

Lemma medBase_of_cases m :
  (supported m \/ m ∉ Object_prototype_keys) ->
  exists c, 0 < c /\ medBase_of m = VNumber (lit c).
Proof.
  unfold supported, medBase_of, get_property, or_else.
  destruct (medTable !! m) as [v|] eqn:E.
  - intros _. apply medTable_lookup in E as [-> | [-> | ->]];
      rewrite ToBoolean_lit by lra; eexists; (split; [|reflexivity]); lra.
  - intros [[v Hv] | Hm]; [discriminate|].
    rewrite bool_decide_eq_false_2 by done. simpl.
    exists 0.06. split; [lra | reflexivity].
Qed.

Lemma base_of_positive m :
  (supported m \/ m ∉ Object_prototype_keys) ->
  exists b, 0 < b /\ base_of m = Num b.
Proof.
  intros H. destruct (medBase_of_cases m H) as (c & Hc & E).
  unfold base_of. rewrite E. simpl. eexists. split; [|reflexivity].
  apply fl_pos. pose proof (fl_pos c Hc). lra.
Qed.

Lemma base_of_positive' m :
  (supported m \/ m ∉ Object_prototype_keys) -> positive (base_of m).
Proof. intros H. destruct (base_of_positive m H) as (b & Hb & ->). exact Hb. Qed.

Lemma tFactor_of_positive i : exists t, 0 < t /\ tFactor_of i = Num t.
Proof.
  unfold tFactor_of. simpl. eexists. split; [|reflexivity].
  apply fl_pos. assert (0 <= fl (INR i * fl 0.06)); [|lra].
  apply fl_nonneg. apply Rmult_le_pos; [apply pos_INR|].
  apply fl_nonneg. lra.
Qed.

Lemma tFactor_of_positive' i : positive (tFactor_of i).
Proof. destruct (tFactor_of_positive i) as (t & Ht & ->). exact Ht. Qed.

Lemma sexMult_of_positive sx : exists m, 0 < m /\ sexMult_of sx = Num m.
Proof.
  unfold sexMult_of. case_bool_decide.
  - eexists. split; [|reflexivity]. apply fl_pos. lra.
  - exists 1. split; [lra | reflexivity].
Qed.

Lemma sexMult_of_positive' sx : positive (sexMult_of sx).
Proof. destruct (sexMult_of_positive sx) as (b & Hb & ->). exact Hb. Qed.

Lemma ageMult_of_positive a : a <> NaN -> positive (ageMult_of a).
Proof.
  intros Ha. unfold ageMult_of. apply add_positive; [simpl; lra|].
  apply div_nonnegative; [|lra].
  destruct a as [r | | |]; simpl; try tauto.
  - apply Rmax_l.
  - lra.
Qed.

Lemma doseFactor_of_positive d : num_le (Num 0) d -> positive (doseFactor_of d).
Proof.
  unfold doseFactor_of. destruct d as [r | | |]; simpl; try tauto; intros Hr.
  - rewrite decide_False by lra. cbn [add].
    assert (/ 2 <= fl (1 + fl (r / 20))) as Hy.
    { apply fl_ge_half. assert (0 <= fl (r / 20)); [|lra].
      apply fl_nonneg. lra. }
    cbn [Math_log]. rewrite decide_True by lra. cbn [div].
    rewrite decide_False by lra. cbn [add positive].
    apply fl_pos. pose proof (Math_log_R_ge _ Hy) as HL.
    assert (fl (- 2 / 3) <= fl (Math_log_R (fl (1 + fl (r / 20))) / 3)) as Hm
      by (apply fl_mono; lra).
    pose proof (fl_lower (- 2 / 3)) as Hl. rewrite Rabs_left in Hl by lra.
    pose proof u_tiny. pose proof u_pos. nra.
  - rewrite decide_False by lra. simpl. rewrite decide_False by lra. exact I.
Qed.

Lemma regular_positive s :
  regular s ->
  positive (base_of (med s)) /\ positive (sexMult_of (sex s)) /\
  positive (ageMult_of (age s)) /\ positive (doseFactor_of (dose s)).
Proof.
  intros (Hm & Ha & Hd). repeat split.
  - now apply base_of_positive'.
  - apply sexMult_of_positive'.
  - now apply ageMult_of_positive.
  - now apply doseFactor_of_positive.
Qed.

Lemma point_range base mult ageMult doseFactor i :
  positive base -> positive mult -> positive ageMult -> positive doseFactor ->
  exists r, point base mult ageMult doseFactor i = Num r /\ 0 <= r <= 95.
Proof.
  intros Hb Hm Ha Hd. unfold point. cbv zeta.
  apply Math_min_95_range. apply div_nonnegative; [|lra].
  apply Math_round_nonnegative, positive_nonnegative.
  apply mul_positive; [|simpl; lra].
  repeat apply mul_positive; try assumption.
  destruct (tFactor_of_positive i) as (t & Ht & ->). exact Ht.
Qed.

(** ** The curve points are monotone in the time index and in the sex
    multiplier *)

Lemma tFactor_of_le i j : (i <= j)%nat -> num_le (tFactor_of i) (tFactor_of j).
Proof.
  intros H. unfold tFactor_of. simpl. apply fl_mono.
  apply Rplus_le_compat_l, fl_mono. apply Rmult_le_compat_r.
  - apply fl_nonneg. lra.
  - now apply le_INR.
Qed.

(** The rounding and clamping tail of a curve point is monotone. *)
Lemma tail_le x y :
  num_le x y ->
  num_le (Math_min (Num 95) (div (Math_round (mul x (Num 10))) (Num 10)))
         (Math_min (Num 95) (div (Math_round (mul y (Num 10))) (Num 10))).
Proof.
  intros H. apply Math_min_le, div_le; [lra|]. apply Math_round_le.
  destruct x as [a | | |], y as [b | | |]; simpl in *; try tauto;
    rewrite ?Rsign_pos by lra; simpl; try tauto.
  apply fl_mono. lra.
Qed.

Lemma point_le_index base mult ageMult doseFactor i j :
  positive base -> positive mult -> positive ageMult -> positive doseFactor ->
  (i <= j)%nat ->
  num_le (point base mult ageMult doseFactor i) (point base mult ageMult doseFactor j).
Proof.
  intros Hb Hm Ha Hd Hij. unfold point. cbv zeta. apply tail_le.
  pose proof (tFactor_of_positive' i). pose proof (tFactor_of_positive' j).
  repeat (apply mul_le_r; [repeat apply mul_positive; assumption | | assumption]).
  apply mul_le_l; try assumption. now apply tFactor_of_le.
Qed.

Lemma sexMult_of_ge_1 sx : num_le (Num 1) (sexMult_of sx).
Proof.
  unfold sexMult_of. case_bool_decide; simpl; [|lra]. apply lit_ge_1. lra.
Qed.

Lemma point_le_mult base m1 m2 ageMult doseFactor i :
  positive base -> positive m1 -> num_le m1 m2 ->
  positive ageMult -> positive doseFactor ->
  num_le (point base m1 ageMult doseFactor i) (point base m2 ageMult doseFactor i).
Proof.
  intros Hb Hm Hle Ha Hd. unfold point. cbv zeta. apply tail_le.
  pose proof (tFactor_of_positive' i).
  repeat (apply mul_le_r; [repeat apply mul_positive; assumption | | assumption]).
  apply mul_le_l; try assumption. now apply mul_positive.
Qed.

(** ** The example: male, 35 years, sertraline, 50 mg *)

Lemma Math_log_35 :
  encl (12509 / 10000) (12541 / 10000) (Math_log (add (Num 1) (div (Num 50) (Num 20)))).
Proof.
  eapply encl_weaken.
  - eapply (encl_log (34999 / 10000) (35001 / 10000) (1251 / 1000) (1254 / 1000)).
    + eapply encl_weaken; [enclose | side | side].
    + lra.
    + apply exp_1251_le.
    + apply exp_1254_ge.
  - side.
  - side.
Qed.

Lemma doseFactor_50 : encl (14169 / 10000) (14181 / 10000) (doseFactor_of (Num 50)).
Proof.
  unfold doseFactor_of. pose proof Math_log_35.
  eapply encl_weaken; [enclose | side | side].
Qed.

Lemma medBase_of_sertraline : medBase_of "sertraline" = VNumber (lit 0.12).
Proof.
  unfold medBase_of, get_property, medTable. rewrite lookup_insert_eq.
  unfold or_else. now rewrite ToBoolean_lit by lra.
Qed.

Lemma base_of_sertraline :
  encl (11999999 / 1000000) (12000001 / 1000000) (base_of "sertraline").
Proof.
  unfold base_of. rewrite medBase_of_sertraline. cbn [ToNumber].
  eapply encl_weaken; [enclose | side | side].
Qed.

Lemma tFactor_of_0 : encl (999999 / 1000000) (1000001 / 1000000) (tFactor_of 0).
Proof.
  unfold tFactor_of. cbn [INR].
  eapply encl_weaken; [enclose | side | side].
Qed.

Lemma tFactor_of_1 : encl (1059999 / 1000000) (1060001 / 1000000) (tFactor_of 1).
Proof.
  unfold tFactor_of. cbn [INR].
  eapply encl_weaken; [enclose | side | side].
Qed.

Lemma tFactor_of_2 : encl (1119999 / 1000000) (1120001 / 1000000) (tFactor_of 2).
Proof.
  unfold tFactor_of. cbn [INR].
  eapply encl_weaken; [enclose | side | side].
Qed.

Lemma ageMult_of_35 : encl (1049999 / 1000000) (1050001 / 1000000) (ageMult_of (Num 35)).
Proof.
  unfold ageMult_of.
  eapply encl_weaken; [enclose | side | side].
Qed.

Lemma ageMult_of_30 : encl (999999 / 1000000) (1000001 / 1000000) (ageMult_of (Num 30)).
Proof.
  unfold ageMult_of.
  assert (encl 0 0 (sub (Num 30) (Num 30))) as H.
  { cbn [sub neg add encl].
    assert (fl (30 + Ropp 30) = 0) as -> by (rewrite <- fl_0; f_equal; ring). lra. }
  eapply encl_weaken; [enclose | side | side].
Qed.

(** Once the scaled raw value rounds to the integer [k], the curve point is
    the double nearest to [k / 10]. *)
Lemma finish_point a b k raw :
  encl a b (mul raw (Num 10)) -> IZR k - / 2 <= a -> b < IZR k + / 2 ->
  0 <= IZR k <= 900 ->
  Math_min (Num 95) (div (Math_round (mul raw (Num 10))) (Num 10)) = lit (IZR k / 10).
Proof.
  intros H Ha Hb Hk. rewrite (encl_round a b k _ H Ha Hb).
  cbn [div]. rewrite decide_False by lra. cbn [Math_min]. unfold lit. f_equal.
  apply Rmin_right.
  assert (0 <= IZR k / 10 <= 90) as Hr by lra.
  pose proof (fl_encl_nonneg 0 90 (IZR k / 10) ltac:(lra) Hr). unfold eps in *. lra.
Qed.

Lemma example_male_0 : malePoint example_state 0 = lit (179 / 10).
Proof.
  unfold malePoint, point, example_state. cbn [med age dose]. cbv zeta.
  pose proof base_of_sertraline. pose proof tFactor_of_0.
  pose proof ageMult_of_35. pose proof doseFactor_50.
  eapply finish_point; [enclose | side | side | lra].
Qed.

Lemma example_with_age_value : example_with_age = lit (179 / 10).
Proof.
  unfold example_with_age. pose proof doseFactor_50.
  eapply finish_point; [enclose | side | side | lra].
Qed.

Lemma example_expected_value : example_expected = lit (170 / 10).
Proof.
  unfold example_expected. pose proof doseFactor_50.
  eapply finish_point; [enclose | side | side | lra].
Qed.

Lemma lit_17_lt_179 : fl (170 / 10) < fl (179 / 10).
Proof.
  pose proof (fl_encl_nonneg (170/10) (170/10) (170/10) ltac:(lra) ltac:(lra)).
  pose proof (fl_encl_nonneg (179/10) (179/10) (179/10) ltac:(lra) ltac:(lra)).
  unfold eps in *. lra.
Qed.

(** On every platform the example of the specification misses the code's
    value: the code gives [17.9], the example's formula [17.0]. *)
Lemma example_expected_differs :
  maleCurve (computeRiskCurve example_state) !! 0%nat <> Some example_expected.
Proof.
  rewrite maleCurve_points, example_expected_value. cbn [map lookup list_lookup].
  rewrite example_male_0. unfold lit. intros [= H].
  pose proof lit_17_lt_179. lra.
Qed.

(** ** The same patient, female: the reduction triggers *)

Lemma female_example_points :
  femalePoint female_example_state 2 = lit (252 / 10) /\
  malePoint female_example_state 2 = lit (200 / 10).
Proof.
  unfold femalePoint, malePoint, point, female_example_state.
  cbn [med age dose sex]. cbv zeta. unfold sexMult_of.
  rewrite bool_decide_eq_true_2 by reflexivity.
  pose proof base_of_sertraline. pose proof tFactor_of_2.
  pose proof ageMult_of_35. pose proof doseFactor_50.
  split; (eapply finish_point; [enclose | side | side | lra]).
Qed.

Lemma female_example_diffPct : diffPct (computeRiskCurve female_example_state) = Num 26.
Proof.
  change (diffPct (computeRiskCurve female_example_state)) with
    (Math_round (mul (div (sub (femalePoint female_example_state 2)
                               (malePoint female_example_state 2))
                          (Math_max (malePoint female_example_state 2) (Num 1)))
                     (Num 100))).
  destruct female_example_points as [-> ->].
  eapply (encl_round _ _ 26).
  - eapply encl_mul; [|apply encl_Num | |lra].
    + eapply encl_div2; [eapply encl_sub; [enclose | enclose | side] | | side | ].
      * eapply encl_max1; [enclose | side].
      * side.
    + side.
  - side.
  - side.
Qed.

Lemma female_example_triggers : reduction_triggers female_example_state.
Proof.
  split; [reflexivity|]. rewrite female_example_diffPct. simpl.
  apply bool_decide_eq_true_2. lra.
Qed.

Lemma female_example_recDose :
  Math_max (Num 1) (Math_round (mul (dose female_example_state) (lit 0.8))) = Num 40.
Proof.
  cbn [dose female_example_state].
  assert (Math_round (mul (Num 50) (lit 0.8)) = Num 40) as ->
    by (eapply encl_round; [enclose | side | side]).
  simpl. f_equal. apply Rmax_right. lra.
Qed.

(** ** A dose just above -20: the dose factor is negative *)

Lemma doseFactor_negative :
  encl (-334 / 100) (-299 / 100) (doseFactor_of (lit (-19.9999))).
Proof.
  unfold doseFactor_of.
  assert (encl (49 / 10000000) (51 / 10000000)
            (add (Num 1) (div (lit (-19.9999)) (Num 20)))) as H1.
  { eapply encl_weaken.
    - eapply encl_add; [apply encl_Num | | ].
      + eapply encl_div_neg; [apply encl_lit_neg; lra | side | lra].
      + side.
    - side.
    - side. }
  assert (encl (-1301 / 100) (-1199 / 100)
            (Math_log (add (Num 1) (div (lit (-19.9999)) (Num 20))))) as H2.
  { eapply encl_weaken.
    - eapply (encl_log_neg _ _ (-13 / 1) (-12 / 1)); [exact H1 | lra | | ].
      + apply exp_m13_le.
      + apply exp_m12_ge.
    - side.
    - side. }
  eapply encl_weaken.
  - eapply encl_add_neg; [apply encl_Num | | ].
    + eapply encl_div_neg; [exact H2 | lra | lra].
    + side.
  - side.
  - side.
Qed.

(** With a negative dose factor, the larger of two positive pre-factors
    gives the smaller curve point. *)
Lemma point_tail_reversed a b c e X Y D :
  encl a b X -> encl c e Y -> encl (-334 / 100) (-299 / 100) D ->
  0 <= a -> b + / 2 <= c -> e <= 20 ->
  exists p q,
    Math_min (Num 95) (div (Math_round (mul (mul X D) (Num 10))) (Num 10)) = Num p /\
    Math_min (Num 95) (div (Math_round (mul (mul Y D) (Num 10))) (Num 10)) = Num q /\
    q + 1 <= p /\ p <= 0.
Proof.
  destruct X as [x | | |], Y as [y | | |], D as [d | | |]; simpl; try tauto.
  intros Hx Hy Hd Ha Hbc He.
  rewrite !decide_False by lra. cbn [Math_min].
  set (rx := fl (x * d)). set (ry := fl (y * d)).
  assert (-67 <= y * d) as Hyd1 by nra.
  assert (y * d <= x * d - 149 / 100) as Hyx by nra.
  assert (x * d <= 0) as Hxd by nra.
  pose proof (fl_encl_nonpos (x * d) (x * d) (x * d) Hxd ltac:(lra)) as Hrx.
  pose proof (fl_encl_nonpos (y * d) (y * d) (y * d) ltac:(lra) ltac:(lra)) as Hry.
  fold rx in Hrx. fold ry in Hry. unfold eps in Hrx, Hry.
  set (sx := fl (rx * 10)). set (sy := fl (ry * 10)).
  pose proof (fl_encl_nonpos (rx * 10) (rx * 10) (rx * 10) ltac:(lra) ltac:(lra)) as Hsx.
  pose proof (fl_encl_nonpos (ry * 10) (ry * 10) (ry * 10) ltac:(lra) ltac:(lra)) as Hsy.
  fold sx in Hsx. fold sy in Hsy. unfold eps in Hsx, Hsy.
  pose proof (Zfloor_bound (sx + / 2)) as Hkx.
  pose proof (Zfloor_bound (sy + / 2)) as Hky.
  set (kx := IZR (Zfloor (sx + / 2))) in *. set (ky := IZR (Zfloor (sy + / 2))) in *.
  assert (ky + 13 <= kx) as Hk by lra.
  assert (kx <= 1 / 2) as Hkx0 by lra.
  assert (kx <= 0) as Hkx1.
  { unfold kx. apply IZR_le. assert (Zfloor (sx + / 2) < 1)%Z; [|lia].
    apply lt_IZR. fold kx. lra. }
  assert (-700 <= ky) as Hky1 by lra.
  pose proof (fl_encl_nonpos (kx / 10) (kx / 10) (kx / 10) ltac:(lra) ltac:(lra)) as Hpx.
  pose proof (fl_encl_nonpos (ky / 10) (ky / 10) (ky / 10) ltac:(lra) ltac:(lra)) as Hpy.
  unfold eps in Hpx, Hpy.
  exists (Rmin 95 (fl (kx / 10))), (Rmin 95 (fl (ky / 10))).
  rewrite !Rmin_right by lra. repeat split; lra.
Qed.

Lemma male_prefactor_0 sx :
  encl (11999 / 1000) (12001 / 1000)
    (mul (mul (mul (base_of (med (negative_dose_state sx))) (tFactor_of 0)) (Num 1))
         (ageMult_of (age (negative_dose_state sx)))).
Proof.
  cbn [med age negative_dose_state].
  pose proof base_of_sertraline. pose proof tFactor_of_0. pose proof ageMult_of_30.
  eapply encl_weaken; [enclose | side | side].
Qed.

Lemma male_prefactor_1 sx :
  encl (12719 / 1000) (12721 / 1000)
    (mul (mul (mul (base_of (med (negative_dose_state sx))) (tFactor_of 1)) (Num 1))
         (ageMult_of (age (negative_dose_state sx)))).
Proof.
  cbn [med age negative_dose_state].
  pose proof base_of_sertraline. pose proof tFactor_of_1. pose proof ageMult_of_30.
  eapply encl_weaken; [enclose | side | side].
Qed.

Lemma female_prefactor_0 :
  encl (15119 / 1000) (15121 / 1000)
    (mul (mul (mul (base_of (med (negative_dose_state "female"))) (tFactor_of 0))
              (sexMult_of (sex (negative_dose_state "female"))))
         (ageMult_of (age (negative_dose_state "female")))).
Proof.
  cbn [med age sex negative_dose_state]. unfold sexMult_of.
  rewrite bool_decide_eq_true_2 by reflexivity.
  pose proof base_of_sertraline. pose proof tFactor_of_0. pose proof ageMult_of_30.
  eapply encl_weaken; [enclose | side | side].
Qed.

(** At a dose of [-19.9999] the male curve falls from its first to its
    second point. *)
Lemma male_curve_falls sx :
  exists p q,
    maleCurve (computeRiskCurve (negative_dose_state sx)) !! 0%nat = Some (Num p) /\
    maleCurve (computeRiskCurve (negative_dose_state sx)) !! 1%nat = Some (Num q) /\
    q + 1 <= p.
Proof.
  destruct (point_tail_reversed _ _ _ _ _ _ _
              (male_prefactor_0 sx) (male_prefactor_1 sx) doseFactor_negative)
    as (p & q & Hp & Hq & Hpq & _); [lra | lra | lra |].
  exists p, q. rewrite maleCurve_points. simpl.
  unfold malePoint, point. cbv zeta. cbn [dose negative_dose_state] in *.
  rewrite Hp, Hq. auto.
Qed.

(** At that dose the female curve of a female patient starts below the
    male curve. *)
Lemma female_below_male :
  exists p q,
    maleCurve (computeRiskCurve (negative_dose_state "female")) !! 0%nat = Some (Num p) /\
    femaleCurve (computeRiskCurve (negative_dose_state "female")) !! 0%nat = Some (Num q) /\
    q + 1 <= p.
Proof.
  destruct (point_tail_reversed _ _ _ _ _ _ _
              (male_prefactor_0 "female") female_prefactor_0 doseFactor_negative)
    as (p & q & Hp & Hq & Hpq & _); [lra | lra | lra |].
  exists p, q. rewrite maleCurve_points, femaleCurve_points. simpl.
  unfold malePoint, femalePoint, point. cbv zeta. cbn [dose negative_dose_state] in *.
  rewrite Hp, Hq. auto.
Qed.

Lemma not_nondecreasing_negative_dose sx :
  ~ nondecreasing (maleCurve (computeRiskCurve (negative_dose_state sx))).
Proof.
  intros H. destruct (male_curve_falls sx) as (p & q & Hp & Hq & Hpq).
  specialize (H 0%nat 1%nat (Num p) (Num q) ltac:(lia) Hp Hq). simpl in H. lra.
Qed.

Lemma not_dominates_negative_dose :
  ~ dominates (femaleCurve (computeRiskCurve (negative_dose_state "female")))
              (maleCurve (computeRiskCurve (negative_dose_state "female"))).
Proof.
  intros H. destruct female_below_male as (p & q & Hp & Hq & Hpq).
  specialize (H 0%nat (Num q) (Num p) Hq Hp). simpl in H. lra.
Qed.

(** ** Outside the regular inputs: [NaN] *)

Lemma point_NaN_base mult ageMult doseFactor i :
  point NaN mult ageMult doseFactor i = NaN.
Proof. unfold point. cbv zeta. now rewrite !mul_NaN_l. Qed.

Lemma point_NaN_ageMult base mult doseFactor i :
  point base mult NaN doseFactor i = NaN.
Proof.
  unfold point. cbv zeta.
  assert (forall x, mul x NaN = NaN) as E by (intros x; destruct x; reflexivity).
  now rewrite E, !mul_NaN_l.
Qed.

(** A medication key found on [Object.prototype] makes the base [NaN]. *)
Lemma base_of_inherited m : m ∈ Object_prototype_keys -> base_of m = NaN.
Proof.
  intros H. unfold base_of, medBase_of, get_property, medTable, Object_prototype_keys in *.
  repeat (apply elem_of_cons in H as [-> | H]);
    [ reflexivity .. | now apply elem_of_nil in H ].
Qed.

Lemma NaN_not_nondecreasing (l : list number) : l !! 0%nat = Some NaN -> ~ nondecreasing l.
Proof. intros H Hn. exact (Hn 0%nat 0%nat NaN NaN (le_n _) H H). Qed.

(** With an age that is not a number, or with a medication key inherited
    from [Object.prototype], every curve point is [NaN] and no two points
    compare. *)
Lemma NaN_age_not_nondecreasing s :
  age s = NaN -> ~ nondecreasing (maleCurve (computeRiskCurve s)).
Proof.
  intros H. apply NaN_not_nondecreasing. rewrite maleCurve_points.
  cbn [map lookup list_lookup]. unfold malePoint. rewrite H.
  change (ageMult_of NaN) with NaN. now rewrite point_NaN_ageMult.
Qed.

Lemma inherited_key_not_nondecreasing s :
  med s ∈ Object_prototype_keys -> ~ nondecreasing (maleCurve (computeRiskCurve s)).
Proof.
  intros H. apply NaN_not_nondecreasing. rewrite maleCurve_points.
  cbn [map lookup list_lookup]. unfold malePoint.
  now rewrite (base_of_inherited _ H), point_NaN_base.
Qed.

(** ** The recommendation *)

Lemma recommendation_cases (s : State) :
  recommendation (computeRiskCurve s) =
  if bool_decide (sex s = "female") && gt (diffPct (computeRiskCurve s)) (Num 15)
  then
    let recDose := Math_max (Num 1) (Math_round (mul (dose s) (lit 0.8))) in
    {| Rec.text := "Recommended: " +:+ ToString (VNumber recDose)
                     +:+ " mg (optimized for female metabolism)";
       Rec.dose := Some recDose |}
  else
    {| Rec.text := "Recommended: " +:+ ToString (VNumber (dose s)) +:+ " mg (no change)";
       Rec.dose := Some (dose s) |}.
Proof. reflexivity. Qed.

Lemma reduction_triggers_spec (s : State) :
  reduction_triggers s <->
  bool_decide (sex s = "female") && gt (diffPct (computeRiskCurve s)) (Num 15) = true.
Proof.
  unfold reduction_triggers. rewrite andb_true_iff, bool_decide_eq_true. tauto.
Qed.

End FormulaFacts.

(** * Texts *)

Section Strings.

Lemma append_cons (c : Ascii.ascii) (a b : string) :
  String c a +:+ b = String c (a +:+ b).
Proof. reflexivity. Qed.

Lemma string_to_list_app (a b : string) :
  String.list_ascii_of_string (a +:+ b) =
  String.list_ascii_of_string a ++ String.list_ascii_of_string b.
Proof.
  induction a as [|c a IH]; [reflexivity|].
  rewrite append_cons. cbn [String.list_ascii_of_string app]. now rewrite IH.
Qed.

(** Two strings whose reversed suffixes part ways are different. *)
Lemma suffix_clash (p q a b : string) :
  (forall x y, rev (String.list_ascii_of_string a) ++ x <>
               rev (String.list_ascii_of_string b) ++ y) ->
  p +:+ a <> q +:+ b.
Proof.
  intros H E. apply (f_equal String.list_ascii_of_string) in E.
  rewrite !string_to_list_app in E. apply (f_equal (@rev _)) in E.
  rewrite !rev_app_distr in E. exact (H _ _ E).
Qed.

Lemma app_assoc_string (a b c : string) : (a +:+ b) +:+ c = a +:+ (b +:+ c).
Proof.
  induction a as [|x a IH]; [reflexivity|]. rewrite !append_cons. now rewrite IH.
Qed.

End Strings.

(** * Timers and the controller *)

Section Timers.

Lemma last_write_three (pre : list (text_element * string)) (a b c : string) el :
  last_write el (pre ++ [(riskDiffVal, a); (recommendText, b); (metabText, c)]) =
  Some (match el with riskDiffVal => a | recommendText => b | metabText => c end).
Proof.
  induction pre as [|[e s] pre IH].
  - destruct el; reflexivity.
  - cbn [app last_write]. now rewrite IH.
Qed.

Lemma fire_n_all (l : list (text_element * string)) :
  forall pg, timers pg = l ->
    let final := fire_n (length l) pg in
    timers final = [] /\ dataset0 final = dataset0 pg /\
    dataset1 final = dataset1 pg /\ drawn final = drawn pg /\
    forall el, innerHTML (elements final el) =
               default (innerHTML (elements pg el)) (last_write el l).
Proof.
  induction l as [|[e s] rest IH]; intros pg Hl; cbv zeta.
  - simpl. auto.
  - cbn [length fire_n].
    set (pg' := timer_callback (e, s)
                  {| elements := elements pg; dataset0 := dataset0 pg;
                     dataset1 := dataset1 pg; drawn := drawn pg; timers := rest |}).
    assert (fire pg = pg') as -> by (unfold fire; now rewrite Hl).
    destruct (IH pg' eq_refl) as (H1 & H2 & H3 & H4 & H5).
    split; [exact H1|]. split; [exact H2|]. split; [exact H3|]. split; [exact H4|].
    intros el. rewrite H5.
    cbn [last_write]. destruct (last_write el rest); [reflexivity|].
    unfold pg', timer_callback, set_element. cbn [elements fst snd].
    destruct (decide (el = e)) as [-> | Hne].
    + now rewrite decide_True.
    + rewrite decide_False by congruence. reflexivity.
Qed.

Lemma settle_spec (pg : Page) :
  timers (settle pg) = [] /\ dataset0 (settle pg) = dataset0 pg /\
  dataset1 (settle pg) = dataset1 pg /\ drawn (settle pg) = drawn pg /\
  forall el, innerHTML (elements (settle pg) el) =
             default (innerHTML (elements pg el)) (last_write el (timers pg)).
Proof. exact (fire_n_all (timers pg) pg eq_refl). Qed.

End Timers.

Section Fallback.
Context {P : Platform}.

Lemma render_shows (answer : Exc Result) (state : State) (pg : Page) :
  exists pg',
    updateAll_render answer state pg = inr pg' /\
    shows (match answer with inr r => r | inl _ => computeRiskCurve state end)
          state (settle pg').
Proof.
  unfold updateAll_render.
  set (result := match answer with inr r => r | inl _ => computeRiskCurve state end).
  assert (try_catch answer (fun _ => mret (computeRiskCurve state)) = inr result) as ->
    by (destruct answer; reflexivity).
  eexists. split; [reflexivity|].
  match goal with |- shows _ _ (settle ?p) => set (pg' := p) end.
  destruct (settle_spec pg') as (H1 & H2 & H3 & H4 & H5).
  assert (timers pg' = timers pg ++
            [(riskDiffVal, ToString (VNumber (diffPct result))
                             +:+ "% higher risk for women at ~"
                             +:+ ToString (VNumber (dose state)) +:+ "mg");
             (recommendText, "<strong>" +:+ Rec.text (recommendation result)
                               +:+ "</strong>");
             (metabText, metab result)]) as Ht.
  { unfold pg', animateTextUpdate. cbn [timers set_element set_chart chart_update].
    rewrite <- !(assoc_L (++)). reflexivity. }
  unfold shows. rewrite H1, H2, H3, H4, !H5, Ht, !last_write_three.
  repeat split.
Qed.

Lemma updateAll_falls_back fetch state later elapsed pg e :
  fetchFromAPI fetch state later = inl e ->
  shows (computeRiskCurve later) later (settle (updateAll fetch state later elapsed pg)).
Proof.
  intros Hf. unfold updateAll. cbv zeta. rewrite Hf.
  destruct (render_shows (inl e) later (fire_n elapsed (updateAll_loading pg)))
    as (pg' & -> & H).
  exact H.
Qed.

Lemma shows_not_loading result state pg :
  shows result state pg -> innerHTML (elements pg riskDiffVal) <> "Analyzing...".
Proof.
  intros (_ & _ & _ & H & _). rewrite H.
  change "Analyzing..." with ("" +:+ "Analyzing...").
  rewrite <- 2!app_assoc_string.
  apply suffix_clash. intros x y. simpl. congruence.
Qed.

(** The ways the call to the service fails. *)
Lemma fetch_rejected fetch state later e :
  (forall req, fetch req = Rejected e) -> fetchFromAPI fetch state later = inl e.
Proof. intros H. unfold fetchFromAPI. now rewrite H. Qed.

Lemma fetch_not_ok fetch state later status json :
  (forall req, fetch req = Responded false status json) ->
  exists e, fetchFromAPI fetch state later = inl e.
Proof. intros H. unfold fetchFromAPI. rewrite H. simpl. eexists. reflexivity. Qed.

Lemma fetch_bad_json fetch state later status e :
  (forall req, fetch req = Responded true status (inl e)) ->
  fetchFromAPI fetch state later = inl e.
Proof. intros H. unfold fetchFromAPI. rewrite H. reflexivity. Qed.

Lemma read_missing_field v k x :
  ~ has_field v k -> getprop v k = inr x -> x = VUndefined.
Proof.
  intros H E. destruct x; try reflexivity; exfalso; apply H;
    (eexists; split; [exact E | discriminate]).
Qed.

Lemma convert_unexpected apiResult state :
  unexpected_shape apiResult -> exists e, convertAPIResponse apiResult state = inl e.
Proof.
  intros [Hd Hn]. unfold convertAPIResponse.
  destruct (getprop apiResult risk_probability) as [e | direct] eqn:Ed.
  { eexists. reflexivity. }
  assert (direct = VUndefined) as -> by exact (read_missing_field _ _ _ Hd Ed).
  cbn [mbind Exc_bind defined].
  destruct (getprop apiResult prediction) as [e | pred] eqn:Ep.
  { eexists. reflexivity. }
  cbn [mbind Exc_bind]. specialize (Hn pred eq_refl).
  destruct (ToBoolean pred) eqn:Eb.
  - destruct (getprop pred risk_probability) as [e | nested] eqn:En.
    { eexists. reflexivity. }
    assert (nested = VUndefined) as -> by exact (read_missing_field _ _ _ Hn En).
    cbn. eexists. reflexivity.
  - cbn. eexists. reflexivity.
Qed.

Lemma convert_unexpected_message apiResult state :
  unexpected_shape apiResult -> apiResult <> VNull -> apiResult <> VUndefined ->
  convertAPIResponse apiResult state = throw "Invalid API response structure".
Proof.
  intros [Hd Hn] H1 H2. unfold convertAPIResponse.
  assert (forall v k, v <> VNull -> v <> VUndefined -> exists x, getprop v k = inr x) as Hg.
  { intros v k ? ?. destruct v; try congruence; eexists; reflexivity. }
  destruct (Hg apiResult risk_probability H1 H2) as [direct Ed]. rewrite Ed.
  assert (direct = VUndefined) as -> by exact (read_missing_field _ _ _ Hd Ed).
  cbn [mbind Exc_bind defined].
  destruct (Hg apiResult prediction H1 H2) as [pred Ep]. rewrite Ep.
  cbn [mbind Exc_bind]. specialize (Hn pred Ep).
  destruct (ToBoolean pred) eqn:Eb; [|reflexivity].
  assert (pred <> VNull /\ pred <> VUndefined) as [H3 H4]
    by (split; intros ->; discriminate).
  destruct (Hg pred risk_probability H3 H4) as [nested En]. rewrite En.
  assert (nested = VUndefined) as -> by exact (read_missing_field _ _ _ Hn En).
  reflexivity.
Qed.

Lemma fetch_unexpected fetch state later status apiResult :
  (forall req, fetch req = Responded true status (inr apiResult)) ->
  unexpected_shape apiResult ->
  exists e, fetchFromAPI fetch state later = inl e.
Proof.
  intros H Hu. unfold fetchFromAPI. rewrite H. cbn [negb mbind Exc_bind].
  destruct (getprop apiResult error) as [e | err]; [eexists; reflexivity|].
  cbn [mbind Exc_bind]. destruct (ToBoolean err); [eexists; reflexivity|].
  now apply convert_unexpected.
Qed.

Lemma unreachable_call_fails (state later : State) :
  call_fails unreachable state later.
Proof. eexists. apply fetch_rejected. reflexivity. Qed.

End Fallback.

(** * The stat tiles *)

Section Tiles.
Implicit Types (d : Dom) (statEls dots : list nat).

Lemma contains_remove c x el d :
  contains c x (classList_remove c el d) <-> x <> el /\ contains c x d.
Proof.
  unfold contains, classList_remove, set_classList. cbn [classList].
  destruct (decide (x = el)) as [-> | Hne].
  - rewrite lookup_total_insert_eq, elem_of_difference, elem_of_singleton. tauto.
  - rewrite lookup_total_insert_ne by congruence. tauto.
Qed.

Lemma contains_add c x el d :
  contains c x (classList_add c el d) <-> x = el \/ contains c x d.
Proof.
  unfold contains, classList_add, set_classList. cbn [classList].
  destruct (decide (x = el)) as [-> | Hne].
  - rewrite lookup_total_insert_eq, elem_of_union, elem_of_singleton. tauto.
  - rewrite lookup_total_insert_ne by congruence. tauto.
Qed.

Lemma contains_forEach_remove c x (l : list nat) d :
  contains c x (forEach l (classList_remove c) d) <-> (x ∉ l) /\ contains c x d.
Proof.
  unfold forEach. revert d. induction l as [|y l IH]; intros d; cbn [foldl].
  - pose proof (not_elem_of_nil x). tauto.
  - rewrite IH, contains_remove, not_elem_of_cons. tauto.
Qed.

Lemma contains_createRipple c x el d :
  contains c x (createRipple el d) <-> contains c x d.
Proof. reflexivity. Qed.

Lemma contains_animate c x el a t d :
  contains c x (animate el a t d) <-> contains c x d.
Proof. reflexivity. Qed.

Lemma contains_stat_click statEls dots s i x d :
  contains "active" x (stat_click statEls dots s i d) <->
  x = s \/ dots !! i = Some x \/
  ((x ∉ statEls) /\ (x ∉ dots) /\ contains "active" x d).
Proof.
  unfold stat_click. cbv zeta.
  rewrite contains_animate, contains_createRipple.
  destruct (dots !! i) as [dot|] eqn:E.
  - rewrite !contains_add, !contains_forEach_remove. split.
    + intros [-> | [-> | H]]; auto. right. right. tauto.
    + intros [-> | [[= ->] | H]]; auto. right. right. tauto.
  - rewrite !contains_add, !contains_forEach_remove. split.
    + intros [-> | H]; auto. right. right. tauto.
    + intros [-> | [[=] | H]]; auto. right. tauto.
Qed.

End Tiles.

(** * The reduction at small doses *)

Section SmallDoses.
Context {P : Platform}.
Local Open Scope R_scope.

Lemma exp_0953_le : exp (953 / 10000) <= 1099999 / 1000000.
Proof.
  apply Rle_trans with (IZR (exp_ub 953 10000 12 (10 ^ 30)) / IZR (10 ^ 30)).
  - apply exp_ub_correct; [lia | lia | apply Z.ltb_lt; vm_compute; reflexivity].
  - apply ratio_le_Z; [lia | lia | apply Z.leb_le; vm_compute; reflexivity].
Qed.

Lemma exp_0954_ge : 1100001 / 1000000 <= exp (954 / 10000).
Proof.
  apply Rle_trans with (IZR (exp_lb 954 10000 12 (10 ^ 30)) / IZR (10 ^ 30)).
  - apply ratio_le_Z; [lia | lia | apply Z.leb_le; vm_compute; reflexivity].
  - apply exp_lb_correct; [lia | lia | apply Z.leb_le; vm_compute; reflexivity].
Qed.

Lemma Math_log_11 :
  encl (9529 / 100000) (9541 / 100000) (Math_log (add (Num 1) (div (Num 2) (Num 20)))).
Proof.
  eapply encl_weaken.
  - eapply (encl_log (1099999 / 1000000) (1100001 / 1000000) (953 / 10000) (954 / 10000)).
    + eapply encl_weaken; [enclose | side | side].
    + lra.
    + apply exp_0953_le.
    + apply exp_0954_ge.
  - side.
  - side.
Qed.

Lemma doseFactor_2 : encl (103176 / 100000) (103181 / 100000) (doseFactor_of (Num 2)).
Proof.
  unfold doseFactor_of. pose proof Math_log_11.
  eapply encl_weaken; [enclose | side | side].
Qed.

Lemma low_dose_points :
  femalePoint low_dose_state 2 = lit (183 / 10) /\
  malePoint low_dose_state 2 = lit (146 / 10).
Proof.
  unfold femalePoint, malePoint, point, low_dose_state.
  cbn [med age dose sex]. cbv zeta. unfold sexMult_of.
  rewrite bool_decide_eq_true_2 by reflexivity.
  pose proof base_of_sertraline. pose proof tFactor_of_2.
  pose proof ageMult_of_35. pose proof doseFactor_2.
  split; (eapply finish_point; [enclose | side | side | lra]).
Qed.

Lemma low_dose_diffPct : diffPct (computeRiskCurve low_dose_state) = Num 25.
Proof.
  change (diffPct (computeRiskCurve low_dose_state)) with
    (Math_round (mul (div (sub (femalePoint low_dose_state 2)
                               (malePoint low_dose_state 2))
                          (Math_max (malePoint low_dose_state 2) (Num 1)))
                     (Num 100))).
  destruct low_dose_points as [-> ->].
  eapply (encl_round _ _ 25).
  - eapply encl_mul; [|apply encl_Num | |lra].
    + eapply encl_div2; [eapply encl_sub; [enclose | enclose | side] | | side | ].
      * eapply encl_max1; [enclose | side].
      * side.
    + side.
  - side.
  - side.
Qed.

Lemma low_dose_triggers : reduction_triggers low_dose_state.
Proof.
  split; [reflexivity|]. rewrite low_dose_diffPct. simpl.
  apply bool_decide_eq_true_2. lra.
Qed.

Lemma low_dose_recDose :
  Rec.dose (recommendation (computeRiskCurve low_dose_state)) = Some (Num 2).
Proof.
  rewrite recommendation_cases.
  rewrite (proj1 (reduction_triggers_spec low_dose_state) low_dose_triggers).
  cbv zeta. cbn [Rec.dose dose low_dose_state]. f_equal.
  assert (Math_round (mul (Num 2) (lit 0.8)) = Num 2) as ->
    by (eapply encl_round; [enclose | side | side]).
  simpl. f_equal. apply Rmax_right. lra.
Qed.

(** At 2 mg the rule triggers and the recommended dose is the input dose. *)
Lemma low_dose_not_reduced :
  ~ (reduces_dose low_dose_state = true <-> reduction_triggers low_dose_state).
Proof.
  intros [_ H]. specialize (H low_dose_triggers). revert H.
  unfold reduces_dose. rewrite low_dose_recDose. cbn [dose low_dose_state gt].
  rewrite bool_decide_eq_true. lra.
Qed.

(** Four fifths of a dose, as the formula computes them. *)
Lemma scaled_dose_le d : 0 <= d -> fl (d * fl 0.8) <= 81 / 100 * d.
Proof.
  intros Hd.
  assert (0 <= fl 0.8 <= 801 / 1000) as H8.
  { assert (8 / 10 <= 0.8 <= 8 / 10) as H by lra.
    apply (fl_encl_nonneg (8 / 10) (8 / 10)) in H; [|lra].
    unfold eps in *. lra. }
  assert (0 <= d * fl 0.8 <= 801 / 1000 * d) as HX by nra.
  assert (0 <= 0) as H0 by lra.
  destruct (fl_encl_nonneg 0 (801 / 1000 * d) (d * fl 0.8) H0 HX) as [_ U].
  unfold eps in U. lra.
Qed.

(** Above 2 mg the reduced dose is lower than the dose. *)
Lemma reduced_dose_lower d :
  2 < d -> gt (Num d) (Math_max (Num 1) (Math_round (mul (Num d) (lit 0.8)))) = true.
Proof.
  intros Hd. cbn [mul lit Math_round Math_max gt]. apply bool_decide_eq_true_2.
  pose proof (scaled_dose_le d ltac:(lra)) as Hx.
  set (x := fl (d * fl 0.8)) in *.
  apply Rmax_lub_lt; [lra|].
  destruct (Rle_dec d 3) as [H3 | H3].
  - assert (Zfloor (x + / 2) < 3)%Z as Hz.
    { apply lt_IZR. pose proof (Zfloor_bound (x + / 2)) as [Hb _]. lra. }
    assert (IZR (Zfloor (x + / 2)) <= 2) as Hz' by (apply IZR_le; lia).
    lra.
  - pose proof (Zfloor_bound (x + / 2)) as [Hb _]. lra.
Qed.

End SmallDoses.

(** * The properties of the specification *)

Section Properties.
Context {P : Platform}.
Local Open Scope R_scope.

(** C1, amended.  For sex = male, age = 35, med = sertraline, dose = 50 the
    first element of the male curve equals
    [min(95, round(12 * 1.0 * 1.05 * doseFactor(50) * 10) / 10)], where
    [1.05] is the age multiplier [1 + max(0, 35 - 30) / 100] that the formula
    applies and [doseFactor(50)] is [1 + ln(1 + 50/20) / 3]; this value is
    the double nearest to [17.9]. *)
Theorem example_male_curve_first :
  maleCurve (computeRiskCurve example_state) !! 0%nat = Some example_with_age /\
  example_with_age = lit (179 / 10).
Proof.
  split; [|apply example_with_age_value].
  rewrite example_with_age_value, maleCurve_points. cbn [map lookup list_lookup].
  f_equal. apply example_male_0.
Qed.

(** C2.  For every input event whose call to the prediction service fails,
    the update ends, once the pending timers have run, with the chart and the
    three texts showing the result of the local formula for the form state;
    the risk text is not the placeholder ["Analyzing..."].  This holds
    however many timers expire while the request is pending. *)
Theorem input_change_falls_back
    (fetch : ApiData -> fetch_outcome) (ev : input_event) (elapsed : nat)
    (st : State) (c : Controls) (pg : Page) :
  call_fails fetch (handle ev st c).1 (handle ev st c).1 ->
  let st' := (handle ev st c).1 in
  let final := settle (on_input fetch ev elapsed (st, c, pg)).2 in
  shows (computeRiskCurve st') st' final /\
  innerHTML (elements final riskDiffVal) <> "Analyzing...".
Proof.
  intros [e He]. cbv zeta. unfold on_input.
  destruct (handle ev st c) as [st' c'] eqn:Eh. cbn [fst snd] in *.
  pose proof (updateAll_falls_back fetch st' st' elapsed pg e He) as H.
  split; [exact H | exact (shows_not_loading _ _ _ H)].
Qed.

(** C3, amended.  [diffPct] is
    [round((femaleCurve[2] - maleCurve[2]) / max(maleCurve[2], 1) * 100)].
    The reduction rule triggers (the text of the recommendation ends with
    "mg (optimized for female metabolism)") if and only if sex is 'female'
    and [diffPct > 15]; when it triggers the recommended dose is
    [max(1, round(dose * 0.8))], otherwise it is the input dose.  For an
    input dose above 2 the recommended dose is lower than the input dose
    if and only if the rule triggers. *)
Theorem recommendation_policy (s : State) :
  let res := computeRiskCurve s in
  let r := recommendation res in
  diffPct res =
    Math_round (mul (div (sub (at_index (femaleCurve res) 2) (at_index (maleCurve res) 2))
                         (Math_max (at_index (maleCurve res) 2) (Num 1)))
                    (Num 100)) /\
  (reduction_triggers s <->
     ends_with " mg (optimized for female metabolism)" (Rec.text r)) /\
  (reduction_triggers s ->
     Rec.dose r = Some (Math_max (Num 1) (Math_round (mul (dose s) (lit 0.8))))) /\
  (~ reduction_triggers s -> Rec.dose r = Some (dose s)) /\
  (forall d, dose s = Num d -> 2 < d ->
     (reduces_dose s = true <-> reduction_triggers s)).
Proof.
  cbv zeta. split; [reflexivity|].
  pose proof (reduction_triggers_spec s) as Ht.
  unfold reduces_dose. rewrite recommendation_cases.
  destruct (bool_decide (sex s = "female") && gt (diffPct (computeRiskCurve s)) (Num 15));
    cbv zeta; cbn [Rec.text Rec.dose].
  - assert (reduction_triggers s) as Hs by now apply Ht.
    split; [split; [intros _ | intros _; exact Hs]|].
    { eexists. rewrite <- app_assoc_string. reflexivity. }
    split; [reflexivity|]. split; [intros H; exfalso; now apply H|].
    intros d Hd H2. rewrite Hd. split; [intros _; exact Hs|].
    intros _. now apply reduced_dose_lower.
  - assert (~ reduction_triggers s) as Hs by (intros H; apply Ht in H; discriminate).
    split; [split; [intros H; exfalso; now apply Hs|]|].
    { intros [p Hp]. exfalso. revert Hp. rewrite <- app_assoc_string.
      apply suffix_clash. intros x y. simpl. congruence. }
    split; [intros H; exfalso; now apply Hs|]. split; [reflexivity|].
    intros d Hd H2. rewrite Hd. cbn [gt]. rewrite bool_decide_eq_true.
    split; [lra | intros H; exfalso; now apply Hs].
Qed.

(** C4.  For a supported medication, a dose of at least 1, a non-negative
    age and any sex, every element of the female curve and of the male curve
    lies in [[0, 95]]. *)
Theorem curves_within_0_95 (s : State) (i : nat) (x : number) :
  supported (med s) -> num_le (Num 1) (dose s) -> num_le (Num 0) (age s) ->
  femaleCurve (computeRiskCurve s) !! i = Some x \/
  maleCurve (computeRiskCurve s) !! i = Some x ->
  num_le (Num 0) x /\ num_le x (Num 95).
Proof.
  intros Hm Hd Ha Hx.
  assert (positive (base_of (med s))) by (apply base_of_positive'; now left).
  assert (positive (ageMult_of (age s)))
    by (apply ageMult_of_positive; now apply num_le_0_not_NaN).
  assert (positive (doseFactor_of (dose s))).
  { apply doseFactor_of_positive.
    apply num_le_trans with (Num 1); [simpl; lra | exact Hd]. }
  assert (exists r, x = Num r /\ 0 <= r <= 95) as (r & -> & Hr).
  { destruct Hx as [Hx | Hx].
    - apply femaleCurve_lookup in Hx as [_ ->].
      apply point_range; auto using sexMult_of_positive'.
    - apply maleCurve_lookup in Hx as [_ ->].
      apply point_range; auto. simpl; lra. }
  simpl. lra.
Qed.

(** C5, amended.  For every input whose dose is not negative, whose age is
    a number and whose medication is a key of the table or falls to the
    default, each of the two curves is non-decreasing across its five time
    points. *)
Theorem curves_nondecreasing (s : State) :
  regular s ->
  nondecreasing (femaleCurve (computeRiskCurve s)) /\
  nondecreasing (maleCurve (computeRiskCurve s)).
Proof.
  intros H. destruct (regular_positive s H) as (Hb & Hs & Ha & Hd).
  split; intros i j x y Hij Hx Hy.
  - apply femaleCurve_lookup in Hx as [_ ->]. apply femaleCurve_lookup in Hy as [_ ->].
    now apply point_le_index.
  - apply maleCurve_lookup in Hx as [_ ->]. apply maleCurve_lookup in Hy as [_ ->].
    apply point_le_index; auto. simpl. lra.
Qed.

(** C6.  When the service answers with a JSON value that has neither a
    top-level [risk_probability] nor a [prediction.risk_probability], the
    conversion raises an error and the update shows the result of the local
    formula. *)
Theorem unexpected_shape_falls_back
    (apiResult : value) (fetch : ApiData -> fetch_outcome) (status : nat)
    (state later : State) (elapsed : nat) (pg : Page) :
  unexpected_shape apiResult ->
  (forall req, fetch req = Responded true status (inr apiResult)) ->
  (exists e, convertAPIResponse apiResult later = inl e) /\
  shows (computeRiskCurve later) later
        (settle (updateAll fetch state later elapsed pg)).
Proof.
  intros Hu Hf. split; [now apply convert_unexpected|].
  destruct (fetch_unexpected fetch state later status apiResult Hf Hu) as [e He].
  exact (updateAll_falls_back fetch state later elapsed pg e He).
Qed.

(** C8.  For every input the female curve and the male curve have exactly
    5 elements, as many as the time points [[1, 4, 8, 12, 48]]. *)
Theorem curve_lengths (s : State) :
  times (computeRiskCurve s) = [Num 1; Num 4; Num 8; Num 12; Num 48] /\
  length (femaleCurve (computeRiskCurve s)) = 5%nat /\
  length (maleCurve (computeRiskCurve s)) = 5%nat /\
  length (femaleCurve (computeRiskCurve s)) = length (times (computeRiskCurve s)) /\
  length (maleCurve (computeRiskCurve s)) = length (times (computeRiskCurve s)).
Proof.
  rewrite femaleCurve_points, maleCurve_points, !length_map. repeat split.
Qed.

(** C10, amended.  For every input whose dose is not negative, whose age is
    a number and whose medication is a key of the table or falls to the
    default, each element of the female curve is at least the corresponding
    element of the male curve, and [diffPct] is not negative. *)
Theorem female_dominates_male (s : State) :
  regular s ->
  dominates (femaleCurve (computeRiskCurve s)) (maleCurve (computeRiskCurve s)) /\
  num_le (Num 0) (diffPct (computeRiskCurve s)).
Proof.
  intros H. destruct (regular_positive s H) as (Hb & Hs & Ha & Hd).
  assert (forall i, num_le (malePoint s i) (femalePoint s i)) as Hle.
  { intros i. apply point_le_mult; auto; [simpl; lra | apply sexMult_of_ge_1]. }
  split.
  - intros i x y Hx Hy.
    apply femaleCurve_lookup in Hx as [_ ->]. apply maleCurve_lookup in Hy as [_ ->].
    apply Hle.
  - specialize (Hle 2%nat).
    change (diffPct (computeRiskCurve s)) with
      (Math_round (mul (div (sub (femalePoint s 2) (malePoint s 2))
                            (Math_max (malePoint s 2) (Num 1))) (Num 100))).
    destruct (point_range (base_of (med s)) (sexMult_of (sex s)) (ageMult_of (age s))
                (doseFactor_of (dose s)) 2 Hb Hs Ha Hd) as (f & Hf & Hfr).
    destruct (point_range (base_of (med s)) (Num 1) (ageMult_of (age s))
                (doseFactor_of (dose s)) 2 Hb ltac:(simpl; lra) Ha Hd) as (m & Hm & Hmr).
    unfold femalePoint, malePoint in *. rewrite Hf, Hm in *. simpl in Hle.
    cbn [sub neg add Math_max div].
    assert (1 <= Rmax m 1) by apply Rmax_r.
    rewrite decide_False by lra. cbn [mul Math_round num_le].
    apply IZR_le, Zfloor_lub. simpl.
    assert (0 <= fl (fl (fl (f + - m) / Rmax m 1) * 100)); [|lra].
    apply fl_nonneg. apply Rmult_le_pos; [|lra]. apply fl_nonneg.
    apply Rmult_le_pos; [apply fl_nonneg; lra|].
    apply Rlt_le, Rinv_0_lt_compat. lra.
Qed.

End Properties.

(** C9.  After the click listener of a stat tile has run, that tile and no
    other tile carries the class [active], and the indicator dot of the same
    index and no other dot carries it (no dot, when there is none at that
    index).  The tiles and the dots are the distinct elements that the two
    [querySelectorAll] calls deliver. *)
Theorem click_activates_one_tile (statEls dots : list nat) (i : nat) (d : Dom) :
  NoDup statEls -> NoDup dots ->
  (forall x, x ∈ statEls -> x ∉ dots) ->
  (i < length statEls)%nat ->
  let d' := click statEls dots i d in
  (forall j s, statEls !! j = Some s -> (contains "active" s d' <-> j = i)) /\
  (forall j dot, dots !! j = Some dot -> (contains "active" dot d' <-> j = i)).
Proof.
  intros Hs Hd Hsd Hi. cbv zeta. unfold click.
  destruct (lookup_lt_is_Some_2 statEls i Hi) as [s Es]. rewrite Es.
  split.
  - intros j x Ex. rewrite contains_stat_click. split.
    + intros [-> | [Ed | (Hn & _)]].
      * exact (NoDup_lookup statEls j i _ Hs Ex Es).
      * exfalso. apply (Hsd x); eapply list_elem_of_lookup_2; eauto.
      * exfalso. apply Hn. eapply list_elem_of_lookup_2; eauto.
    + intros ->. left. congruence.
  - intros j dot Ed. rewrite contains_stat_click. split.
    + intros [-> | [Ed' | (_ & Hn & _)]].
      * exfalso. apply (Hsd s); eapply list_elem_of_lookup_2; eauto.
      * exact (NoDup_lookup dots j i _ Hd Ed Ed').
      * exfalso. apply Hn. eapply list_elem_of_lookup_2; eauto.
    + intros ->. right. left. exact Ed.
Qed.

(** * The properties on the platform without rounding error *)

Section Instances.
#[local] Existing Instance exact_arithmetic.
Local Open Scope R_scope.

Lemma supported_sertraline : supported "sertraline".
Proof. unfold supported, medTable. rewrite lookup_insert_eq. eexists. reflexivity. Defined.

Lemma regular_example : regular example_state.
Proof.
  split; [left; exact supported_sertraline|].
  split; [discriminate | simpl; lra].
Defined.

Lemma regular_female_example : regular female_example_state.
Proof.
  split; [left; exact supported_sertraline|].
  split; [discriminate | simpl; lra].
Defined.

(** The example of the specification fails: the first element of the male
    curve is not the value its formula gives. *)
Lemma example_male_curve_first_counterexample :
  maleCurve (computeRiskCurve example_state) !! 0%nat <> Some example_expected.
Proof. exact example_expected_differs. Qed.

Lemma input_change_falls_back_witness :
  call_fails unreachable (handle (DoseInput (Num 60)) example_state initial_controls).1
    (handle (DoseInput (Num 60)) example_state initial_controls).1 /\
  (shows (computeRiskCurve (handle (DoseInput (Num 60)) example_state initial_controls).1)
         (handle (DoseInput (Num 60)) example_state initial_controls).1
         (settle (on_input unreachable (DoseInput (Num 60)) 2
                    (example_state, initial_controls, initial_page)).2) /\
   innerHTML (elements
                (settle (on_input unreachable (DoseInput (Num 60)) 2
                           (example_state, initial_controls, initial_page)).2)
                riskDiffVal) <> "Analyzing...").
Proof.
  split; [apply unreachable_call_fails|].
  apply (input_change_falls_back unreachable (DoseInput (Num 60)) 2
           example_state initial_controls initial_page).
  apply unreachable_call_fails.
Defined.

Lemma recommendation_policy_witness :
  dose female_example_state = Num 50 /\ 2 < 50 /\
  reduction_triggers female_example_state /\
  reduces_dose female_example_state = true /\
  Rec.dose (recommendation (computeRiskCurve female_example_state)) = Some (Num 40).
Proof.
  assert (2 < 50) as H by lra.
  split; [reflexivity|]. split; [exact H|]. split; [exact female_example_triggers|].
  destruct (recommendation_policy female_example_state) as (_ & _ & H3 & _ & H5).
  split.
  - exact (proj2 (H5 50 eq_refl H) female_example_triggers).
  - rewrite <- female_example_recDose. exact (H3 female_example_triggers).
Defined.

(** At a dose of 2 mg the rule triggers for the female patient of the
    example ([diffPct] is 25), and the recommended dose,
    [max(1, round(1.6)) = 2], is the input dose: nothing is reduced. *)
Lemma recommendation_policy_counterexample :
  ~ (reduces_dose low_dose_state = true <->
     sex low_dose_state = "female" /\
     gt (diffPct (computeRiskCurve low_dose_state)) (Num 15) = true).
Proof. exact low_dose_not_reduced. Qed.

Lemma curves_within_0_95_witness :
  supported (med example_state) /\ num_le (Num 1) (dose example_state) /\
  num_le (Num 0) (age example_state) /\
  (num_le (Num 0) (malePoint example_state 0) /\
   num_le (malePoint example_state 0) (Num 95)).
Proof.
  assert (num_le (Num 1) (dose example_state)) as Hd by (simpl; lra).
  assert (num_le (Num 0) (age example_state)) as Ha by (simpl; lra).
  split; [exact supported_sertraline|]. split; [exact Hd|]. split; [exact Ha|].
  apply (curves_within_0_95 example_state 0 (malePoint example_state 0)
           supported_sertraline Hd Ha).
  right. reflexivity.
Defined.

Lemma curves_nondecreasing_witness :
  regular example_state /\
  (nondecreasing (femaleCurve (computeRiskCurve example_state)) /\
   nondecreasing (maleCurve (computeRiskCurve example_state))).
Proof.
  split; [exact regular_example|].
  exact (curves_nondecreasing example_state regular_example).
Defined.

(** At a dose of [-19.9999] the male curve decreases. *)
Lemma curves_nondecreasing_counterexample :
  ~ (nondecreasing (femaleCurve (computeRiskCurve (negative_dose_state "male"))) /\
     nondecreasing (maleCurve (computeRiskCurve (negative_dose_state "male")))).
Proof. intros [_ H]. exact (not_nondecreasing_negative_dose "male" H). Qed.

Lemma unexpected_shape_falls_back_witness :
  unexpected_shape (VObject [("status", VString "ok")]) /\
  ((exists e, convertAPIResponse (VObject [("status", VString "ok")]) example_state = inl e) /\
   shows (computeRiskCurve example_state) example_state
     (settle (updateAll (fun _ => Responded true 200 (inr (VObject [("status", VString "ok")])))
                example_state example_state 3 initial_page))).
Proof.
  assert (unexpected_shape (VObject [("status", VString "ok")])) as Hu.
  { split.
    - intros (x & Hx & Hne). apply Hne. vm_compute in Hx. congruence.
    - intros pred Hp (x & Hx & Hne). vm_compute in Hp.
      assert (pred = VUndefined) as -> by congruence. discriminate. }
  split; [exact Hu|].
  apply (unexpected_shape_falls_back (VObject [("status", VString "ok")])
           (fun _ => Responded true 200 (inr (VObject [("status", VString "ok")])))
           200 example_state example_state 3 initial_page Hu).
  reflexivity.
Defined.

Lemma female_dominates_male_witness :
  regular female_example_state /\
  (dominates (femaleCurve (computeRiskCurve female_example_state))
             (maleCurve (computeRiskCurve female_example_state)) /\
   num_le (Num 0) (diffPct (computeRiskCurve female_example_state))).
Proof.
  split; [exact regular_female_example|].
  exact (female_dominates_male female_example_state regular_female_example).
Defined.

(** At a dose of [-19.9999] the female curve of a female patient lies below
    the male curve. *)
Lemma female_dominates_male_counterexample :
  ~ (dominates (femaleCurve (computeRiskCurve (negative_dose_state "female")))
               (maleCurve (computeRiskCurve (negative_dose_state "female"))) /\
     num_le (Num 0) (diffPct (computeRiskCurve (negative_dose_state "female")))).
Proof. intros [H _]. exact (not_dominates_negative_dose H). Qed.

End Instances.

Lemma click_activates_one_tile_witness :
  NoDup [0; 1; 2]%nat /\ NoDup [10; 11; 12]%nat /\
  (forall x : nat, x ∈ [0; 1; 2]%nat -> x ∉ [10; 11; 12]%nat) /\
  (1 < length [0; 1; 2]%nat)%nat /\
  ((forall j s, [0; 1; 2]%nat !! j = Some s ->
      (contains "active" s (click [0; 1; 2]%nat [10; 11; 12]%nat 1 sample_dom) <-> j = 1%nat)) /\
   (forall j dot, [10; 11; 12]%nat !! j = Some dot ->
      (contains "active" dot (click [0; 1; 2]%nat [10; 11; 12]%nat 1 sample_dom) <-> j = 1%nat))).
Proof.
  assert (NoDup [0; 1; 2]%nat) as H1 by (refine (bool_decide_unpack _ _); vm_compute; exact I).
  assert (NoDup [10; 11; 12]%nat) as H2 by (refine (bool_decide_unpack _ _); vm_compute; exact I).
  assert (forall x : nat, x ∈ [0; 1; 2]%nat -> x ∉ [10; 11; 12]%nat) as H3.
  { intros x Hx. apply (proj1 (Forall_forall (fun x => x ∉ [10; 11; 12]%nat) [0; 1; 2]%nat));
      [|exact Hx].
    refine (bool_decide_unpack _ _). vm_compute. exact I. }
  assert (1 < length [0; 1; 2]%nat)%nat as H4 by (simpl; lia).
  split; [exact H1|]. split; [exact H2|]. split; [exact H3|]. split; [exact H4|].
  exact (click_activates_one_tile [0; 1; 2]%nat [10; 11; 12]%nat 1 sample_dom H1 H2 H3 H4).
Defined.

(** * The answer of the service *)

Section ApiFacts.
Context {P : Platform}.
Local Open Scope R_scope.

Lemma defined_spec (x : value) : defined x = true <-> x <> VUndefined.
Proof. destruct x; simpl; split; congruence. Qed.

Lemma has_field_object (v : value) (k : api_key) :
  has_field v k -> exists fields, v = VObject fields.
Proof.
  intros (x & Hx & Hne). destruct v; simpl in Hx; try discriminate;
    try (injection Hx as <-; congruence). eauto.
Qed.

Lemma has_field_read (v : value) (k : api_key) :
  has_field v k <-> getprop v k = inr (field v k) /\ field v k <> VUndefined.
Proof.
  unfold has_field, field. split.
  - intros (x & Hx & Hne). now rewrite Hx.
  - intros [H1 H2]. eauto.
Qed.

Lemma getprop_object (fields : list (string * value)) (k : api_key) :
  getprop (VObject fields) k = inr (field (VObject fields) k).
Proof. reflexivity. Qed.

Lemma convert_direct (v : value) (state : State) :
  has_field v risk_probability ->
  convertAPIResponse v state =
  inr (api_result (field v risk_probability) (field v risk_label) (field v confidence)
         state).
Proof.
  intros H. destruct (has_field_object _ _ H) as [fields ->].
  apply has_field_read in H as [_ Hne]. apply defined_spec in Hne.
  unfold convertAPIResponse. rewrite !getprop_object.
  cbn [mbind Exc_bind mret Exc_ret]. rewrite Hne. reflexivity.
Qed.

Lemma convert_nested (v : value) (state : State) :
  ~ has_field v risk_probability ->
  has_field (field v prediction) risk_probability ->
  convertAPIResponse v state =
  inr (api_result (field (field v prediction) risk_probability)
         (field (field v prediction) risk_label)
         (field (field v prediction) confidence) state).
Proof.
  intros Hd Hn. destruct (has_field_object _ _ Hn) as [inner Hinner].
  assert (exists fields, v = VObject fields) as [fields ->].
  { unfold field in Hinner. destruct v; simpl in Hinner; try discriminate. eauto. }
  apply has_field_read in Hn as [_ Hne]. apply defined_spec in Hne.
  assert (defined (field (VObject fields) risk_probability) = false) as Hu.
  { destruct (defined (field (VObject fields) risk_probability)) eqn:E;
      [|reflexivity]. exfalso. apply Hd.
    apply has_field_read. split; [reflexivity | now apply defined_spec]. }
  unfold convertAPIResponse. rewrite (getprop_object fields risk_probability).
  cbn [mbind Exc_bind mret Exc_ret]. rewrite Hu.
  rewrite (getprop_object fields prediction). cbn [mbind Exc_bind mret Exc_ret].
  rewrite Hinner in *. cbn [ToBoolean]. rewrite !getprop_object.
  cbn [mbind Exc_bind mret Exc_ret andb]. rewrite Hne. reflexivity.
Qed.

Lemma has_field_defined (v : value) (k : api_key) :
  has_field v k <-> defined (field v k) = true.
Proof.
  rewrite defined_spec. split.
  - intros H. now apply has_field_read in H.
  - intros H. apply has_field_read. split; [|exact H].
    unfold field in *. destruct (getprop v k); [congruence | reflexivity].
Qed.

Lemma has_field_dec (v : value) (k : api_key) : has_field v k \/ ~ has_field v k.
Proof.
  rewrite has_field_defined. destruct (defined (field v k)); [now left | right; congruence].
Qed.

Lemma convert_result (v : value) (state : State) (res : Result) :
  convertAPIResponse v state = inr res ->
  res = api_result (riskProb_of v) (riskLabel_of v) (confidence_of v) state.
Proof.
  intros H. unfold riskProb_of, riskLabel_of, confidence_of.
  destruct (has_field_dec v risk_probability) as [Hd | Hd].
  - rewrite (convert_direct v state Hd) in H. injection H as <-.
    apply has_field_defined in Hd. now rewrite Hd.
  - destruct (has_field_dec (field v prediction) risk_probability) as [Hn | Hn].
    + rewrite (convert_nested v state Hd Hn) in H. injection H as <-.
      destruct (defined (field v risk_probability)) eqn:E; [|reflexivity].
      exfalso. apply Hd. now apply has_field_defined.
    + exfalso. destruct (convert_unexpected v state) as [e He]; [|congruence].
      split; [exact Hd|]. intros pred Hp. unfold field in Hn. now rewrite Hp in Hn.
Qed.


(** X1.  [convertAPIResponse] returns a result exactly when the answer has a
    [risk_probability] other than [undefined], at the top level or inside
    its [prediction]; on every other answer it throws. *)
Theorem convert_succeeds_iff (apiResult : value) (state : State) :
  (exists r, convertAPIResponse apiResult state = inr r) <->
  has_field apiResult risk_probability \/
  has_field (field apiResult prediction) risk_probability.
Proof.
  split.
  - intros [r Hr].
    destruct (has_field_dec apiResult risk_probability) as [|Hd]; [now left|].
    destruct (has_field_dec (field apiResult prediction) risk_probability) as [|Hn];
      [now right|].
    exfalso. destruct (convert_unexpected apiResult state) as [e He]; [|congruence].
    split; [exact Hd|]. intros pred Hp. unfold field in Hn. now rewrite Hp in Hn.
  - destruct (has_field_dec apiResult risk_probability) as [Hd|Hd].
    + intros _. eexists. now apply convert_direct.
    + intros [H|H]; [contradiction|]. eexists. now apply convert_nested.
Qed.

(** X2.  A top-level [risk_probability] wins: when the answer has one, the
    result of [convertAPIResponse] depends on the answer only through its
    top-level [risk_probability], [risk_label] and [confidence]; a nested
    [prediction], in particular, is not looked at. *)
Theorem convert_prefers_top_level (apiResult apiResult' : value) (state : State) :
  has_field apiResult risk_probability ->
  field apiResult' risk_probability = field apiResult risk_probability ->
  field apiResult' risk_label = field apiResult risk_label ->
  field apiResult' confidence = field apiResult confidence ->
  convertAPIResponse apiResult' state = convertAPIResponse apiResult state.
Proof.
  intros H Hp Hl Hc.
  assert (has_field apiResult' risk_probability) as H'.
  { apply has_field_defined. rewrite Hp. now apply has_field_defined. }
  rewrite (convert_direct _ _ H), (convert_direct _ _ H'). now rewrite Hp, Hl, Hc.
Qed.

(** The curve points of the API path. *)
Lemma api_tFactor_num i : exists t, 0 < t /\ api_tFactor i = Num t.
Proof.
  unfold api_tFactor. simpl. eexists. split; [|reflexivity].
  apply fl_pos. assert (0 <= fl (INR i * fl 0.05)); [|lra].
  apply fl_nonneg. apply Rmult_le_pos; [apply pos_INR|].
  apply fl_nonneg. lra.
Qed.






Lemma api_result_female p l c st :
  femaleCurve (api_result p l c st) =
  map (apiPoint (mul (ToNumber p) (Num 100))) [0; 1; 2; 3; 4]%nat.
Proof. reflexivity. Qed.

Lemma api_result_male p l c st :
  maleCurve (api_result p l c st) =
  map (apiPoint (mul (mul (ToNumber p) (Num 100)) (lit 0.8))) [0; 1; 2; 3; 4]%nat.
Proof. reflexivity. Qed.



Lemma fl_eq_0 x : x = 0 -> fl x = 0.
Proof. intros ->. apply fl_0. Qed.

Lemma apiPoint_zero i : apiPoint (Num 0) i = Num 0.
Proof.
  unfold apiPoint. destruct (api_tFactor_num i) as (t & Ht & ->). cbn [mul].
  rewrite Rmult_0_l, fl_0, Rmult_0_l, fl_0. cbn [Math_round].
  assert (Zfloor (0 + / 2) = 0%Z) as -> by (apply Zfloor_eq; simpl; lra).
  cbn [div]. rewrite decide_False by lra.
  assert (fl (0 / 10) = 0) as -> by (apply fl_eq_0; lra).
  cbn [Math_min]. f_equal. apply Rmin_right. lra.
Qed.

Lemma api_result_zero (p l c : value) (st : State) :
  ToNumber p = Num 0 ->
  let res := api_result p l c st in
  femaleCurve res = [Num 0; Num 0; Num 0; Num 0; Num 0] /\
  maleCurve res = [Num 0; Num 0; Num 0; Num 0; Num 0] /\
  diffPct res = Num 0.
Proof.
  intros Hp. cbv zeta.
  assert (mul (ToNumber p) (Num 100) = Num 0) as Hb.
  { rewrite Hp. cbn [mul]. now rewrite Rmult_0_l, fl_0. }
  assert (mul (Num 0) (lit 0.8) = Num 0) as Hm.
  { cbn [mul lit]. now rewrite Rmult_0_l, fl_0. }
  assert (femaleCurve (api_result p l c st) = [Num 0; Num 0; Num 0; Num 0; Num 0]) as Hf.
  { rewrite api_result_female, Hb. cbn [map]. now rewrite !apiPoint_zero. }
  assert (maleCurve (api_result p l c st) = [Num 0; Num 0; Num 0; Num 0; Num 0]) as Hmc.
  { rewrite api_result_male, Hb, Hm. cbn [map]. now rewrite !apiPoint_zero. }
  split; [exact Hf|]. split; [exact Hmc|].
  change (diffPct (api_result p l c st)) with
    (Math_round (mul (div (sub (at_index (femaleCurve (api_result p l c st)) 2)
                               (at_index (maleCurve (api_result p l c st)) 2))
                          (Math_max (at_index (maleCurve (api_result p l c st)) 2) (Num 1)))
                     (Num 100))).
  rewrite Hf, Hmc. change (at_index [Num 0; Num 0; Num 0; Num 0; Num 0] 2) with (Num 0).
  cbn [sub neg add Math_max div].
  assert (Rmax 0 1 = 1) as -> by (apply Rmax_right; lra).
  rewrite decide_False by lra.
  assert (fl (0 + - 0) = 0) as -> by (apply fl_eq_0; lra).
  assert (fl (0 / 1) = 0) as -> by (apply fl_eq_0; lra).
  cbn [mul Math_round]. rewrite Rmult_0_l, fl_0.
  assert (Zfloor (0 + / 2) = 0%Z) as -> by (apply Zfloor_eq; simpl; lra).
  reflexivity.
Qed.


(** X4.  When the risk probability of the answer reads as zero ([0], [null],
    [false]), both curves of [convertAPIResponse] are flat at [0] and
    [diffPct] is [0]. *)
Theorem zero_risk_is_flat (apiResult : value) (st : State) (res : Result) :
  convertAPIResponse apiResult st = inr res ->
  ToNumber (riskProb_of apiResult) = Num 0 ->
  femaleCurve res = [Num 0; Num 0; Num 0; Num 0; Num 0] /\
  maleCurve res = [Num 0; Num 0; Num 0; Num 0; Num 0] /\
  diffPct res = Num 0.
Proof.
  intros Hc Hp. rewrite (convert_result _ _ _ Hc).
  exact (api_result_zero _ _ _ st Hp).
Qed.

End ApiFacts.

(** * Runs of the controller *)

Section ControllerFacts.
Context {P : Platform}.

Lemma updateAll_parts fetch state later elapsed pg :
  updateAll fetch state later elapsed pg =
  updateAll_resume (fetchFromAPI fetch state later) later
    (fire_n elapsed (updateAll_loading pg)).
Proof. reflexivity. Qed.

Lemma resume_shows (answer : Exc Result) (later : State) (pg : Page) :
  shows (match answer with inr r => r | inl _ => computeRiskCurve later end)
        later (settle (updateAll_resume answer later pg)).
Proof.
  unfold updateAll_resume.
  destruct (render_shows answer later pg) as (pg' & -> & H). exact H.
Qed.

Lemma updateAll_shows_answer fetch state later elapsed pg res :
  fetchFromAPI fetch state later = inr res ->
  shows res later (settle (updateAll fetch state later elapsed pg)).
Proof.
  intros H. rewrite updateAll_parts, H.
  exact (resume_shows (inr res) later (fire_n elapsed (updateAll_loading pg))).
Qed.

(** X5.  A response whose status is not a success makes [fetchFromAPI]
    throw ["API request failed: <status>"] whatever its body is, and
    [updateAll] then shows the local formula. *)
Theorem failed_status_falls_back
    (fetch : ApiData -> fetch_outcome) (status : nat) (json : Exc value)
    (state later : State) (elapsed : nat) (pg : Page) :
  (forall req, fetch req = Responded false status json) ->
  fetchFromAPI fetch state later =
    throw ("API request failed: " +:+ ToString (VNumber (Num (INR status)))) /\
  shows (computeRiskCurve later) later
        (settle (updateAll fetch state later elapsed pg)).
Proof.
  intros H.
  assert (fetchFromAPI fetch state later =
          throw ("API request failed: " +:+ ToString (VNumber (Num (INR status))))) as E
    by (unfold fetchFromAPI; now rewrite H).
  split; [exact E|]. exact (updateAll_falls_back fetch state later elapsed pg _ E).
Qed.

(** X6.  An answer with a truthy [error] field makes [fetchFromAPI] throw
    that error, whatever else the answer holds (a valid prediction
    included), and [updateAll] then shows the local formula. *)
Theorem error_field_falls_back
    (fetch : ApiData -> fetch_outcome) (status : nat) (apiResult err : value)
    (state later : State) (elapsed : nat) (pg : Page) :
  (forall req, fetch req = Responded true status (inr apiResult)) ->
  getprop apiResult error = inr err -> ToBoolean err = true ->
  fetchFromAPI fetch state later = throw (ToString err) /\
  shows (computeRiskCurve later) later
        (settle (updateAll fetch state later elapsed pg)).
Proof.
  intros H He Hb.
  assert (fetchFromAPI fetch state later = throw (ToString err)) as E.
  { unfold fetchFromAPI. rewrite H. cbn [negb mbind Exc_bind]. rewrite He.
    cbn [mbind Exc_bind]. now rewrite Hb. }
  split; [exact E|]. exact (updateAll_falls_back fetch state later elapsed pg _ E).
Qed.

Lemma fetch_converts fetch status (apiResult err : value) state later :
  (forall req, fetch req = Responded true status (inr apiResult)) ->
  getprop apiResult error = inr err -> ToBoolean err = false ->
  fetchFromAPI fetch state later = convertAPIResponse apiResult later.
Proof.
  intros H He Hb. unfold fetchFromAPI. rewrite H. cbn [negb mbind Exc_bind]. rewrite He.
  cbn [mbind Exc_bind]. now rewrite Hb.
Qed.

(** X7.  When the service answers with a success status, without a truthy
    [error] field, and [convertAPIResponse] accepts the answer, the page
    shows the converted answer once the pending text updates have run: not
    the local formula, and not the loading texts. *)
Theorem successful_answer_is_shown
    (fetch : ApiData -> fetch_outcome) (status : nat) (apiResult err : value)
    (state later : State) (elapsed : nat) (pg : Page) (res : Result) :
  (forall req, fetch req = Responded true status (inr apiResult)) ->
  getprop apiResult error = inr err -> ToBoolean err = false ->
  convertAPIResponse apiResult later = inr res ->
  shows res later (settle (updateAll fetch state later elapsed pg)).
Proof.
  intros H He Hb Hc. apply updateAll_shows_answer.
  now rewrite (fetch_converts fetch status apiResult err state later H He Hb).
Qed.

(** X8.  Of two runs of [updateAll] that overlap, the one whose request is
    settled last decides what the page shows: when the request of the
    earlier run is answered after the later run has rendered, the page ends
    with the answer to the earlier, outdated form state. *)
Theorem last_settled_update_wins
    (fetch : ApiData -> fetch_outcome) (state1 state2 later2 later1 : State)
    (a b c : nat) (pg : Page) (res1 : Result) :
  fetchFromAPI fetch state1 later1 = inr res1 ->
  shows res1 later1
    (settle (overlapping_updates fetch state1 state2 later2 later1 a b c pg)).
Proof.
  intros H. unfold overlapping_updates. cbv zeta. rewrite H.
  match goal with |- shows _ _ (settle (updateAll_resume _ _ ?p)) =>
    exact (resume_shows (inr res1) later1 p) end.
Qed.

(** X9.  While the request is pending and once the text updates have run,
    the three texts are the loading texts ["Analyzing..."],
    ["<strong>Computing recommendations...</strong>"] and ["Processing
    metabolic data..."], and the chart is as it was. *)
Theorem loading_shows_placeholders (pg : Page) :
  let shown := settle (updateAll_loading pg) in
  innerHTML (elements shown riskDiffVal) = "Analyzing..." /\
  innerHTML (elements shown recommendText) =
    "<strong>Computing recommendations...</strong>" /\
  innerHTML (elements shown metabText) = "Processing metabolic data..." /\
  dataset0 shown = dataset0 pg /\ dataset1 shown = dataset1 pg /\
  drawn shown = drawn pg.
Proof.
  cbv zeta. destruct (settle_spec (updateAll_loading pg)) as (_ & H2 & H3 & H4 & H5).
  assert (timers (updateAll_loading pg) = timers pg ++
            [(riskDiffVal, "Analyzing...");
             (recommendText, "<strong>Computing recommendations...</strong>");
             (metabText, "Processing metabolic data...")]) as Ht.
  { unfold updateAll_loading, animateTextUpdate. cbn [timers set_element].
    rewrite <- !(assoc_L (++)). reflexivity. }
  rewrite H2, H3, H4, !H5, Ht, !last_write_three. repeat split.
Qed.

(** The handlers keep the sex buttons in step with the form state. *)
Lemma handle_agree (ev : input_event) (w : State * Controls) :
  sex_buttons_agree w -> sex_buttons_agree (handle ev w.1 w.2).
Proof.
  destruct w as [st c]. unfold sex_buttons_agree. cbn [fst snd].
  destruct ev; cbn [handle fst snd sex sexM_active sexF_active]; try tauto.
  intros _. case_bool_decide; cbn [sexM_active sexF_active]; auto.
Qed.

Lemma handle_SexClick_agree (s : string) (w : State * Controls) :
  sex_buttons_agree (handle (SexClick s) w.1 w.2).
Proof.
  destruct w as [st c]. unfold sex_buttons_agree.
  cbn [handle fst snd sex]. case_bool_decide; cbn [sexM_active sexF_active]; auto.
Qed.

Lemma handle_all_agree (evs : list input_event) (w : State * Controls) :
  sex_buttons_agree w -> sex_buttons_agree (handle_all evs w).
Proof.
  unfold handle_all. revert w. induction evs as [|ev evs IH]; intros w H; [exact H|].
  cbn [foldl]. apply IH. now apply handle_agree.
Qed.

(** X10.  After any sequence of input events, the male button is the active
    one exactly when [state.sex] is ['male'] and the female button is
    active exactly when the male one is not, provided this held before or
    one of the events is a click on a sex button. *)
Theorem sex_buttons_follow_state (evs : list input_event) (w : State * Controls) :
  sex_buttons_agree w \/ (exists s, SexClick s ∈ evs) ->
  sex_buttons_agree (handle_all evs w).
Proof.
  intros [H | [s Hs]]; [now apply handle_all_agree|].
  apply list_elem_of_split in Hs as (pre & post & ->).
  unfold handle_all. rewrite foldl_app. cbn [foldl].
  apply (handle_all_agree post). apply handle_SexClick_agree.
Qed.

End ControllerFacts.

(** X23.  [getMedicationName] gives ['Atorvastatin'] for ['sertraline'] and
    for every key it does not know, except for the names that the object
    literal inherits from [Object.prototype]: for those it gives what is
    inherited, which is no medication name. *)
Theorem getMedicationName_default (medKey : string) :
  medKey <> "amlodipine" -> medKey <> "metformin" ->
  getMedicationName medKey =
  if bool_decide (medKey ∈ Object_prototype_keys) then VBuiltin
  else VString "Atorvastatin".
Proof.
  intros Ha Hm. unfold getMedicationName, get_property, medMap.
  destruct (decide (medKey = "sertraline")) as [-> | Hs].
  - rewrite lookup_insert_eq. rewrite bool_decide_false; [reflexivity|].
    refine (bool_decide_unpack _ _). vm_compute. exact I.
  - rewrite lookup_insert_ne by congruence. rewrite lookup_insert_ne by congruence.
    rewrite lookup_singleton_ne by congruence.
    now destruct (bool_decide (medKey ∈ Object_prototype_keys)).
Qed.

(** * More on the local formula *)

Section FormulaMore.
Context {P : Platform}.
Local Open Scope R_scope.

(** [diffPct] as a function of the two mid-curve values. *)
Lemma diffPct_points (s : State) :
  diffPct (computeRiskCurve s) =
  Math_round (mul (div (sub (femalePoint s 2) (malePoint s 2))
                       (Math_max (malePoint s 2) (Num 1))) (Num 100)).
Proof. reflexivity. Qed.

(** Equal finite mid-curve values leave no gap. *)
Lemma gap_of_equal (m : R) :
  Math_round (mul (div (sub (Num m) (Num m)) (Math_max (Num m) (Num 1))) (Num 100))
  = Num 0.
Proof.
  cbn [sub neg add Math_max div].
  assert (1 <= Rmax m 1) by apply Rmax_r.
  rewrite decide_False by lra.
  assert (fl (m + - m) = 0) as -> by (apply fl_eq_0; lra).
  assert (fl (0 / Rmax m 1) = 0) as -> by (apply fl_eq_0; unfold Rdiv; lra).
  cbn [mul Math_round]. rewrite Rmult_0_l, fl_0.
  assert (Zfloor (0 + / 2) = 0%Z) as -> by (apply Zfloor_eq; simpl; lra).
  reflexivity.
Qed.

Lemma gt_0_15 : gt (Num 0) (Num 15) = false.
Proof. simpl. apply bool_decide_eq_false_2. lra. Qed.

Lemma recommendation_unchanged (s : State) :
  bool_decide (sex s = "female") && gt (diffPct (computeRiskCurve s)) (Num 15) = false ->
  recommendation (computeRiskCurve s) =
  {| Rec.text := "Recommended: " +:+ ToString (VNumber (dose s)) +:+ " mg (no change)";
     Rec.dose := Some (dose s) |}.
Proof. intros H. rewrite recommendation_cases, H. reflexivity. Qed.

(** X11.  For a sex other than ['female'] the local formula gives the same
    curve twice, a [diffPct] of [0] (on the inputs where the formula stays
    within the numbers), and never reduces the dose. *)
Theorem other_sex_has_no_gap (s : State) :
  sex s <> "female" ->
  femaleCurve (computeRiskCurve s) = maleCurve (computeRiskCurve s) /\
  (regular s -> diffPct (computeRiskCurve s) = Num 0) /\
  Rec.dose (recommendation (computeRiskCurve s)) = Some (dose s).
Proof.
  intros Hs.
  assert (forall i, femalePoint s i = malePoint s i) as E.
  { intros i. unfold femalePoint, malePoint, sexMult_of.
    now rewrite bool_decide_eq_false_2. }
  split; [|split].
  - rewrite femaleCurve_points, maleCurve_points. cbn [map]. now rewrite !E.
  - intros Hr. destruct (regular_positive s Hr) as (Hb & _ & Ha & Hd).
    rewrite diffPct_points, E.
    destruct (point_range (base_of (med s)) (Num 1) (ageMult_of (age s))
                (doseFactor_of (dose s)) 2 Hb ltac:(simpl; lra) Ha Hd) as (m & Hm & _).
    unfold malePoint. rewrite Hm. apply gap_of_equal.
  - rewrite recommendation_unchanged; [reflexivity|].
    now rewrite bool_decide_eq_false_2.
Qed.

(** ** A sex multiplier above 1 cannot take a capped value down *)

Lemma amplifies_refl x : amplifies x x.
Proof.
  destruct x as [a | | |]; simpl; auto.
  destruct (Rtotal_order a 0) as [H | [H | H]]; [right; right | left | right; left]; lra.
Qed.

Lemma fl_between x y : 0 <= x <= y -> fl x = 0 \/ 0 < fl x <= fl y.
Proof.
  intros [H0 H]. pose proof (fl_nonneg x H0). pose proof (fl_mono x y H).
  destruct (Req_dec (fl x) 0); [now left | right; lra].
Qed.

Lemma fl_between_neg x y : y <= x <= 0 -> fl x = 0 \/ fl y <= fl x < 0.
Proof.
  intros [H H0]. pose proof (fl_mono y x H) as Hm. pose proof (fl_mono x 0 H0) as Hz.
  rewrite fl_0 in Hz.
  destruct (Req_dec (fl x) 0); [now left | right; lra].
Qed.

Lemma amplifies_Num a b :
  fl a = 0 \/ 0 < fl a <= fl b \/ fl b <= fl a < 0 -> amplifies (Num (fl a)) (Num (fl b)).
Proof. simpl. tauto. Qed.

Lemma amplifies_mul x y c : amplifies x y -> amplifies (mul x c) (mul y c).
Proof.
  destruct x as [a | | |]; [| now destruct c | |].
  - intros [-> | H].
    { destruct c as [c | | |]; simpl; auto.
      - left. rewrite Rmult_0_l. apply fl_0.
      - unfold Rsign. rewrite !decide_False by lra. exact I.
      - unfold Rsign. rewrite !decide_False by lra. exact I. }
    destruct y as [b | | |]; [| tauto | |].
    + destruct c as [c | | |]; simpl; auto.
      * destruct (Rtotal_order c 0) as [Hc | [-> | Hc]].
        -- destruct H as [H | H].
           ++ destruct (fl_between_neg (a * c) (b * c)) as [E | E]; [nra | auto | auto].
           ++ destruct (fl_between (a * c) (b * c)) as [E | E]; [nra | auto | auto].
        -- left. rewrite Rmult_0_r. apply fl_0.
        -- destruct H as [H | H].
           ++ destruct (fl_between (a * c) (b * c)) as [E | E]; [nra | auto | auto].
           ++ destruct (fl_between_neg (a * c) (b * c)) as [E | E]; [nra | auto | auto].
      * unfold Rsign. destruct H as [H | H].
        -- rewrite !decide_True by lra. reflexivity.
        -- rewrite (decide_False (P := 0 < a)), (decide_True (P := a < 0)) by lra.
           rewrite (decide_False (P := 0 < b)), (decide_True (P := b < 0)) by lra.
           reflexivity.
      * unfold Rsign. destruct H as [H | H].
        -- rewrite !decide_True by lra. reflexivity.
        -- rewrite (decide_False (P := 0 < a)), (decide_True (P := a < 0)) by lra.
           rewrite (decide_False (P := 0 < b)), (decide_True (P := b < 0)) by lra.
           reflexivity.
    + destruct c as [c | | |]; simpl; auto.
      * unfold Rsign. destruct (Rtotal_order c 0) as [Hc | [-> | Hc]].
        -- rewrite (decide_False (P := 0 < c)), (decide_True (P := c < 0)) by lra.
           simpl. destruct (fl_between_neg (a * c) (a * c)) as [E | E]; [nra | auto |].
           right. lra.
        -- left. rewrite Rmult_0_r. apply fl_0.
        -- rewrite (decide_True (P := 0 < c)) by lra.
           simpl. destruct (fl_between (a * c) (a * c)) as [E | E]; [nra | auto |].
           right. lra.
      * unfold Rsign. now rewrite decide_True by lra.
      * unfold Rsign. now rewrite decide_True by lra.
    + destruct c as [c | | |]; simpl; auto.
      * unfold Rsign. destruct (Rtotal_order c 0) as [Hc | [-> | Hc]].
        -- rewrite (decide_False (P := 0 < c)), (decide_True (P := c < 0)) by lra.
           simpl. destruct (fl_between (a * c) (a * c)) as [E | E]; [nra | auto |].
           right. lra.
        -- left. rewrite Rmult_0_r. apply fl_0.
        -- rewrite (decide_True (P := 0 < c)) by lra.
           simpl. destruct (fl_between_neg (a * c) (a * c)) as [E | E]; [nra | auto |].
           right. lra.
      * unfold Rsign. rewrite (decide_False (P := 0 < a)), (decide_True (P := a < 0)) by lra.
        reflexivity.
      * unfold Rsign. rewrite (decide_False (P := 0 < a)), (decide_True (P := a < 0)) by lra.
        reflexivity.
  - simpl. intros ->. apply amplifies_refl.
  - simpl. intros ->. apply amplifies_refl.
Qed.

Lemma amplifies_round x y : amplifies x y -> amplifies (Math_round x) (Math_round y).
Proof.
  destruct x as [a | | |]; [| exact (fun _ => I) | now intros -> | now intros ->].
  simpl. intros [-> | H].
  { left. replace (0 + / 2) with (/ 2) by ring.
    assert (Zfloor (/ 2) = 0%Z) as -> by (apply Zfloor_eq; simpl; lra). reflexivity. }
  pose proof (Zfloor_bound (a + / 2)) as [Ha Ha'].
  destruct (Req_dec (IZR (Zfloor (a + / 2))) 0) as [E | E]; [now left | right].
  destruct y as [b | | |]; simpl; [| tauto | |].
  - destruct H as [H | H].
    + left. assert (0 <= Zfloor (a + / 2))%Z as H0 by (apply Zfloor_lub; simpl; lra).
      apply IZR_le in H0. split; [lra|]. apply IZR_le, Zfloor_lub. lra.
    + right. assert (Zfloor (a + / 2) < 1)%Z as H0 by (apply lt_IZR; lra).
      assert (IZR (Zfloor (a + / 2)) <= 0) as H1 by (apply IZR_le; lia).
      split; [|lra]. apply IZR_le, Zfloor_lub.
      pose proof (Zfloor_bound (b + / 2)) as [Hb _]. lra.
  - assert (0 <= Zfloor (a + / 2))%Z as H0 by (apply Zfloor_lub; simpl; lra).
    apply IZR_le in H0. lra.
  - assert (Zfloor (a + / 2) < 1)%Z as H0 by (apply lt_IZR; lra).
    assert (IZR (Zfloor (a + / 2)) <= 0) as H1 by (apply IZR_le; lia). lra.
Qed.

Lemma amplifies_div_10 x y : amplifies x y -> amplifies (div x (Num 10)) (div y (Num 10)).
Proof.
  destruct x as [a | | |]; simpl; [| exact (fun _ => I) | |].
  - rewrite (decide_False (P := 10 = 0)) by lra. intros [-> | H].
    { left. apply fl_eq_0. lra. }
    destruct y as [b | | |]; simpl; [| tauto | |].
    + rewrite (decide_False (P := 10 = 0)) by lra. simpl. destruct H as [H | H].
      * destruct (fl_between (a / 10) (b / 10)) as [E | E]; [lra | auto | auto].
      * destruct (fl_between_neg (a / 10) (b / 10)) as [E | E]; [lra | auto | auto].
    + rewrite (decide_False (P := 10 < 0)) by lra. simpl.
      destruct (fl_between (a / 10) (a / 10)) as [E | E]; [lra | auto |]. right. lra.
    + rewrite (decide_False (P := 10 < 0)) by lra. simpl.
      destruct (fl_between_neg (a / 10) (a / 10)) as [E | E]; [lra | auto |]. right. lra.
  - intros ->. simpl. now rewrite (decide_False (P := 10 < 0)) by lra.
  - intros ->. simpl. now rewrite (decide_False (P := 10 < 0)) by lra.
Qed.

Lemma amplifies_capped x y :
  amplifies x y -> Math_min (Num 95) x = Num 95 -> Math_min (Num 95) y = Num 95.
Proof.
  destruct x as [a | | |]; simpl; try discriminate.
  - intros H [= E]. assert (95 <= a) as Ha.
    { rewrite <- E at 1. apply Rmin_r. }
    destruct H as [-> | H]; [lra|].
    destruct y as [b | | |]; simpl; [| tauto | reflexivity | lra].
    f_equal. apply Rmin_left. lra.
  - now intros ->.
Qed.

Lemma amplifies_sexMult (b : number) (sx : string) :
  amplifies (mul b (Num 1)) (mul b (sexMult_of sx)).
Proof.
  unfold sexMult_of. case_bool_decide; [|apply amplifies_refl].
  assert (1001 / 1000 <= 1.26) as Hc by lra. pose proof (lit_ge_1 1.26 Hc) as Hlit. unfold lit.
  destruct b as [a | | |]; simpl; auto.
  - destruct (Rtotal_order a 0) as [Ha | [-> | Ha]].
    + destruct (fl_between_neg (a * 1) (a * fl 1.26)) as [E | E]; [nra | auto | auto].
    + left. apply fl_eq_0. lra.
    + destruct (fl_between (a * 1) (a * fl 1.26)) as [E | E]; [nra | auto | auto].
  - unfold Rsign. rewrite !decide_True by lra. reflexivity.
  - unfold Rsign. rewrite !decide_True by lra. reflexivity.
Qed.

(** The female point is capped wherever the male point is. *)
Lemma point_capped (s : State) (i : nat) :
  malePoint s i = Num 95 -> femalePoint s i = Num 95.
Proof.
  unfold malePoint, femalePoint, point. cbv zeta.
  apply amplifies_capped, amplifies_div_10, amplifies_round.
  do 3 apply amplifies_mul. apply amplifies_sexMult.
Qed.

(** X12.  For every input, when the male curve is capped at 95 at the middle
    time point, so is the female curve, [diffPct] is [0] and the dose is not
    reduced, whatever the sex: the reduction rule cannot trigger once the
    curves are capped. *)
Theorem clamped_curves_no_reduction (s : State) :
  maleCurve (computeRiskCurve s) !! 2%nat = Some (Num 95) ->
  femaleCurve (computeRiskCurve s) !! 2%nat = Some (Num 95) /\
  diffPct (computeRiskCurve s) = Num 0 /\
  Rec.dose (recommendation (computeRiskCurve s)) = Some (dose s).
Proof.
  intros Hm. apply maleCurve_lookup in Hm as [_ Hm]. symmetry in Hm.
  pose proof (point_capped s 2 Hm) as Hf.
  assert (diffPct (computeRiskCurve s) = Num 0) as Hg.
  { rewrite diffPct_points, Hf, Hm. apply gap_of_equal. }
  split; [|split].
  - rewrite femaleCurve_points. cbn [map lookup list_lookup]. now rewrite Hf.
  - exact Hg.
  - rewrite recommendation_unchanged; [reflexivity|].
    rewrite Hg, gt_0_15. apply andb_false_r.
Qed.

End FormulaMore.

(** * The stat tiles under the autoplay *)

Section Autoplay.
Implicit Types (d : Dom) (statEls dots : list nat).

Lemma contains_cycle statEls dots i x d :
  contains "active" x (cycleToNextStat statEls dots (Some i) d).2 <->
  statEls !! i = Some x \/ dots !! i = Some x \/
  ((x ∉ statEls) /\ (x ∉ dots) /\ contains "active" x d).
Proof.
  unfold cycleToNextStat. cbv zeta. cbn [snd mbind option_bind].
  destruct (statEls !! i) as [s|] eqn:Es; destruct (dots !! i) as [dot|] eqn:Ed;
    rewrite ?contains_add, !contains_forEach_remove; split; intros H;
    repeat match goal with
           | H : _ \/ _ |- _ => destruct H
           | H : Some _ = Some _ |- _ => injection H as ->
           | H : None = Some _ |- _ => discriminate
           | H : _ = _ |- _ => subst
           end; tauto.
Qed.

Lemma cycle_index statEls dots i d :
  statEls <> [] ->
  (cycleToNextStat statEls dots (Some i) d).1 = Some ((i + 1) mod length statEls)%nat.
Proof.
  intros H. unfold cycleToNextStat. cbv zeta. cbn [fst].
  rewrite decide_False; [reflexivity|]. destruct statEls; [congruence | discriminate].
Qed.

(** X13.  After [cycleToNextStat] has run with the index [i] of a tile, the
    tile and the dot of index [i] and no other tile or dot carry the class
    [active], and the index has moved to [(i + 1) % totalStats]. *)
Theorem cycle_activates_current statEls dots (i : nat) d :
  NoDup statEls -> NoDup dots ->
  (forall x, x ∈ statEls -> x ∉ dots) ->
  (i < length statEls)%nat ->
  let w := cycleToNextStat statEls dots (Some i) d in
  (forall j s, statEls !! j = Some s -> (contains "active" s w.2 <-> j = i)) /\
  (forall j dot, dots !! j = Some dot -> (contains "active" dot w.2 <-> j = i)) /\
  w.1 = Some ((i + 1) mod length statEls)%nat.
Proof.
  intros Hs Hd Hsd Hi. cbv zeta.
  destruct (lookup_lt_is_Some_2 statEls i Hi) as [s Es].
  split; [|split].
  - intros j x Ex. rewrite contains_cycle. split.
    + intros [E | [Ed | (Hn & _)]].
      * exact (NoDup_lookup statEls j i _ Hs Ex E).
      * exfalso. apply (Hsd x); eapply list_elem_of_lookup_2; eauto.
      * exfalso. apply Hn. eapply list_elem_of_lookup_2; eauto.
    + intros ->. now left.
  - intros j dot Ed. rewrite contains_cycle. split.
    + intros [E | [Ed' | (_ & Hn & _)]].
      * exfalso. apply (Hsd dot); eapply list_elem_of_lookup_2; eauto.
      * exact (NoDup_lookup dots j i _ Hd Ed Ed').
      * exfalso. apply Hn. eapply list_elem_of_lookup_2; eauto.
    + intros ->. right. now left.
  - apply cycle_index. intros ->. simpl in Hi. lia.
Qed.


Lemma ticks_snoc evs ev :
  ticks (evs ++ [ev]) = (ticks evs + (if decide (ev = Tick) then 1 else 0))%nat.
Proof.
  unfold ticks. rewrite filter_app, length_app. f_equal.
  rewrite filter_cons, filter_nil. now destruct (decide (ev = Tick)).
Qed.

Lemma tile_run_snoc statEls dots evs ev w :
  tile_run statEls dots (evs ++ [ev]) w =
  tile_step statEls dots (tile_run statEls dots evs w) ev.
Proof. unfold tile_run. now rewrite foldl_app. Qed.

Lemma tile_run_index statEls dots evs d :
  statEls <> [] ->
  (tile_run statEls dots evs (Some 0%nat, d)).1 = Some (ticks evs mod length statEls)%nat.
Proof.
  intros Hn. induction evs as [|ev evs IH] using rev_ind.
  - cbn. f_equal. symmetry. apply Nat.Div0.mod_0_l.
  - rewrite tile_run_snoc, ticks_snoc.
    destruct (tile_run statEls dots evs (Some 0%nat, d)) as [ix d'] eqn:E.
    cbn [fst] in IH. subst ix.
    destruct ev; cbn [tile_step fst snd].
    + rewrite cycle_index by exact Hn. rewrite decide_True by reflexivity.
      f_equal. apply Nat.Div0.add_mod_idemp_l.
    + rewrite decide_False by discriminate. now rewrite Nat.add_0_r.
    + rewrite decide_False by discriminate. now rewrite Nat.add_0_r.
Qed.

(** X14.  The autoplay keeps its own position: after any sequence of ticks,
    clicks and expiring timeouts, the next tick highlights the tile and the
    dot whose index is the number of ticks so far modulo the number of
    tiles, wherever the clicks went. *)
Theorem autoplay_ignores_clicks statEls dots (evs : list tile_event) d :
  NoDup statEls -> NoDup dots ->
  (forall x, x ∈ statEls -> x ∉ dots) ->
  statEls <> [] ->
  let n := length statEls in
  let w := tile_run statEls dots (evs ++ [Tick]) (Some 0%nat, d) in
  (forall j s, statEls !! j = Some s ->
     (contains "active" s w.2 <-> j = (ticks evs mod n)%nat)) /\
  (forall j dot, dots !! j = Some dot ->
     (contains "active" dot w.2 <-> j = (ticks evs mod n)%nat)) /\
  w.1 = Some ((ticks evs + 1) mod n)%nat.
Proof.
  intros Hs Hd Hsd Hn. cbv zeta. rewrite tile_run_snoc.
  pose proof (tile_run_index statEls dots evs d Hn) as Hi.
  destruct (tile_run statEls dots evs (Some 0%nat, d)) as [ix d'].
  cbn [fst] in Hi. subst ix. cbn [tile_step fst snd].
  set (i := (ticks evs mod length statEls)%nat).
  assert (i < length statEls)%nat as Hlt.
  { apply Nat.mod_upper_bound. intros E. apply Hn. now destruct statEls. }
  split; [|split].
  - intros j x Ex. rewrite contains_cycle. split.
    + intros [E | [Ed | (Hx & _)]].
      * exact (NoDup_lookup statEls j i _ Hs Ex E).
      * exfalso. apply (Hsd x); eapply list_elem_of_lookup_2; eauto.
      * exfalso. apply Hx. eapply list_elem_of_lookup_2; eauto.
    + intros ->. now left.
  - intros j dot Ed. rewrite contains_cycle. split.
    + intros [E | [Ed' | (_ & Hx & _)]].
      * exfalso. apply (Hsd dot); eapply list_elem_of_lookup_2; eauto.
      * exact (NoDup_lookup dots j i _ Hd Ed Ed').
      * exfalso. apply Hx. eapply list_elem_of_lookup_2; eauto.
    + intros ->. right. now left.
  - rewrite cycle_index by exact Hn. f_equal. apply Nat.Div0.add_mod_idemp_l.
Qed.

(** ** Without tiles *)

Lemma tile_run_index_empty dots evs d :
  (tile_run [] dots evs (Some 0%nat, d)).1 =
  if decide (ticks evs = 0%nat) then Some 0%nat else None.
Proof.
  induction evs as [|ev evs IH] using rev_ind; [reflexivity|].
  rewrite tile_run_snoc, ticks_snoc.
  destruct (tile_run [] dots evs (Some 0%nat, d)) as [ix d'].
  cbn [fst] in IH. subst ix.
  destruct ev; cbn [tile_step fst snd].
  - rewrite (decide_True (P := Tick = Tick)) by reflexivity.
    rewrite (decide_False (P := (ticks evs + 1 = 0)%nat)) by lia.
    unfold cycleToNextStat. cbv zeta. cbn [fst length].
    now destruct (decide (ticks evs = 0%nat)).
  - rewrite (decide_False (P := Click i = Tick)) by discriminate. now rewrite Nat.add_0_r.
  - rewrite (decide_False (P := Expire = Tick)) by discriminate. now rewrite Nat.add_0_r.
Qed.

(** X15.  On a page without stat tiles the index of the autoplay becomes
    [NaN] at the first tick ([% 0]), and from the second tick on no
    indicator dot is highlighted. *)
Theorem autoplay_without_tiles dots (evs : list tile_event) d :
  (0 < ticks evs)%nat ->
  let w := tile_run [] dots (evs ++ [Tick]) (Some 0%nat, d) in
  w.1 = None /\ forall dot, dot ∈ dots -> ~ contains "active" dot w.2.
Proof.
  intros Ht. cbv zeta. rewrite tile_run_snoc.
  pose proof (tile_run_index_empty dots evs d) as Hi.
  destruct (tile_run [] dots evs (Some 0%nat, d)) as [ix d'].
  cbn [fst] in Hi. rewrite decide_False in Hi by lia. subst ix.
  cbn [tile_step fst snd]. split; [reflexivity|].
  intros dot Hdot. unfold cycleToNextStat. cbv zeta. cbn [snd mbind option_bind].
  rewrite contains_forEach_remove. tauto.
Qed.

(** ** The timeouts of the clicks *)

Lemma effects_forEach_remove c (l : list nat) d :
  effects (forEach l (classList_remove c) d) = effects d.
Proof.
  unfold forEach. revert d. induction l as [|x l IH]; intros d; cbn [foldl]; [reflexivity|].
  now rewrite IH.
Qed.

Lemma effects_cycle statEls dots ix d :
  effects (cycleToNextStat statEls dots ix d).2 = effects d.
Proof.
  unfold cycleToNextStat. cbv zeta. cbn [snd].
  destruct (ix ≫= fun i => statEls !! i) as [s|];
    destruct (ix ≫= fun i => dots !! i) as [dot|];
    unfold effects; cbn [classList_add set_classList style_animation ripples timeouts];
    fold (effects (forEach dots (classList_remove "active")
                     (forEach statEls (classList_remove "active") d)));
    now rewrite !effects_forEach_remove.
Qed.

Lemma effects_stat_click statEls dots s i d :
  style_animation (stat_click statEls dots s i d) =
    <[s := "statClick 0.6s ease"]> (style_animation d) /\
  ripples (stat_click statEls dots s i d) = <[s := S (ripples d !!! s)]> (ripples d) /\
  timeouts (stat_click statEls dots s i d) =
    (timeouts d ++ [RemoveRipple s]) ++ [ClearAnimation s].
Proof.
  unfold stat_click. cbv zeta.
  set (d1 := forEach dots (classList_remove "active")
               (forEach statEls (classList_remove "active") d)).
  assert (effects d1 = effects d) as E1 by (unfold d1; now rewrite !effects_forEach_remove).
  set (d2 := match dots !! i with
             | Some dot => classList_add "active" dot (classList_add "active" s d1)
             | None => classList_add "active" s d1
             end).
  assert (effects d2 = effects d) as E2 by (unfold d2; now destruct (dots !! i)).
  unfold effects in E2. cbn [animate createRipple style_animation ripples timeouts].
  injection E2 as -> -> ->. auto.
Qed.

Lemma pending_ripples_app el a b :
  pending_ripples el (a ++ b) = (pending_ripples el a + pending_ripples el b)%nat.
Proof. unfold pending_ripples. now rewrite filter_app, length_app. Qed.

Lemma pending_ripples_cons el t ts :
  pending_ripples el (t :: ts) =
  ((if decide (t = RemoveRipple el) then 1 else 0) + pending_ripples el ts)%nat.
Proof.
  unfold pending_ripples. rewrite filter_cons.
  now destruct (decide (t = RemoveRipple el)).
Qed.

Lemma effects_eq d d' :
  effects d' = effects d ->
  style_animation d' = style_animation d /\ ripples d' = ripples d /\
  timeouts d' = timeouts d.
Proof. unfold effects. intros [= -> -> ->]. auto. Qed.

(** *** A click *)

Lemma click_ripples_accounted statEls dots i d0 d :
  ripples_accounted d0 d -> ripples_accounted d0 (click statEls dots i d).
Proof.
  intros H. unfold click. destruct (statEls !! i) as [s|]; [|exact H].
  destruct (effects_stat_click statEls dots s i d) as (_ & Er & Et).
  intros el. rewrite Er, Et, !pending_ripples_app, !pending_ripples_cons.
  unfold pending_ripples at 2 3. cbn [filter list_filter length].
  rewrite (decide_False (P := ClearAnimation s = RemoveRipple el)) by discriminate.
  destruct (decide (el = s)) as [-> | Hne].
  - rewrite lookup_total_insert_eq, decide_True by reflexivity. rewrite (H s). lia.
  - rewrite lookup_total_insert_ne by congruence.
    rewrite decide_False by congruence. rewrite (H el). lia.
Qed.

Lemma click_cleared statEls dots i d el :
  cleared_or_pending d el -> cleared_or_pending (click statEls dots i d) el.
Proof.
  intros H. unfold click. destruct (statEls !! i) as [s|]; [|exact H].
  destruct (effects_stat_click statEls dots s i d) as (Ea & _ & Et).
  unfold cleared_or_pending. rewrite Ea, Et.
  destruct (decide (el = s)) as [-> | Hne].
  - left. rewrite elem_of_app. right. apply list_elem_of_singleton. reflexivity.
  - rewrite lookup_insert_ne by congruence. destruct H as [H | H]; [left | now right].
    rewrite !elem_of_app. now left; left.
Qed.

Lemma click_clicked statEls dots i s d :
  statEls !! i = Some s -> cleared_or_pending (click statEls dots i d) s.
Proof.
  intros E. unfold click. rewrite E.
  destruct (effects_stat_click statEls dots s i d) as (_ & _ & Et).
  left. rewrite Et, elem_of_app. right.
  apply list_elem_of_singleton. reflexivity.
Qed.

Lemma click_untouched statEls dots i d el :
  (forall s, statEls !! i = Some s -> s <> el) ->
  style_animation (click statEls dots i d) !! el = style_animation d !! el.
Proof.
  intros H. unfold click. destruct (statEls !! i) as [s|] eqn:E; [|reflexivity].
  destruct (effects_stat_click statEls dots s i d) as (Ea & _ & _).
  rewrite Ea. apply lookup_insert_ne. now apply H.
Qed.

Lemma click_animation_accounted statEls dots i d0 d :
  animation_accounted d0 d -> animation_accounted d0 (click statEls dots i d).
Proof.
  intros H el. destruct (statEls !! i) as [s|] eqn:E.
  - destruct (decide (s = el)) as [-> | Hne].
    + left. now apply (click_clicked statEls dots i).
    + destruct (H el) as [Hc | Hu].
      * left. now apply click_cleared.
      * right. rewrite click_untouched; [exact Hu|]. intros s' Es'. congruence.
  - unfold click. rewrite E. apply H.
Qed.

(** *** An expiry *)

Lemma expire_ripples_accounted d0 d :
  ripples_accounted d0 d -> ripples_accounted d0 (expire d).
Proof.
  intros H. unfold expire. destruct (timeouts d) as [|t rest] eqn:Et; [exact H|].
  intros el. specialize (H el). rewrite Et, pending_ripples_cons in H.
  destruct t as [el0 | el0]; cbn [run_timeout ripples timeouts].
  - destruct (decide (el = el0)) as [-> | Hne].
    + rewrite lookup_total_insert_eq. rewrite decide_True in H by reflexivity. lia.
    + rewrite lookup_total_insert_ne by congruence.
      rewrite decide_False in H by congruence. lia.
  - rewrite decide_False in H by discriminate. lia.
Qed.

Lemma expire_cleared d el :
  cleared_or_pending d el -> cleared_or_pending (expire d) el.
Proof.
  unfold cleared_or_pending, expire.
  destruct (timeouts d) as [|t rest] eqn:Et; [rewrite Et; tauto|].
  intros [H | H].
  - apply elem_of_cons in H as [<- | H].
    + right. cbn [run_timeout style_animation]. apply lookup_insert_eq.
    + left. now destruct t.
  - destruct t as [el0 | el0]; cbn [run_timeout style_animation timeouts]; [now right|].
    right. destruct (decide (el = el0)) as [-> | Hne].
    + apply lookup_insert_eq.
    + now rewrite lookup_insert_ne by congruence.
Qed.

Lemma expire_animation_accounted d0 d :
  animation_accounted d0 d -> animation_accounted d0 (expire d).
Proof.
  intros H el. destruct (H el) as [Hc | Hu]; [left; now apply expire_cleared|].
  unfold expire. destruct (timeouts d) as [|t rest] eqn:Et; [now right|].
  destruct t as [el0 | el0]; cbn [run_timeout].
  - now right.
  - destruct (decide (el = el0)) as [-> | Hne].
    + left. right. cbn [style_animation]. apply lookup_insert_eq.
    + right. cbn [style_animation]. now rewrite lookup_insert_ne by congruence.
Qed.

Lemma expire_classList d : classList (expire d) = classList d.
Proof. unfold expire. destruct (timeouts d) as [|[el|el] rest]; reflexivity. Qed.

Lemma expire_timeouts d : timeouts (expire d) = tail (timeouts d).
Proof. unfold expire. destruct (timeouts d) as [|[el|el] rest] eqn:E; auto. Qed.

Lemma expire_n_spec d0 n d :
  length (timeouts d) = n ->
  timeouts (expire_n n d) = [] /\
  classList (expire_n n d) = classList d /\
  (ripples_accounted d0 d -> ripples_accounted d0 (expire_n n d)) /\
  (animation_accounted d0 d -> animation_accounted d0 (expire_n n d)) /\
  (forall el, cleared_or_pending d el -> cleared_or_pending (expire_n n d) el).
Proof.
  revert d. induction n as [|n IH]; intros d Hn; cbn [expire_n].
  - split; [now apply length_zero_iff_nil|]. auto.
  - destruct (IH (expire d)) as (H1 & H2 & H3 & H4 & H5).
    { rewrite expire_timeouts. destruct (timeouts d); simpl in *; lia. }
    split; [exact H1|]. split; [now rewrite H2, expire_classList|].
    split; [|split].
    + intros H. now apply H3, expire_ripples_accounted.
    + intros H. now apply H4, expire_animation_accounted.
    + intros el H. now apply H5, expire_cleared.
Qed.

(** *** A run of events *)

Lemma tile_step_accounted statEls dots d0 w ev :
  ripples_accounted d0 w.2 /\ animation_accounted d0 w.2 ->
  ripples_accounted d0 (tile_step statEls dots w ev).2 /\
  animation_accounted d0 (tile_step statEls dots w ev).2.
Proof.
  intros [Hr Ha]. destruct ev; cbn [tile_step snd].
  - destruct (effects_eq _ _ (effects_cycle statEls dots w.1 w.2)) as (Ea & Er & Et).
    split.
    + intros el. rewrite Er, Et. apply Hr.
    + intros el. unfold cleared_or_pending. rewrite Ea, Et. apply Ha.
  - split; [now apply click_ripples_accounted | now apply click_animation_accounted].
  - split; [now apply expire_ripples_accounted | now apply expire_animation_accounted].
Qed.

Lemma tile_step_cleared statEls dots w ev el :
  cleared_or_pending w.2 el -> cleared_or_pending (tile_step statEls dots w ev).2 el.
Proof.
  intros H. destruct ev; cbn [tile_step snd].
  - destruct (effects_eq _ _ (effects_cycle statEls dots w.1 w.2)) as (Ea & Er & Et).
    unfold cleared_or_pending. rewrite Ea, Et. exact H.
  - now apply click_cleared.
  - now apply expire_cleared.
Qed.

Lemma tile_run_accounted statEls dots evs ix d0 :
  timeouts d0 = [] ->
  let d := (tile_run statEls dots evs (ix, d0)).2 in
  ripples_accounted d0 d /\ animation_accounted d0 d /\
  (forall i s, Click i ∈ evs -> statEls !! i = Some s -> cleared_or_pending d s).
Proof.
  intros H0. cbv zeta. induction evs as [|ev evs IH] using rev_ind.
  - cbn. split; [|split].
    + intros el. rewrite H0. cbn. lia.
    + intros el. now right.
    + intros i s Hin. now apply elem_of_nil in Hin.
  - rewrite tile_run_snoc. destruct IH as (Hr & Ha & Hc).
    destruct (tile_step_accounted statEls dots d0 _ ev (conj Hr Ha)) as [Hr' Ha'].
    split; [exact Hr'|]. split; [exact Ha'|].
    intros i s Hin Es. apply elem_of_app in Hin as [Hin | Hin].
    + apply tile_step_cleared. now apply (Hc i).
    + apply list_elem_of_singleton in Hin as <-. cbn [tile_step snd].
      now apply (click_clicked statEls dots i).
Qed.

(** X16.  When all the timeouts set by the clicks on the tiles have expired,
    none is pending any more, every element has the ripples it had at the
    start, every tile that was clicked has an empty inline animation (and
    every other element an empty one or the one it had), and the classes are
    what the last click or tick left. *)
Theorem clicks_leave_no_trace statEls dots (evs : list tile_event) ix d0 :
  timeouts d0 = [] ->
  let d := (tile_run statEls dots evs (ix, d0)).2 in
  let d' := expire_all d in
  timeouts d' = [] /\
  classList d' = classList d /\
  (forall el, ripples d' !!! el = ripples d0 !!! el) /\
  (forall el, style_animation d' !! el = Some "" \/
              style_animation d' !! el = style_animation d0 !! el) /\
  (forall i s, Click i ∈ evs -> statEls !! i = Some s ->
     style_animation d' !! s = Some "").
Proof.
  intros H0. cbv zeta.
  destruct (tile_run_accounted statEls dots evs ix d0 H0) as (Hr & Ha & Hc).
  set (d := (tile_run statEls dots evs (ix, d0)).2) in *.
  destruct (expire_n_spec d0 (length (timeouts d)) d eq_refl) as (H1 & H2 & H3 & H4 & H5).
  fold (expire_all d) in H1, H2, H3, H4, H5.
  split; [exact H1|]. split; [exact H2|]. split; [|split].
  - intros el. rewrite (H3 Hr el), H1. cbn. lia.
  - intros el. destruct (H4 Ha el) as [[Hin | Hs] | Hu]; [|now left | now right].
    rewrite H1 in Hin. now apply elem_of_nil in Hin.
  - intros i s Hin Es. destruct (H5 s (Hc i s Hin Es)) as [Hin' | Hs]; [|exact Hs].
    rewrite H1 in Hin'. now apply elem_of_nil in Hin'.
Qed.

End Autoplay.

(** * The start button *)

Section Button.
Implicit Types (c : Cta) (q : list (nat * cta_callback)) (f : cta_callback).

Lemma elem_of_schedule x due f q :
  x ∈ schedule due f q <-> x = (due, f) \/ x ∈ q.
Proof.
  induction q as [|[d' f'] q IH]; cbn [schedule].
  - rewrite list_elem_of_singleton, elem_of_nil. tauto.
  - destruct (d' <=? due)%nat.
    + rewrite !elem_of_cons, IH. tauto.
    + rewrite !elem_of_cons. tauto.
Qed.

Lemma schedule_sorted due f q :
  StronglySorted by_due q -> StronglySorted by_due (schedule due f q).
Proof.
  induction 1 as [|[d' f'] q Hq IH Hall]; cbn [schedule].
  - repeat constructor.
  - destruct (Nat.leb_spec d' due) as [Hle | Hlt].
    + constructor; [exact IH|]. apply Forall_forall. intros x Hx.
      apply elem_of_schedule in Hx as [-> | Hx]; [exact Hle|].
      exact (proj1 (Forall_forall _ _) Hall x Hx).
    + constructor; [now constructor|]. constructor; [unfold by_due; simpl; lia|].
      eapply Forall_impl; [exact Hall|]. unfold by_due. simpl. intros; lia.
Qed.

Lemma last_of_schedule_none sel due f q :
  sel f = None -> last_of sel (schedule due f q) = last_of sel q.
Proof.
  intros Hf. induction q as [|[d' f'] q IH]; cbn [schedule last_of].
  - exact Hf.
  - destruct (d' <=? due)%nat; cbn [last_of]; [now rewrite IH|].
    destruct (last_of sel q); [reflexivity|]. destruct (sel f'); [reflexivity | exact Hf].
Qed.

Lemma last_of_none sel q :
  (forall d g, (d, g) ∈ q -> sel g = None) -> last_of sel q = None.
Proof.
  induction q as [|[d' f'] q IH]; intros H; cbn [last_of]; [reflexivity|].
  rewrite IH; [apply (H d'); now left|]. intros d g Hin. apply (H d). now right.
Qed.

Lemma last_of_schedule_some sel due f o q :
  sel f = Some o -> StronglySorted by_due q ->
  (forall d g, (d, g) ∈ q -> is_Some (sel g) -> (d <= due)%nat) ->
  last_of sel (schedule due f q) = Some o.
Proof.
  intros Hf Hs. induction Hs as [|[d' f'] q Hq IH Hall]; intros Hb; cbn [schedule last_of].
  - exact Hf.
  - destruct (Nat.leb_spec d' due) as [Hle | Hlt]; cbn [last_of].
    + rewrite IH; [reflexivity|]. intros d g Hin. apply Hb. now right.
    + assert (last_of sel q = None) as ->.
      { apply last_of_none. intros d g Hin.
        destruct (sel g) eqn:E; [|reflexivity]. exfalso.
        assert (d <= due)%nat by (apply (Hb d g); [now right | rewrite E; eauto]).
        pose proof (proj1 (Forall_forall _ _) Hall _ Hin) as Hd. unfold by_due in Hd.
        simpl in Hd. lia. }
      destruct (sel f') eqn:E; [|exact Hf]. exfalso.
      assert (d' <= due)%nat by (apply (Hb d' f'); [now left | rewrite E; eauto]). lia.
Qed.

Lemma last_of_is_Some sel q o :
  last_of sel q = Some o -> exists d g, (d, g) ∈ q /\ sel g = Some o.
Proof.
  induction q as [|[d' f'] q IH]; cbn [last_of]; [discriminate|].
  destruct (last_of sel q) as [o'|].
  - intros [= ->]. destruct (IH eq_refl) as (d & g & Hin & Hg).
    exists d, g. split; [now right | exact Hg].
  - intros Hf. exists d', f'. split; [now left | exact Hf].
Qed.

(** *** The title that will stay *)

Lemma cta_fire_final_title c :
  cta_order (cta_timers c) -> final_title (cta_fire c) = final_title c.
Proof.
  intros [Hs H2]. unfold cta_fire, final_title.
  destruct (cta_timers c) as [|[due f] rest] eqn:Eq; [now rewrite Eq|].
  apply StronglySorted_inv in Hs as [Hs Hall].
  destruct f as [| |o|o]; cbn [cta_call cta_setTimeout cta_timers cta_title last_of started restored].
  - now destruct (last_of started rest), (last_of restored rest).
  - now destruct (last_of started rest), (last_of restored rest).
  - rewrite last_of_schedule_none by reflexivity.
    destruct (last_of started rest) as [o'|] eqn:E; [reflexivity|].
    rewrite (last_of_schedule_some restored _ _ o); [reflexivity | reflexivity | exact Hs |].
    intros d g Hin [o' Ho']. destruct g; try discriminate.
    apply (H2 due o d originalText); [now left | now right].
  - destruct (last_of started rest); [reflexivity|].
    now destruct (last_of restored rest).
Qed.

Lemma cta_order_tail x q : cta_order (x :: q) -> cta_order q.
Proof.
  intros [Hs H2]. apply StronglySorted_inv in Hs as [Hs _]. split; [exact Hs|].
  intros d o d' o' Hin Hin'. apply (H2 d o d' o'); now right.
Qed.

Lemma cta_fire_order c : cta_order (cta_timers c) -> cta_order (cta_timers (cta_fire c)).
Proof.
  intros H. unfold cta_fire.
  destruct (cta_timers c) as [|[due f] rest] eqn:Eq; [now rewrite Eq|].
  pose proof (cta_order_tail _ _ H) as [Hs' H2'].
  destruct H as [Hs H2]. apply StronglySorted_inv in Hs as [_ Hall].
  destruct f as [| |o|o]; cbn [cta_call cta_setTimeout cta_timers]; try (split; assumption).
  split; [now apply schedule_sorted|].
  intros d o1 d' o' Hin Hin'.
  apply elem_of_schedule in Hin as [[=] | Hin].
  apply elem_of_schedule in Hin' as [[= -> ->] | Hin'].
  - pose proof (proj1 (Forall_forall _ _) Hall _ Hin) as Hd. unfold by_due in Hd.
    simpl in Hd. lia.
  - now apply (H2' d o1 d' o').
Qed.

Lemma cta_fire_sorted c :
  StronglySorted by_due (cta_timers c) -> StronglySorted by_due (cta_timers (cta_fire c)).
Proof.
  intros Hs. unfold cta_fire.
  destruct (cta_timers c) as [|[due f] rest] eqn:Eq; [now rewrite Eq|].
  apply StronglySorted_inv in Hs as [Hs _].
  destruct f; cbn [cta_call cta_setTimeout cta_timers]; try exact Hs.
  now apply schedule_sorted.
Qed.

Lemma cta_fire_inv T c :
  cta_inv T (cta_timers c) ->
  (forall due f rest, cta_timers c = (due, f) :: rest -> (due <= T)%nat) ->
  cta_inv T (cta_timers (cta_fire c)).
Proof.
  intros (Ho & H4 & H3) Hdue. split; [now apply cta_fire_order|].
  unfold cta_fire.
  destruct (cta_timers c) as [|[due f] rest] eqn:Eq; [rewrite Eq; now split|].
  specialize (Hdue due f rest eq_refl).
  assert ((forall d o, (d, CtaStarted o) ∈ rest -> (d <= T + 1000)%nat) /\
          (forall d o, (d, CtaRestore o) ∈ rest -> (d <= T + 2000)%nat)) as [H4' H3'].
  { split; intros d o Hin; [apply (H4 d o) | apply (H3 d o)]; now right. }
  destruct f as [| |o|o]; cbn [cta_call cta_setTimeout cta_timers]; try (split; assumption).
  split.
  - intros d o' Hin. apply elem_of_schedule in Hin as [[=] | Hin]. now apply (H4' d o').
  - intros d o' Hin. apply elem_of_schedule in Hin as [[= -> ->] | Hin]; [lia|].
    now apply (H3' d o').
Qed.

Lemma cta_inv_mono T T' q : (T <= T')%nat -> cta_inv T q -> cta_inv T' q.
Proof.
  intros Hle (Ho & H4 & H3). split; [exact Ho|]. split.
  - intros d o Hin. specialize (H4 d o Hin). lia.
  - intros d o Hin. specialize (H3 d o Hin). lia.
Qed.

Lemma cta_advance_n_spec n t T c :
  (T <= t)%nat -> cta_inv T (cta_timers c) ->
  cta_inv t (cta_timers (cta_advance_n n t c)) /\
  final_title (cta_advance_n n t c) = final_title c.
Proof.
  intros Hle H. apply (cta_inv_mono T t) in H; [|exact Hle]. clear Hle T.
  revert c H. induction n as [|n IH]; intros c H; cbn [cta_advance_n]; [now split|].
  destruct (cta_timers c) as [|[due f] rest] eqn:Eq; rewrite <- Eq in H; [now split|].
  destruct (Nat.leb_spec due t) as [Hd | Hd]; [|now split].
  destruct (IH (cta_fire c)) as [H1 H2].
  - apply cta_fire_inv; [exact H|]. intros due' f' rest' E. rewrite Eq in E.
    injection E as -> _ _. exact Hd.
  - split; [exact H1|]. rewrite H2. apply cta_fire_final_title; apply H.
Qed.

Lemma cta_click_timers t c :
  cta_timers (cta_click t c) =
  schedule (t + 1000) (CtaStarted (cta_title c))
    (schedule (t + 1000) CtaClearAnimation
       (schedule (t + 600) CtaRemoveRipple (cta_timers c))).
Proof. reflexivity. Qed.

Lemma cta_click_inv t c :
  cta_inv t (cta_timers c) -> cta_inv t (cta_timers (cta_click t c)).
Proof.
  intros ((Hs & H2) & H4 & H3). rewrite cta_click_timers.
  split; [split|split].
  - now repeat apply schedule_sorted.
  - intros d o d' o' Hin Hin'.
    repeat (apply elem_of_schedule in Hin' as [[=] | Hin']).
    specialize (H3 d' o' Hin').
    repeat (apply elem_of_schedule in Hin as [[=] | Hin]); subst; [lia|].
    now apply (H2 d o d' o').
  - intros d o Hin. repeat (apply elem_of_schedule in Hin as [[=] | Hin]); subst; [lia|].
    now apply (H4 d o).
  - intros d o Hin. repeat (apply elem_of_schedule in Hin as [[=] | Hin]).
    now apply (H3 d o).
Qed.

Lemma cta_click_final_title t c :
  cta_inv t (cta_timers c) -> final_title (cta_click t c) = cta_title c.
Proof.
  intros ((Hs & _) & H4 & _). unfold final_title. rewrite cta_click_timers.
  rewrite (last_of_schedule_some started _ _ (cta_title c)); [reflexivity | reflexivity | |].
  - now repeat apply schedule_sorted.
  - intros d g Hin [o Ho]. destruct g; try discriminate.
    repeat (apply elem_of_schedule in Hin as [[=] | Hin]).
    now apply (H4 d originalText).
Qed.

(** *** The timeouts run out *)

Lemma cta_pending_schedule due f q :
  cta_pending (schedule due f q) =
  (match f with CtaStarted _ => 2 | _ => 1 end + cta_pending q)%nat.
Proof.
  induction q as [|[d' f'] q IH]; cbn [schedule]; [reflexivity|].
  destruct (d' <=? due)%nat; [|reflexivity].
  cbn [cta_pending foldr snd]. fold (cta_pending (schedule due f q)). rewrite IH.
  fold (cta_pending q). lia.
Qed.

Lemma cta_pending_fire c n :
  cta_pending (cta_timers c) = S n -> cta_pending (cta_timers (cta_fire c)) = n.
Proof.
  unfold cta_fire. destruct (cta_timers c) as [|[due f] rest]; [discriminate|].
  cbn [cta_pending foldr snd]. fold (cta_pending rest).
  destruct f; cbn [cta_call cta_setTimeout cta_timers]; rewrite ?cta_pending_schedule; lia.
Qed.

Lemma cta_pending_0 q : cta_pending q = 0%nat -> q = [].
Proof.
  destruct q as [|[d f] q]; [reflexivity|]. cbn [cta_pending foldr snd].
  destruct f; discriminate.
Qed.

Lemma cta_fire_n_spec n c :
  cta_pending (cta_timers c) = n -> cta_order (cta_timers c) ->
  cta_timers (cta_fire_n n c) = [] /\ cta_title (cta_fire_n n c) = final_title c.
Proof.
  revert c. induction n as [|n IH]; intros c Hn Ho; cbn [cta_fire_n].
  - apply cta_pending_0 in Hn. split; [exact Hn|]. unfold final_title. now rewrite Hn.
  - destruct (IH (cta_fire c)) as [H1 H2].
    + now apply cta_pending_fire.
    + now apply cta_fire_order.
    + split; [exact H1|]. rewrite H2. now apply cta_fire_final_title.
Qed.

(** After the time has passed until [t], what is pending is due later. *)
Lemma cta_advance_n_due n t c :
  (cta_pending (cta_timers c) <= n)%nat -> StronglySorted by_due (cta_timers c) ->
  forall x, x ∈ cta_timers (cta_advance_n n t c) -> (t < x.1)%nat.
Proof.
  revert c. induction n as [|n IH]; intros c Hn Hs; cbn [cta_advance_n].
  - assert (cta_timers c = []) as -> by (apply cta_pending_0; lia).
    intros x Hx. now apply elem_of_nil in Hx.
  - destruct (cta_timers c) as [|[due f] rest] eqn:Eq.
    + rewrite Eq. intros x Hx. now apply elem_of_nil in Hx.
    + destruct (Nat.leb_spec due t) as [Hd | Hd].
      * rewrite <- Eq in Hn, Hs. apply IH; [|now apply cta_fire_sorted].
        destruct (cta_pending (cta_timers c)) as [|m] eqn:Em.
        -- apply cta_pending_0 in Em. congruence.
        -- rewrite (cta_pending_fire c m Em). lia.
      * rewrite Eq. intros x Hx. apply elem_of_cons in Hx as [-> | Hx]; [exact Hd|].
        apply StronglySorted_inv in Hs as [_ Hall].
        pose proof (proj1 (Forall_forall _ _) Hall _ Hx) as Hx'. unfold by_due in Hx'.
        simpl in Hx'. lia.
Qed.

(** *** The ripples and the animation *)

Lemma cta_ripples_pending_schedule due f q :
  cta_ripples_pending (schedule due f q) =
  ((if decide (f = CtaRemoveRipple) then 1 else 0) + cta_ripples_pending q)%nat.
Proof.
  unfold cta_ripples_pending.
  induction q as [|[d' f'] q IH]; cbn [schedule].
  - rewrite filter_cons, filter_nil. cbn [snd]. now destruct (decide (f = CtaRemoveRipple)).
  - destruct (d' <=? due)%nat.
    + rewrite !(filter_cons _ (d', f')). cbn [snd].
      destruct (decide (f' = CtaRemoveRipple)); cbn [length]; rewrite IH; lia.
    + rewrite (filter_cons _ (due, f)). cbn [snd].
      now destruct (decide (f = CtaRemoveRipple)).
Qed.

Lemma cta_fire_ripples_ok r0 c : cta_ripples_ok r0 c -> cta_ripples_ok r0 (cta_fire c).
Proof.
  unfold cta_ripples_ok, cta_fire.
  destruct (cta_timers c) as [|[due f] rest] eqn:Eq; [now rewrite Eq|].
  unfold cta_ripples_pending at 1. rewrite filter_cons. cbn [snd].
  destruct f; cbn [cta_call cta_setTimeout cta_timers cta_ripples];
    rewrite ?cta_ripples_pending_schedule;
    repeat match goal with
           | |- context [decide (?a = ?b)] =>
               first [rewrite (decide_True (P := a = b)) by reflexivity
                     | rewrite (decide_False (P := a = b)) by discriminate]
           end; cbn [length]; unfold cta_ripples_pending; lia.
Qed.

Lemma cta_click_ripples_ok r0 t c : cta_ripples_ok r0 c -> cta_ripples_ok r0 (cta_click t c).
Proof.
  unfold cta_ripples_ok. rewrite cta_click_timers, !cta_ripples_pending_schedule.
  rewrite (decide_False (P := CtaStarted _ = _)) by discriminate.
  rewrite (decide_False (P := CtaClearAnimation = _)) by discriminate.
  rewrite (decide_True (P := CtaRemoveRipple = _)) by reflexivity.
  cbn [cta_click cta_setTimeout cta_ripples]. lia.
Qed.

Lemma cta_fire_animation_ok c : cta_animation_ok c -> cta_animation_ok (cta_fire c).
Proof.
  unfold cta_animation_ok, cta_fire.
  destruct (cta_timers c) as [|[due f] rest] eqn:Eq; [now rewrite Eq|].
  intros [[d Hin] | Ha].
  - apply elem_of_cons in Hin as [[= <- <-] | Hin]; [now right|].
    left. exists d. destruct f; cbn [cta_call cta_setTimeout cta_timers]; try exact Hin.
    apply elem_of_schedule. now right.
  - destruct f; cbn [cta_call cta_setTimeout cta_timers cta_animation]; now right.
Qed.

Lemma cta_click_animation_ok t c : cta_animation_ok (cta_click t c).
Proof.
  left. exists (t + 1000)%nat. rewrite cta_click_timers.
  apply elem_of_schedule. right. apply elem_of_schedule. now left.
Qed.

Lemma cta_advance_n_preserves (Q : Cta -> Prop) n t c :
  (forall c, Q c -> Q (cta_fire c)) -> Q c -> Q (cta_advance_n n t c).
Proof.
  intros HQ. revert c. induction n as [|n IH]; intros c H; cbn [cta_advance_n]; [exact H|].
  destruct (cta_timers c) as [|[due f] rest]; [exact H|].
  destruct (due <=? t)%nat; [|exact H]. apply IH, HQ, H.
Qed.

Lemma cta_fire_n_preserves (Q : Cta -> Prop) n c :
  (forall c, Q c -> Q (cta_fire c)) -> Q c -> Q (cta_fire_n n c).
Proof.
  intros HQ. revert c. induction n as [|n IH]; intros c H; cbn [cta_fire_n]; [exact H|].
  apply IH, HQ, H.
Qed.

(** *** A run of clicks *)

Lemma cta_clicks_spec r0 ts :
  forall T c,
    cta_inv T (cta_timers c) -> cta_ripples_ok r0 c ->
    Forall (le T) ts -> StronglySorted le ts ->
    forall T', (T <= T')%nat -> Forall (fun x => (x <= T')%nat) ts ->
      cta_inv T' (cta_timers (cta_clicks ts c)) /\ cta_ripples_ok r0 (cta_clicks ts c).
Proof.
  induction ts as [|x ts IH]; intros T c Hi Hr Hge Hs T' HT Hle; cbn [cta_clicks foldl].
  - split; [now apply (cta_inv_mono T) | exact Hr].
  - apply Forall_cons in Hge as [Hx Hge]. apply Forall_cons in Hle as [Hx' Hle].
    apply StronglySorted_inv in Hs as [Hs Hall].
    apply (IH x); try assumption.
    + apply cta_click_inv. now apply (cta_advance_n_spec _ x T).
    + apply cta_click_ripples_ok.
      apply (cta_advance_n_preserves (cta_ripples_ok r0)); [|exact Hr].
      intros c'. apply cta_fire_ripples_ok.
Qed.

Lemma cta_inv_idle T : cta_inv T [].
Proof.
  split; [split; [constructor|]|split]; intros; exfalso; eapply elem_of_nil; eauto.
Qed.

Lemma cta_settle_click t c :
  cta_inv t (cta_timers c) ->
  let after := cta_settle (cta_click t c) in
  cta_timers after = [] /\ cta_title after = cta_title c /\ cta_animation after = "".
Proof.
  intros Hi. cbv zeta. unfold cta_settle.
  destruct (cta_fire_n_spec _ (cta_click t c) eq_refl) as [H1 H2].
  { apply cta_click_inv, Hi. }
  split; [exact H1|]. split; [now rewrite H2, cta_click_final_title|].
  destruct (cta_fire_n_preserves cta_animation_ok
              (cta_pending (cta_timers (cta_click t c))) (cta_click t c)
              cta_fire_animation_ok (cta_click_animation_ok t c)) as [[d Hin] | Ha];
    [|exact Ha].
  rewrite H1 in Hin. now apply elem_of_nil in Hin.
Qed.

(** X17.  After any sequence of clicks on the start button, once all the
    timeouts have run, the title of the button is the text it showed at the
    moment of the last click (the button's own text only if it was showing
    then), the inline animation is empty, no ripple is left and no timeout
    is pending. *)
Theorem cta_title_after_clicks (ts : list nat) (t : nat) c :
  cta_timers c = [] ->
  StronglySorted le (ts ++ [t]) ->
  let before := cta_advance t (cta_clicks ts c) in
  let after := cta_settle (cta_click t before) in
  cta_timers after = [] /\
  cta_title after = cta_title before /\
  cta_animation after = "" /\
  cta_ripples after = cta_ripples c.
Proof.
  intros Hidle Hs. cbv zeta.
  assert (cta_inv 0 (cta_timers c)) as Hi by (rewrite Hidle; apply cta_inv_idle).
  assert (cta_ripples_ok (cta_ripples c) c) as Hr.
  { unfold cta_ripples_ok. rewrite Hidle. cbn. lia. }
  destruct (cta_clicks_spec (cta_ripples c) ts 0 c Hi Hr) with (T' := t) as [Hi' Hr'].
  - apply Forall_forall. intros; lia.
  - exact (StronglySorted_app_1_l le ts [t] Hs).
  - lia.
  - apply Forall_forall. intros x Hx.
    apply (StronglySorted_app_1_elem_of le ts [t] x t Hs Hx). now left.
  - set (c1 := cta_clicks ts c) in *.
    destruct (cta_advance_n_spec (cta_pending (cta_timers c1)) t t c1 (le_n t) Hi')
      as [Hb _].
    fold (cta_advance t c1) in Hb.
    destruct (cta_settle_click t (cta_advance t c1) Hb) as (H1 & H2 & H3).
    split; [exact H1|]. split; [exact H2|]. split; [exact H3|].
    assert (cta_ripples_ok (cta_ripples c) (cta_settle (cta_click t (cta_advance t c1)))) as H.
    { unfold cta_settle.
      apply (cta_fire_n_preserves (cta_ripples_ok (cta_ripples c)));
        [intros c'; apply cta_fire_ripples_ok|].
      apply cta_click_ripples_ok.
      apply (cta_advance_n_preserves (cta_ripples_ok (cta_ripples c))); [|exact Hr'].
      intros c'. apply cta_fire_ripples_ok. }
    unfold cta_ripples_ok in H. rewrite H, H1. cbn. lia.
Qed.

Lemma cta_click_idle t title animation ripples0 :
  cta_click t {| cta_title := title; cta_animation := animation;
                 cta_ripples := ripples0; cta_timers := [] |} =
  {| cta_title := "Loading..."; cta_animation := "statBounce 1s ease";
     cta_ripples := S ripples0;
     cta_timers := [((t + 600)%nat, CtaRemoveRipple); ((t + 1000)%nat, CtaClearAnimation);
                    ((t + 1000)%nat, CtaStarted title)] |}.
Proof.
  unfold cta_click, cta_setTimeout. cbn [cta_timers cta_title cta_animation cta_ripples schedule].
  assert ((t + 600 <=? t + 1000)%nat = true) as E by (apply Nat.leb_le; lia).
  repeat (rewrite ?E, ?Nat.leb_refl; cbn [schedule]). reflexivity.
Qed.

(** With timeouts that run exactly when they are due, a timeout due at
    the time of a click running before it: two clicks on the idle button,
    at [t1] and at [t2], leave the title ["Loading..."] when the second
    comes less than 1 s after the first, ["✓ Started!"] when it comes at
    least 1 s and less than 3 s after it, and the button's own text
    otherwise. *)
Lemma cta_second_click_on_time (t1 t2 : nat) c :
  cta_timers c = [] -> (t1 <= t2)%nat ->
  cta_title (cta_settle (cta_clicks [t1; t2] c)) =
    if (t2 <? t1 + 1000)%nat then "Loading..."
    else if (t2 <? t1 + 3000)%nat then "✓ Started!"
    else cta_title c.
Proof.
  intros Hidle Hle. destruct c as [title animation ripples0 timers0].
  cbn [cta_timers] in Hidle. subst timers0. cbn [cta_title].
  cbn [cta_clicks foldl]. change (cta_advance t1 _) with
    {| cta_title := title; cta_animation := animation; cta_ripples := ripples0;
       cta_timers := [] |}.
  set (c1 := cta_click t1 _).
  assert (cta_inv t2 (cta_timers (cta_advance t2 c1))) as Hi.
  { apply (cta_advance_n_spec _ t2 t1 c1 Hle). apply cta_click_inv, cta_inv_idle. }
  destruct (cta_settle_click t2 _ Hi) as (_ & -> & _).
  unfold c1. rewrite cta_click_idle. unfold cta_advance.
  cbn [cta_timers cta_pending foldr snd Nat.add cta_advance_n].
  destruct (Nat.ltb_spec t2 (t1 + 1000)) as [H1 | H1];
    [|destruct (Nat.ltb_spec t2 (t1 + 3000)) as [H2 | H2]];
    repeat match goal with
           | |- context [(?a <=? ?b)%nat] =>
               destruct (Nat.leb_spec a b); try (exfalso; lia);
               cbn [cta_fire cta_call cta_setTimeout cta_timers cta_title cta_animation
                    cta_ripples schedule cta_advance_n]
           end; reflexivity.
Qed.

End Button.

(** * The start button with late timeouts *)

Section LateButton.
Implicit Types (c : Cta) (q : list (nat * cta_callback)) (f : cta_callback).

Lemma cta_inv_late_mono T T' q : (T <= T')%nat -> cta_inv_late T q -> cta_inv_late T' q.
Proof.
  intros Hle (Hs & H4 & H3). split; [exact Hs|]. split.
  - intros d o Hin. specialize (H4 d o Hin). lia.
  - intros d o Hin. specialize (H3 d o Hin). lia.
Qed.

Lemma cta_inv_late_idle T : cta_inv_late T [].
Proof.
  split; [constructor|]. split; intros d o Hin; now apply elem_of_nil in Hin.
Qed.

Lemma cta_inv_late_tail T x q : cta_inv_late T (x :: q) -> cta_inv_late T q.
Proof.
  intros (Hs & H4 & H3). apply StronglySorted_inv in Hs as [Hs _].
  split; [exact Hs|]. split; intros d o Hin; [apply (H4 d o) | apply (H3 d o)]; now right.
Qed.

Lemma cta_run_inv now T c :
  cta_inv_late T (cta_timers c) -> (T <= now)%nat ->
  cta_inv_late now (cta_timers (cta_run now c)).
Proof.
  intros H Hle. apply (cta_inv_late_mono T now) in H; [|exact Hle].
  unfold cta_run. destruct (cta_timers c) as [|[due f] rest] eqn:Eq; [now rewrite Eq|].
  apply cta_inv_late_tail in H.
  destruct f as [| |o|o]; cbn [cta_call cta_setTimeout cta_timers]; try exact H.
  destruct H as (Hs & H4 & H3). split; [now apply schedule_sorted|]. split.
  - intros d o' Hin. apply elem_of_schedule in Hin as [[=] | Hin]. now apply (H4 d o').
  - intros d o' Hin. apply elem_of_schedule in Hin as [[= -> ->] | Hin]; [lia|].
    now apply (H3 d o').
Qed.

Lemma cta_run_final_title now T c :
  cta_inv_late T (cta_timers c) -> (T <= now)%nat ->
  final_title (cta_run now c) = final_title c.
Proof.
  intros H Hle. unfold cta_run, final_title.
  destruct (cta_timers c) as [|[due f] rest] eqn:Eq; [now rewrite Eq|].
  apply cta_inv_late_tail in H. destruct H as (Hs & H4 & H3).
  destruct f as [| |o|o]; cbn [cta_call cta_setTimeout cta_timers cta_title last_of started restored].
  - now destruct (last_of started rest), (last_of restored rest).
  - now destruct (last_of started rest), (last_of restored rest).
  - rewrite last_of_schedule_none by reflexivity.
    destruct (last_of started rest) as [o'|] eqn:E; [reflexivity|].
    rewrite (last_of_schedule_some restored _ _ o); [reflexivity | reflexivity | exact Hs |].
    intros d g Hin [o' Ho']. destruct g; try discriminate.
    specialize (H3 d originalText Hin). lia.
  - destruct (last_of started rest); [reflexivity|].
    now destruct (last_of restored rest).
Qed.

Lemma cta_click_inv_late t c :
  cta_inv_late t (cta_timers c) -> cta_inv_late t (cta_timers (cta_click t c)).
Proof.
  intros (Hs & H4 & H3). rewrite cta_click_timers.
  split; [now repeat apply schedule_sorted|]. split.
  - intros d o Hin. repeat (apply elem_of_schedule in Hin as [[=] | Hin]); subst; [lia|].
    now apply (H4 d o).
  - intros d o Hin. repeat (apply elem_of_schedule in Hin as [[=] | Hin]).
    now apply (H3 d o).
Qed.

Lemma cta_click_final_title_late t c :
  cta_inv_late t (cta_timers c) -> final_title (cta_click t c) = cta_title c.
Proof.
  intros (Hs & H4 & _). unfold final_title. rewrite cta_click_timers.
  rewrite (last_of_schedule_some started _ _ (cta_title c)); [reflexivity | reflexivity | |].
  - now repeat apply schedule_sorted.
  - intros d g Hin [o Ho]. destruct g; try discriminate.
    repeat (apply elem_of_schedule in Hin as [[=] | Hin]).
    now apply (H4 d originalText).
Qed.

(** Timeouts that run one after the other, at times that do not go back. *)
Lemma cta_timeouts_spec rs :
  forall T c,
    cta_inv_late T (cta_timers c) -> Forall (le T) rs -> StronglySorted le rs ->
    final_title (cta_events (map CtaTimeout rs) c) = final_title c /\
    forall T', (T <= T')%nat -> Forall (fun r => (r <= T')%nat) rs ->
      cta_inv_late T' (cta_timers (cta_events (map CtaTimeout rs) c)).
Proof.
  induction rs as [|r rs IH]; intros T c Hi Hge Hs; cbn [map cta_events foldl].
  - split; [reflexivity|]. intros T' HT _. now apply (cta_inv_late_mono T).
  - apply Forall_cons in Hge as [Hr Hge]. apply StronglySorted_inv in Hs as [Hs Hall].
    cbn [cta_step]. destruct (IH r (cta_run r c)) as [H1 H2].
    + now apply (cta_run_inv r T).
    + exact Hall.
    + exact Hs.
    + split.
      * unfold cta_events in H1. rewrite H1. now apply (cta_run_final_title r T).
      * intros T' HT Hle. apply Forall_cons in Hle as [Hr' Hle]. now apply H2.
Qed.

Lemma cta_timeouts_idle rs c :
  cta_timers c = [] -> cta_events (map CtaTimeout rs) c = c.
Proof.
  intros H. induction rs as [|r rs IH]; [reflexivity|].
  cbn [map cta_events foldl cta_step]. unfold cta_run. rewrite H. exact IH.
Qed.

(** The title after the first click on the idle button and [k] timeouts: the
    ripple goes, the animation is cleared, the confirmation is shown, the
    title is restored. *)
Lemma cta_first_click_title t1 (rs : list nat) title animation ripples0 :
  cta_title (cta_events (map CtaTimeout rs)
               (cta_click t1 {| cta_title := title; cta_animation := animation;
                                cta_ripples := ripples0; cta_timers := [] |})) =
  match length rs with
  | 0 | 1 | 2 => "Loading..."
  | 3 => "✓ Started!"
  | _ => title
  end%nat.
Proof.
  rewrite cta_click_idle.
  destruct rs as [|r1 [|r2 [|r3 [|r4 rs]]]]; try reflexivity.
  cbn [map cta_events foldl cta_step cta_run cta_timers cta_call cta_setTimeout schedule
       cta_title cta_animation cta_ripples length].
  match goal with
  | |- cta_title (foldl cta_step ?x _) = _ =>
      rewrite (cta_timeouts_idle rs x eq_refl : foldl cta_step x (map CtaTimeout rs) = x)
  end.
  reflexivity.
Qed.

(** X18.  Two clicks on the idle start button, with timeouts that may run
    late (in the order in which they are due, at times that do not go
    back): once all timeouts have run, the title is ["Loading..."] if fewer
    than three of the first click's timeouts (the removal of the ripple, the
    reset of the animation, the confirmation, in this order) had run when
    the second click came, ["✓ Started!"] if exactly these three had run,
    and the button's own text if the restoring timeout had run as well. *)
Theorem cta_second_click (t1 t2 : nat) (runs1 runs2 : list nat) c :
  cta_timers c = [] ->
  StronglySorted le (t1 :: runs1 ++ t2 :: runs2) ->
  let final :=
    cta_events (CtaClick t1 :: map CtaTimeout runs1 ++ CtaClick t2 :: map CtaTimeout runs2) c in
  cta_timers final = [] ->
  cta_title final =
    match length runs1 with
    | 0 | 1 | 2 => "Loading..."
    | 3 => "✓ Started!"
    | _ => cta_title c
    end%nat.
Proof.
  intros Hidle Hs. cbv zeta.
  apply StronglySorted_inv in Hs as [Hs H1].
  apply Forall_app in H1 as [H1 H1'].
  apply StronglySorted_app in Hs as (H12 & Hs1 & Hs2).
  apply StronglySorted_inv in Hs2 as [Hs2 H2].
  apply Forall_cons in H1' as [Ht _].
  unfold cta_events. cbn [foldl cta_step]. rewrite foldl_app. cbn [foldl cta_step].
  fold (cta_events (map CtaTimeout runs1) (cta_click t1 c)).
  set (b := cta_events (map CtaTimeout runs1) (cta_click t1 c)).
  fold (cta_events (map CtaTimeout runs2) (cta_click t2 b)).
  assert (cta_inv_late t2 (cta_timers b)) as Hb.
  { apply (cta_timeouts_spec runs1 t1 (cta_click t1 c)); try assumption.
    - apply cta_click_inv_late. rewrite Hidle. apply cta_inv_late_idle.
    - apply Forall_forall. intros r Hr. apply (H12 r t2 Hr). now left. }
  destruct (cta_timeouts_spec runs2 t2 (cta_click t2 b)) as [Hf _]; try assumption.
  { now apply cta_click_inv_late. }
  intros Hend. rewrite cta_click_final_title_late in Hf by exact Hb.
  unfold final_title in Hf at 1. rewrite Hend in Hf. cbn [last_of] in Hf. rewrite Hf.
  unfold b. destruct c as [title animation ripples0 timers0].
  cbn [cta_timers] in Hidle. subst timers0. apply cta_first_click_title.
Qed.

End LateButton.

(** * The mouse trail and the start of the counters *)

Section Trail.
Variable Date_now : nat -> Z.

Lemma filter_recent_length reads trail :
  (length (filter_recent Date_now reads trail).1 <= length trail)%nat.
Proof.
  revert reads. induction trail as [|p rest IH]; intros reads; cbn [filter_recent fst length].
  - lia.
  - specialize (IH (S reads)). destruct (bool_decide _); cbn [length]; lia.
Qed.

Lemma mousemove_length e s :
  (length s.1 <= 6)%nat -> (length (mousemove Date_now e s).1 <= 6)%nat.
Proof.
  intros H. unfold mousemove. cbv zeta.
  etransitivity; [apply filter_recent_length|].
  rewrite length_app. cbn [length]. case_bool_decide.
  - destruct s.1; cbn [tail length] in *; lia.
  - lia.
Qed.

End Trail.

Lemma filter_recent_still t reads trail :
  Forall (fun p => Point.time p = t) trail ->
  (filter_recent (fun _ => t) reads trail).1 = trail.
Proof.
  revert reads. induction trail as [|p rest IH]; intros reads H; cbn [filter_recent fst].
  - reflexivity.
  - apply Forall_cons in H as [Hp H]. rewrite IH by exact H.
    rewrite bool_decide_true; [reflexivity | lia].
Qed.

Lemma mousemoves_snoc Date_now es e s :
  mousemoves Date_now (es ++ [e]) s = mousemove Date_now e (mousemoves Date_now es s).
Proof. unfold mousemoves. now rewrite foldl_app. Qed.

Lemma mousemoves_still t es :
  let s := mousemoves (fun _ => t) es ([], 0%nat) in
  Forall (fun p => Point.time p = t) s.1 /\ length s.1 = (length es `min` 6)%nat.
Proof.
  cbv zeta. induction es as [|e es IH] using rev_ind.
  - split; [constructor | reflexivity].
  - rewrite mousemoves_snoc, length_app. cbn [length].
    destruct IH as [Hall Hlen].
    set (s := mousemoves (fun _ => t) es ([], 0%nat)) in *.
    unfold mousemove. cbv zeta.
    assert (Forall (fun p => Point.time p = t)
              ((if bool_decide (5 < length s.1)%nat then tail s.1 else s.1) ++
               [{| Point.x := e.1; Point.y := e.2; Point.time := t |}])) as Hall'.
    { apply Forall_app. split; [|repeat constructor].
      destruct (bool_decide _); [|exact Hall].
      destruct s.1; [constructor|]. now apply Forall_cons in Hall as [_ Hall]. }
    rewrite filter_recent_still by exact Hall'. split; [exact Hall'|].
    rewrite length_app. cbn [length]. case_bool_decide.
    + destruct s.1; cbn [tail length] in *; lia.
    + lia.
Qed.

(** X19.  The mouse trail never holds more than six points, whatever the
    clock reads; and it does hold six: when the clock stands still, it
    holds as many points as there were events, up to six. *)
Theorem mouse_trail_length :
  (forall Date_now es, (length (mousemoves Date_now es ([], 0%nat)).1 <= 6)%nat) /\
  (forall t es, length (mousemoves (fun _ => t) es ([], 0%nat)).1 = (length es `min` 6)%nat).
Proof.
  split.
  - intros Date_now es. induction es as [|e es IH] using rev_ind.
    + cbn. lia.
    + rewrite mousemoves_snoc. now apply mousemove_length.
  - intros t es. apply mousemoves_still.
Qed.

Section CounterStart.
Implicit Types (c : Counters) (evs : list counter_event).

Lemma counter_run_snoc evs ev c :
  counter_run (evs ++ [ev]) c = counter_step (counter_run evs c) ev.
Proof. unfold counter_run. now rewrite foldl_app. Qed.

Lemma starts_snoc c a d k :
  starts {| didAnimate := d; connected := k; actions := actions c ++ [a] |} =
  (starts c + (if decide (a = StartCounters) then 1 else 0))%nat.
Proof.
  unfold starts. cbn [actions]. rewrite filter_app, length_app. f_equal.
  rewrite filter_cons, filter_nil. now destruct (decide (a = StartCounters)).
Qed.

Lemma observe_entries_latched entries c :
  latched c ->
  let c' := foldl (fun c e => observe_entry e c) c entries in
  latched c' /\ didAnimate c' = didAnimate c || bool_decide (true ∈ entries) /\
  (FillTargets ∈ actions c' <-> FillTargets ∈ actions c).
Proof.
  cbv zeta. revert c. induction entries as [|e entries IH]; intros c Hc; cbn [foldl].
  - split; [exact Hc|]. split; [|tauto].
    rewrite bool_decide_false; [now rewrite orb_false_r|]. apply not_elem_of_nil.
  - assert (latched (observe_entry e c) /\
            didAnimate (observe_entry e c) = didAnimate c || e /\
            (FillTargets ∈ actions (observe_entry e c) <-> FillTargets ∈ actions c))
      as (H1 & H2 & H3).
    { unfold observe_entry. destruct Hc as [Hk Hs].
      destruct e, (didAnimate c) eqn:Ed; cbn [andb negb orb].
      - unfold latched. rewrite Ed. tauto.
      - split; [|split; [reflexivity|]].
        + split; [reflexivity|]. cbn [didAnimate]. rewrite starts_snoc, Hs.
          now rewrite decide_True by reflexivity.
        + cbn [actions]. rewrite elem_of_app, list_elem_of_singleton.
          split; [intros [H | H]; [exact H | discriminate] | tauto].
      - unfold latched. rewrite Ed. tauto.
      - unfold latched. rewrite Ed. tauto. }
    destruct (IH _ H1) as (H4 & H5 & H6). split; [exact H4|]. split; [|tauto].
    rewrite H5, H2. destruct e.
    + rewrite (bool_decide_true (true ∈ true :: entries)) by now left.
      now rewrite !orb_true_r.
    + rewrite orb_false_r. f_equal. apply bool_decide_ext.
      rewrite elem_of_cons. split; [tauto | intros [H | H]; [discriminate | exact H]].
Qed.

Lemma came_into_view_snoc evs ev :
  came_into_view (evs ++ [ev]) = came_into_view evs || intersecting ev.
Proof. unfold came_into_view. rewrite existsb_app. cbn. now rewrite orb_false_r. Qed.

Lemma counter_run_observed evs :
  let c := counter_run evs (counters_init true) in
  latched c /\ didAnimate c = came_into_view evs.
Proof.
  cbv zeta. induction evs as [|ev evs IH] using rev_ind.
  - split; [split; reflexivity | reflexivity].
  - rewrite counter_run_snoc, came_into_view_snoc. destruct IH as [Hl Hv].
    set (c := counter_run evs (counters_init true)) in *.
    destruct ev as [entries|]; cbn [counter_step intersecting].
    + destruct (connected c) eqn:Ek.
      * destruct (observe_entries_latched entries c Hl) as (H1 & H2 & _).
        split; [exact H1|]. now rewrite H2, Hv.
      * split; [exact Hl|]. destruct Hl as [Hk _]. rewrite Ek in Hk.
        rewrite <- Hv. now destruct (didAnimate c).
    + rewrite orb_false_r. destruct (didAnimate c) eqn:Ed.
      * split; [exact Hl | now rewrite Ed].
      * split; [|exact Hv].
        destruct Hl as [Hk Hs]. split; cbn [connected didAnimate]; [now rewrite Ed in Hk|].
        rewrite starts_snoc, Hs, Ed. now rewrite decide_False by discriminate.
Qed.

Lemma counter_run_unobserved evs :
  let c := counter_run evs (counters_init false) in
  didAnimate c = false /\ connected c = false /\ starts c = 1%nat.
Proof.
  cbv zeta. induction evs as [|ev evs IH] using rev_ind; [now repeat split|].
  rewrite counter_run_snoc. destruct IH as (Hd & Hk & Hs).
  set (c := counter_run evs (counters_init false)) in *.
  destruct ev as [entries|]; cbn [counter_step]; rewrite ?Hk, ?Hd; [now repeat split|].
  cbn [didAnimate connected]. rewrite starts_snoc, Hs.
  now rewrite decide_False by discriminate.
Qed.

(** X20.  The animations of the counters are started exactly once when there
    is no observer (at once), and otherwise once if some entry of the
    observer has been intersecting and not at all if none has, whatever the
    callbacks of the observer and the timeout of the [load] listener do. *)
Theorem counters_start_once (observable : bool) evs :
  starts (counter_run evs (counters_init observable)) =
  if observable then (if came_into_view evs then 1 else 0)%nat else 1%nat.
Proof.
  destruct observable.
  - destruct (counter_run_observed evs) as [[_ Hs] Hv]. now rewrite Hs, Hv.
  - apply counter_run_unobserved.
Qed.

(** X21.  When the timeout of the [load] listener runs, it writes the
    targets into the counters unless there is an observer and the stats
    card has come into view before; without an observer it writes them
    although the animations have been started. *)
Theorem fallback_fills_unless_started (observable : bool) evs :
  let c := counter_run evs (counters_init observable) in
  actions (counter_step c LoadTimeout) =
  if observable && came_into_view evs then actions c else actions c ++ [FillTargets].
Proof.
  cbv zeta. cbn [counter_step]. destruct observable; cbn [andb].
  - destruct (counter_run_observed evs) as [_ Hv]. rewrite <- Hv.
    now destruct (didAnimate _).
  - destruct (counter_run_unobserved evs) as (Hd & _). now rewrite Hd.
Qed.

End CounterStart.

(** * The counters *)

Section CounterFacts.
Context {P : Platform}.
Variable Math_pow : number -> number -> number.
Variable toFixed : number -> nat -> string.
Local Open Scope R_scope.

Lemma step_progress s g d suffix n :
  d <> 0 ->
  animateCounter_step Math_pow toFixed (Num s) (Num g) suffix (Num d) (Num n) =
  (let eased := sub (Num 1) (Math_pow (Num (fl (1 + - progress s d n))) (Num 3)) in
   let value := mul (Num g) eased in
   if decide (suffix = "x")
   then toFixed (div (Math_round (mul value (Num 10))) (Num 10)) 1 +:+ suffix
   else ToString (VNumber (Math_round value)) +:+ suffix,
   bool_decide (progress s d n < 1)).
Proof.
  intros Hd. unfold animateCounter_step, progress. cbv zeta.
  cbn [sub add neg div Math_min gt]. rewrite (decide_False (P := d = 0)) by exact Hd. reflexivity.
Qed.

Lemma progress_le_1 s d n : progress s d n <= 1.
Proof. apply Rmin_l. Qed.

Lemma progress_elapsed s d n :
  fl 1 = 1 -> fl d = d -> 0 < d -> d <= n - s -> progress s d n = 1.
Proof.
  intros H1 Hd Hpos Hn. unfold progress. apply Rmin_left.
  rewrite <- H1 at 1. apply fl_mono.
  assert (d <= fl (n + - s)) as H.
  { rewrite <- Hd at 1. apply fl_mono. lra. }
  apply (Rmult_le_reg_r d); [exact Hpos|]. field_simplify; lra.
Qed.

Lemma step_at_target s g d suffix n :
  Math_pow (Num 0) (Num 3) = Num 0 -> fl 1 = 1 -> fl g = g -> d <> 0 ->
  progress s d n = 1 ->
  animateCounter_step Math_pow toFixed (Num s) (Num g) suffix (Num d) (Num n) =
  (target_text toFixed (Num g) suffix, false).
Proof.
  intros Hpow H1 Hg Hd Ht. rewrite step_progress by exact Hd. cbv zeta. rewrite Ht.
  replace (1 + Ropp 1) with 0 by ring. rewrite fl_0, Hpow.
  cbn [sub add neg mul]. replace (1 + Ropp 0) with 1 by ring. rewrite H1.
  replace (g * 1) with g by ring. rewrite Hg.
  rewrite bool_decide_false by lra. reflexivity.
Qed.

(** X22.  Once a frame comes when the duration has elapsed, the counter
    shows its target ([Math.round(target) + suffix], with one decimal when
    the suffix is ['x']) and requests no further frame; no frame before it
    ends the animation with another text.  The number [1], the duration and
    the target are doubles, and [Math.pow(0, 3)] is [0]. *)
Theorem counter_ends_at_target (s g d : R) suffix (frames : list R) textContent :
  Math_pow (Num 0) (Num 3) = Num 0 ->
  fl 1 = 1 -> fl d = d -> fl g = g -> 0 < d ->
  Exists (fun n => d <= n - s) frames ->
  animateCounter Math_pow toFixed (Num s) (Num g) suffix (Num d) (map Num frames)
    textContent = target_text toFixed (Num g) suffix.
Proof.
  intros Hpow H1 Hd Hg Hpos. revert textContent.
  induction frames as [|n frames IH]; intros textContent Hex.
  - now apply Exists_nil in Hex.
  - cbn [map animateCounter].
    destruct (Req_dec (progress s d n) 1) as [Ht | Ht].
    + rewrite step_at_target; try assumption; [reflexivity | lra].
    + rewrite step_progress by lra. cbv zeta. cbn [fst snd].
      pose proof (progress_le_1 s d n).
      rewrite bool_decide_true by lra. apply IH.
      apply Exists_cons in Hex as [Hn | Hex]; [|exact Hex].
      exfalso. apply Ht. now apply progress_elapsed.
Qed.

End CounterFacts.

(** * The further properties on sample inputs *)

Section CappedCurve.
Context {P : Platform}.
Local Open Scope R_scope.

(** A scaled raw value of 951 or more is capped. *)
Lemma capped_point a b raw :
  encl a b (mul raw (Num 10)) -> 951 <= a ->
  Math_min (Num 95) (div (Math_round (mul raw (Num 10))) (Num 10)) = Num 95.
Proof.
  intros H Ha. destruct (mul raw (Num 10)) as [r | | |]; simpl in H; try tauto.
  cbn [Math_round div]. rewrite decide_False by lra. cbn [Math_min]. f_equal.
  apply Rmin_left.
  assert (951 <= IZR (Zfloor (r + / 2))) as Hk.
  { apply IZR_le, Zfloor_lub. simpl. lra. }
  assert (951 / 10 <= IZR (Zfloor (r + / 2)) / 10 <= IZR (Zfloor (r + / 2)) / 10) as Hx
    by lra.
  apply (fl_encl_nonneg (951 / 10)) in Hx; [|lra]. unfold eps in Hx. lra.
Qed.

Lemma ageMult_of_830 : encl (8999999 / 1000000) (9000001 / 1000000) (ageMult_of (Num 830)).
Proof.
  unfold ageMult_of.
  eapply encl_weaken; [enclose | side | side].
Qed.

Lemma clamped_male_2 : malePoint clamped_state 2 = Num 95.
Proof.
  unfold malePoint, point, clamped_state. cbn [med age dose]. cbv zeta.
  pose proof base_of_sertraline. pose proof tFactor_of_2.
  pose proof ageMult_of_830. pose proof doseFactor_50.
  eapply capped_point; [enclose | side].
Qed.

End CappedCurve.

Section MoreInstances.
#[local] Existing Instance exact_arithmetic.
Local Open Scope R_scope.

Lemma has_field_zero_risk : has_field zero_risk_answer risk_probability.
Proof. exists (VNumber (Num 0)). split; [reflexivity | discriminate]. Qed.

Lemma has_field_half_risk : has_field half_risk_answer risk_probability.
Proof. exists (VNumber (Num (1 / 2))). split; [reflexivity | discriminate]. Qed.

Lemma convert_zero_risk :
  convertAPIResponse zero_risk_answer example_state =
  inr (api_result (VNumber (Num 0)) VUndefined VUndefined example_state).
Proof. exact (convert_direct zero_risk_answer example_state has_field_zero_risk). Qed.


Lemma fetch_zero_risk :
  fetchFromAPI (fun _ => Responded true 200 (inr zero_risk_answer)) example_state
    example_state =
  inr (api_result (VNumber (Num 0)) VUndefined VUndefined example_state).
Proof.
  rewrite (fetch_converts (fun _ => Responded true 200 (inr zero_risk_answer)) 200
             zero_risk_answer VUndefined example_state example_state);
    [exact convert_zero_risk | reflexivity | reflexivity | reflexivity].
Qed.

Lemma convert_prefers_top_level_witness :
  has_field half_risk_answer risk_probability /\
  convertAPIResponse half_risk_answer_with_prediction example_state =
  convertAPIResponse half_risk_answer example_state.
Proof.
  split; [exact has_field_half_risk|].
  exact (convert_prefers_top_level half_risk_answer half_risk_answer_with_prediction
           example_state has_field_half_risk eq_refl eq_refl eq_refl).
Defined.


Lemma zero_risk_is_flat_witness :
  convertAPIResponse zero_risk_answer example_state =
    inr (api_result (VNumber (Num 0)) VUndefined VUndefined example_state) /\
  ToNumber (riskProb_of zero_risk_answer) = Num 0 /\
  diffPct (api_result (VNumber (Num 0)) VUndefined VUndefined example_state) = Num 0.
Proof.
  split; [exact convert_zero_risk|]. split; [reflexivity|].
  exact (proj2 (proj2 (zero_risk_is_flat zero_risk_answer example_state _
                         convert_zero_risk eq_refl))).
Defined.

Lemma failed_status_falls_back_witness :
  (forall req : ApiData,
     (fun _ : ApiData => Responded false 503 (inr VNull)) req =
     Responded false 503 (inr VNull)) /\
  shows (computeRiskCurve example_state) example_state
    (settle (updateAll (fun _ => Responded false 503 (inr VNull))
               example_state example_state 1 initial_page)).
Proof.
  split; [reflexivity|].
  exact (proj2 (failed_status_falls_back (fun _ => Responded false 503 (inr VNull)) 503
                  (inr VNull) example_state example_state 1 initial_page
                  (fun _ => eq_refl))).
Defined.

Lemma error_field_falls_back_witness :
  (forall req : ApiData,
     (fun _ : ApiData => Responded true 200 (inr error_answer)) req =
     Responded true 200 (inr error_answer)) /\
  getprop error_answer error = inr (VString "model not loaded") /\
  ToBoolean (VString "model not loaded") = true /\
  shows (computeRiskCurve example_state) example_state
    (settle (updateAll (fun _ => Responded true 200 (inr error_answer))
               example_state example_state 1 initial_page)).
Proof.
  split; [reflexivity|]. split; [reflexivity|]. split; [reflexivity|].
  exact (proj2 (error_field_falls_back (fun _ => Responded true 200 (inr error_answer)) 200
                  error_answer (VString "model not loaded") example_state example_state 1
                  initial_page (fun _ => eq_refl) eq_refl eq_refl)).
Defined.

Lemma successful_answer_is_shown_witness :
  (forall req : ApiData,
     (fun _ : ApiData => Responded true 200 (inr zero_risk_answer)) req =
     Responded true 200 (inr zero_risk_answer)) /\
  getprop zero_risk_answer error = inr VUndefined /\
  ToBoolean VUndefined = false /\
  convertAPIResponse zero_risk_answer example_state =
    inr (api_result (VNumber (Num 0)) VUndefined VUndefined example_state) /\
  shows (api_result (VNumber (Num 0)) VUndefined VUndefined example_state) example_state
    (settle (updateAll (fun _ => Responded true 200 (inr zero_risk_answer))
               example_state example_state 1 initial_page)).
Proof.
  split; [reflexivity|]. split; [reflexivity|]. split; [reflexivity|].
  split; [exact convert_zero_risk|].
  exact (successful_answer_is_shown (fun _ => Responded true 200 (inr zero_risk_answer)) 200
           zero_risk_answer VUndefined example_state example_state 1 initial_page _
           (fun _ => eq_refl) eq_refl eq_refl convert_zero_risk).
Defined.

Lemma last_settled_update_wins_witness :
  fetchFromAPI (fun _ => Responded true 200 (inr zero_risk_answer)) example_state
    example_state =
    inr (api_result (VNumber (Num 0)) VUndefined VUndefined example_state) /\
  shows (api_result (VNumber (Num 0)) VUndefined VUndefined example_state) example_state
    (settle (overlapping_updates (fun _ => Responded true 200 (inr zero_risk_answer))
               example_state female_example_state female_example_state example_state
               1 2 0 initial_page)).
Proof.
  split; [exact fetch_zero_risk|].
  exact (last_settled_update_wins (fun _ => Responded true 200 (inr zero_risk_answer))
           example_state female_example_state female_example_state example_state
           1 2 0 initial_page _ fetch_zero_risk).
Defined.

Lemma sex_buttons_follow_state_witness :
  (sex_buttons_agree (example_state, initial_controls) \/
   exists s, SexClick s ∈ [DoseInput (Num 60); SexClick "female"]) /\
  sex_buttons_agree
    (handle_all [DoseInput (Num 60); SexClick "female"] (example_state, initial_controls)).
Proof.
  assert (exists s, SexClick s ∈ [DoseInput (Num 60); SexClick "female"]) as H.
  { exists "female". apply elem_of_cons. right. apply elem_of_cons. now left. }
  split; [right; exact H|].
  exact (sex_buttons_follow_state [DoseInput (Num 60); SexClick "female"]
           (example_state, initial_controls) (or_intror H)).
Defined.

Lemma other_sex_has_no_gap_witness :
  sex example_state <> "female" /\
  femaleCurve (computeRiskCurve example_state) = maleCurve (computeRiskCurve example_state).
Proof.
  assert (sex example_state <> "female") as H by discriminate.
  split; [exact H|]. exact (proj1 (other_sex_has_no_gap example_state H)).
Defined.

Lemma clamped_curves_no_reduction_witness :
  maleCurve (computeRiskCurve clamped_state) !! 2%nat = Some (Num 95) /\
  (femaleCurve (computeRiskCurve clamped_state) !! 2%nat = Some (Num 95) /\
   diffPct (computeRiskCurve clamped_state) = Num 0 /\
   Rec.dose (recommendation (computeRiskCurve clamped_state)) = Some (dose clamped_state)).
Proof.
  assert (maleCurve (computeRiskCurve clamped_state) !! 2%nat = Some (Num 95)) as H.
  { rewrite maleCurve_points. cbn [map lookup list_lookup]. f_equal. apply clamped_male_2. }
  split; [exact H|].
  exact (clamped_curves_no_reduction clamped_state H).
Defined.

Lemma counter_ends_at_target_witness :
  exact_pow (Num 0) (Num 3) = Num 0 /\
  fl 1 = 1 /\ fl 1200 = 1200 /\ fl 95 = 95 /\ 0 < 1200 /\
  Exists (fun n => 1200 <= n - 0) [16; 600; 1200; 1216] /\
  animateCounter exact_pow exact_toFixed (Num 0) (Num 95) "%" (Num 1200)
    (map Num [16; 600; 1200; 1216]) "0" = target_text exact_toFixed (Num 95) "%".
Proof.
  assert (exact_pow (Num 0) (Num 3) = Num 0) as Hp.
  { unfold exact_pow. rewrite decide_True by reflexivity. simpl. f_equal. lra. }
  assert (0 < 1200) as Hd by lra.
  assert (Exists (fun n => 1200 <= n - 0) [16; 600; 1200; 1216]) as He.
  { apply Exists_cons_tl, Exists_cons_tl, Exists_cons_hd. lra. }
  split; [exact Hp|]. split; [reflexivity|]. split; [reflexivity|].
  split; [reflexivity|]. split; [exact Hd|]. split; [exact He|].
  exact (counter_ends_at_target exact_pow exact_toFixed 0 95 1200 "%"
           [16; 600; 1200; 1216] "0" Hp eq_refl eq_refl eq_refl Hd He).
Defined.

End MoreInstances.

Lemma sample_tiles :
  NoDup [0; 1; 2]%nat /\ NoDup [10; 11; 12]%nat /\
  (forall x : nat, x ∈ [0; 1; 2]%nat -> x ∉ [10; 11; 12]%nat).
Proof.
  split; [|split].
  - refine (bool_decide_unpack _ _). vm_compute. exact I.
  - refine (bool_decide_unpack _ _). vm_compute. exact I.
  - intros x Hx. apply (proj1 (Forall_forall (fun x => x ∉ [10; 11; 12]%nat) [0; 1; 2]%nat));
      [|exact Hx].
    refine (bool_decide_unpack _ _). vm_compute. exact I.
Qed.

Lemma cycle_activates_current_witness :
  NoDup [0; 1; 2]%nat /\ NoDup [10; 11; 12]%nat /\
  (forall x : nat, x ∈ [0; 1; 2]%nat -> x ∉ [10; 11; 12]%nat) /\
  (2 < length [0; 1; 2]%nat)%nat /\
  (cycleToNextStat [0; 1; 2]%nat [10; 11; 12]%nat (Some 2%nat) sample_dom).1 =
    Some ((2 + 1) mod length [0; 1; 2]%nat)%nat.
Proof.
  destruct sample_tiles as (H1 & H2 & H3).
  assert (2 < length [0; 1; 2]%nat)%nat as H4 by (simpl; lia).
  split; [exact H1|]. split; [exact H2|]. split; [exact H3|]. split; [exact H4|].
  exact (proj2 (proj2 (cycle_activates_current [0; 1; 2]%nat [10; 11; 12]%nat 2 sample_dom
                         H1 H2 H3 H4))).
Defined.

Lemma autoplay_ignores_clicks_witness :
  NoDup [0; 1; 2]%nat /\ NoDup [10; 11; 12]%nat /\
  (forall x : nat, x ∈ [0; 1; 2]%nat -> x ∉ [10; 11; 12]%nat) /\
  [0; 1; 2]%nat <> [] /\
  (tile_run [0; 1; 2]%nat [10; 11; 12]%nat ([Tick; Click 2; Expire] ++ [Tick])
     (Some 0%nat, sample_dom)).1 =
    Some ((ticks [Tick; Click 2; Expire] + 1) mod length [0; 1; 2]%nat)%nat.
Proof.
  destruct sample_tiles as (H1 & H2 & H3).
  assert ([0; 1; 2]%nat <> []) as H4 by discriminate.
  split; [exact H1|]. split; [exact H2|]. split; [exact H3|]. split; [exact H4|].
  exact (proj2 (proj2 (autoplay_ignores_clicks [0; 1; 2]%nat [10; 11; 12]%nat
                         [Tick; Click 2; Expire] sample_dom H1 H2 H3 H4))).
Defined.

Lemma autoplay_without_tiles_witness :
  (0 < ticks [Tick; Expire])%nat /\
  (tile_run [] [10; 11; 12]%nat ([Tick; Expire] ++ [Tick]) (Some 0%nat, sample_dom)).1 = None.
Proof.
  assert (0 < ticks [Tick; Expire])%nat as H by (vm_compute; lia).
  split; [exact H|].
  exact (proj1 (autoplay_without_tiles [10; 11; 12]%nat [Tick; Expire] sample_dom H)).
Defined.

Lemma clicks_leave_no_trace_witness :
  timeouts sample_dom = [] /\
  timeouts (expire_all (tile_run [0; 1; 2]%nat [10; 11; 12]%nat
                          [Click 1; Tick; Click 1; Expire] (Some 0%nat, sample_dom)).2) = [].
Proof.
  split; [reflexivity|].
  exact (proj1 (clicks_leave_no_trace [0; 1; 2]%nat [10; 11; 12]%nat
                  [Click 1; Tick; Click 1; Expire] (Some 0%nat) sample_dom eq_refl)).
Defined.

Lemma cta_title_after_clicks_witness :
  cta_timers idle_button = [] /\
  StronglySorted le ([0; 400]%nat ++ [900%nat]) /\
  cta_title (cta_settle (cta_click 900 (cta_advance 900 (cta_clicks [0; 400]%nat idle_button))))
  = cta_title (cta_advance 900 (cta_clicks [0; 400]%nat idle_button)).
Proof.
  assert (StronglySorted le ([0; 400]%nat ++ [900%nat])) as H.
  { repeat constructor; lia. }
  split; [reflexivity|]. split; [exact H|].
  exact (proj1 (proj2 (cta_title_after_clicks [0; 400]%nat 900 idle_button eq_refl H))).
Defined.

Lemma cta_second_click_witness :
  cta_timers idle_button = [] /\
  StronglySorted le (0 :: [600; 1005] ++ 1010 :: [1020; 1610; 2010; 2010; 3020; 4010])%nat /\
  cta_timers
    (cta_events (CtaClick 0 :: map CtaTimeout [600; 1005]%nat ++
                 CtaClick 1010 :: map CtaTimeout [1020; 1610; 2010; 2010; 3020; 4010]%nat)
       idle_button) = [] /\
  cta_title
    (cta_events (CtaClick 0 :: map CtaTimeout [600; 1005]%nat ++
                 CtaClick 1010 :: map CtaTimeout [1020; 1610; 2010; 2010; 3020; 4010]%nat)
       idle_button) = "Loading...".
Proof.
  assert (StronglySorted le
            (0 :: [600; 1005] ++ 1010 :: [1020; 1610; 2010; 2010; 3020; 4010])%nat) as H.
  { repeat match goal with
             | |- StronglySorted _ _ => constructor
             | |- Forall _ _ => constructor
             end; lia. }
  assert (cta_timers
            (cta_events (CtaClick 0 :: map CtaTimeout [600; 1005]%nat ++
                         CtaClick 1010 ::
                         map CtaTimeout [1020; 1610; 2010; 2010; 3020; 4010]%nat)
               idle_button) = []) as He by (vm_compute; reflexivity).
  split; [reflexivity|]. split; [exact H|]. split; [exact He|].
  exact (cta_second_click 0 1010 [600; 1005]%nat [1020; 1610; 2010; 2010; 3020; 4010]%nat
           idle_button eq_refl H He).
Defined.

Lemma getMedicationName_default_witness :
  "toString" <> "amlodipine" /\ "toString" <> "metformin" /\
  getMedicationName "toString" = VBuiltin.
Proof.
  assert ("toString" <> "amlodipine") as H1 by discriminate.
  assert ("toString" <> "metformin") as H2 by discriminate.
  split; [exact H1|]. split; [exact H2|].
  exact (getMedicationName_default "toString" H1 H2).
Defined.
